(** * The local Ludo engine (services/gameEngine.js), embedded and verified

    The engine is a set of functions from game-state snapshots to
    game-state snapshots.  They are embedded here function by function:
    JavaScript objects become records, arrays become lists (stdpp's
    lookup [l !! i] and insert [<[i:=x]> l]), [null] and [undefined]
    become [None], a thrown [TypeError] becomes the outcome [None] of an
    [option], and the two host calls the engine makes ([Date.now] and
    [Math.random]) become events of a small effect monad [Eff].

    JavaScript numbers are modelled as [Z] (or [nat] for array indices):
    every number the engine computes is an integer far below 2^53.

    The pure parts of the components that consume the engine follow: the
    cell classification and the animation path of the board
    (components/GameBoard.js), the token counts of the player panel
    (components/PlayerPanel.js) and the colour picker of the setup
    screen (components/SetupScreen.js). *)

From Stdlib Require Import ZArith String Ascii.
From stdpp Require Import base tactics option list strings pretty.

Local Open Scope Z_scope.
Local Open Scope string_scope.

(** ** Data model *)

(** [TOKEN_STATE] (gameEngine.js 35-39). *)
Inductive TOKEN_STATE : Type := BASE | ACTIVE | HOME.

#[global] Instance TOKEN_STATE_eq_dec : EqDecision TOKEN_STATE.
Proof. solve_decision. Defined.

(** The token objects built at gameEngine.js 74-80. *)
Module Token.
Record t : Type := mk {
  id : string;
  state : TOKEN_STATE;
  position : Z;
  homeStretchPos : Z;
  stepsFromStart : Z;
}.
End Token.

(** The player objects built at gameEngine.js 83-92.  [name] is [None]
    when the JavaScript value is [undefined] (no name given and no
    default, which happens from the fifth player on). *)
Module Player.
Record t : Type := mk {
  index : nat;
  name : option string;
  color : string;
  startPos : Z;
  homeEntryPos : Z;
  tokens : list Token.t;
  hasFinished : bool;
  finishOrder : Z;
}.
End Player.

(** ['roll'] and ['move'], the two values of [turnPhase]. *)
Inductive TurnPhase : Type := Roll | Move.

#[global] Instance TurnPhase_eq_dec : EqDecision TurnPhase.
Proof. solve_decision. Defined.

(** One record of [moveHistory] (gameEngine.js 367). *)
Module MoveRecord.
Record t : Type := mk {
  playerIndex : nat;
  tokenId : string;
  diceValue : option Z;
}.
End MoveRecord.

(** The game state object returned at gameEngine.js 95-109. *)
Module GameState.
Record t : Type := mk {
  id : string;
  players : list Player.t;
  currentPlayerIndex : nat;
  diceValue : option Z;
  diceRolled : bool;
  hasExtraTurn : bool;
  consecutiveSixes : Z;
  winner : option nat;
  gameOver : bool;
  turnPhase : TurnPhase;
  message : string;
  moveHistory : list MoveRecord.t;
  finishOrder : list nat;
}.
End GameState.

(** [{ ...gameState, message }]: the shape of every rejection. *)
Definition with_message (gameState : GameState.t) (message : string) : GameState.t :=
  GameState.mk (GameState.id gameState) (GameState.players gameState)
    (GameState.currentPlayerIndex gameState) (GameState.diceValue gameState)
    (GameState.diceRolled gameState) (GameState.hasExtraTurn gameState)
    (GameState.consecutiveSixes gameState) (GameState.winner gameState)
    (GameState.gameOver gameState) (GameState.turnPhase gameState)
    message (GameState.moveHistory gameState) (GameState.finishOrder gameState).

(** The token at index [t] of player [i], if both exist. *)
Definition token_at (gameState : GameState.t) (i t : nat) : option Token.t :=
  p ← GameState.players gameState !! i; Player.tokens p !! t.

(** ** Board constants (gameEngine.js 19-32) *)

Definition BOARD_SIZE : Z := 52.
Definition TOKENS_PER_PLAYER : nat := 4.
Definition HOME_STRETCH_LENGTH : Z := 5.

Record PlayerConfig : Type := mkPlayerConfig {
  cfg_color : string;
  cfg_name : string;
  cfg_startPos : Z;
  cfg_homeEntryPos : Z;
}.

Definition PLAYER_CONFIGS : list PlayerConfig :=
  [ mkPlayerConfig "red" "Red" 0 50;
    mkPlayerConfig "green" "Green" 13 11;
    mkPlayerConfig "yellow" "Yellow" 26 24;
    mkPlayerConfig "blue" "Blue" 39 37 ].

Definition SAFE_SQUARES : list Z := [0; 8; 13; 21; 26; 34; 39; 47].

(** ** Host effects

    The engine calls the host twice: [Date.now()] and [Math.random()].
    A draw of [Math.random()] is a double in [0, 1); the engine observes
    it only through [Math.floor(x * 6)] and [x.toString(36)], so a draw
    is modelled by these two observations.  [floor_times6] lies in 0..5
    for every double of [0, 1) (predicate [draw_ok]). *)

Record RandomDraw : Type := mkDraw {
  floor_times6 : Z;
  to_radix36 : string;
}.

Definition draw_ok (x : RandomDraw) : Prop := 0 <= floor_times6 x <= 5.

Inductive Eff (A : Type) : Type :=
| Ret (a : A)
| Throw
| DateNow (k : Z → Eff A)
| MathRandom (k : RandomDraw → Eff A).

Arguments Ret {A} a.
Arguments Throw {A}.
Arguments DateNow {A} k.
Arguments MathRandom {A} k.

Fixpoint Eff_bind {A B : Type} (m : Eff A) (f : A → Eff B) : Eff B :=
  match m with
  | Ret a => f a
  | Throw => Throw
  | DateNow k => DateNow (λ now, Eff_bind (k now) f)
  | MathRandom k => MathRandom (λ x, Eff_bind (k x) f)
  end.

(** An [option] computation as an effect-free one: [None] is a throw. *)
Definition lift {A : Type} (o : option A) : Eff A :=
  match o with Some a => Ret a | None => Throw end.

Notation "x ←ᵉ m ; k" := (Eff_bind m (λ x, k))
  (at level 20, m at level 100, k at level 200, only parsing).

(** The host: what the successive calls of [Date.now] and [Math.random]
    return. *)
Record World : Type := mkWorld {
  clock : nat → Z;
  random : nat → RandomDraw;
}.

Definition world_ok (w : World) : Prop := ∀ n, draw_ok (random w n).

Definition tick (w : World) : World := mkWorld (λ n, clock w (S n)) (random w).
Definition drawn (w : World) : World := mkWorld (clock w) (λ n, random w (S n)).

(** Running a computation against a host; [None] is an uncaught
    [TypeError]. *)
Fixpoint run {A : Type} (m : Eff A) (w : World) : option A :=
  match m with
  | Ret a => Some a
  | Throw => None
  | DateNow k => run (k (clock w 0%nat)) (tick w)
  | MathRandom k => run (k (random w 0%nat)) (drawn w)
  end.

(** ** Small JavaScript helpers *)

(** ToNumber of a value that is a number or [null]. *)
Definition to_number (v : option Z) : Z := default 0 v.

(** A template-string hole holding a number or [null]. *)
Definition show_number (v : option Z) : string :=
  match v with Some n => pretty n | None => "null" end.

(** A template-string hole holding a string or [undefined]. *)
Definition show_name (v : option string) : string := default "undefined" v.

(** [a || b] on strings that may be missing: the empty string is falsy. *)
Definition or_else (a b : option string) : option string :=
  match a with
  | Some s => if decide (s = "") then b else Some s
  | None => b
  end.

(** [generateId] (gameEngine.js 45-47). *)
Definition generateId : Eff string :=
  DateNow (λ now, MathRandom (λ x,
    Ret ("game_" +:+ pretty now +:+ "_" +:+ substring 2 9 (to_radix36 x)))).

(** [rollDieValue] (gameEngine.js 53-55). *)
Definition rollDieValue : Eff Z :=
  MathRandom (λ x, Ret (floor_times6 x + 1)).

(** ** createLocalGame (gameEngine.js 63-110) *)

Record GameConfig : Type := mkGameConfig {
  playerCount : nat;
  playerNames : list string;
  playerColors : list string;
}.

Definition defaultColors : list string := ["red"; "green"; "yellow"; "blue"].
Definition defaultNames : list string :=
  ["Player 1"; "Player 2"; "Player 3"; "Player 4"].

(** The inner loop, lines 72-81. *)
Definition newTokens (color : string) : list Token.t :=
  (λ t : nat, Token.mk (color +:+ "_" +:+ pretty t) BASE (-1) (-1) 0)
    <$> seq 0 TOKENS_PER_PLAYER.

(** One iteration of the outer loop, lines 69-92.  When neither
    [playerColors[i]] nor [defaultColors[i]] exists the colour is
    [undefined], no configuration matches it and [PLAYER_CONFIGS[i]] is
    [undefined] as well ([i >= 4]), so reading [config.startPos] throws:
    a player that is built always has a colour string. *)
Definition newPlayer (config : GameConfig) (i : nat) : option Player.t :=
  let color := or_else (playerColors config !! i) (defaultColors !! i) in
  let found := c ← color; List.find (λ c', bool_decide (cfg_color c' = c)) PLAYER_CONFIGS in
  cfg ← (match found with Some c => Some c | None => PLAYER_CONFIGS !! i end);
  color ← color;
  Some (Player.mk i (or_else (playerNames config !! i) (defaultNames !! i)) color
          (cfg_startPos cfg) (cfg_homeEntryPos cfg) (newTokens color) false (-1)).

Definition createLocalGame (config : GameConfig) : Eff GameState.t :=
  players ←ᵉ lift (mapM (newPlayer config) (seq 0 (playerCount config)));
  id ←ᵉ generateId;
  first ←ᵉ lift (players !! 0%nat);
  Ret (GameState.mk id players 0 None false false 0 None false Roll
         (show_name (Player.name first) +:+ "'s turn - Roll the dice!") [] []).

(** ** getNextPlayerIndex (gameEngine.js 402-416) *)

(** The [while] loop: [remaining] is [totalPlayers - attempts]. *)
Fixpoint skipFinished (players : list Player.t) (totalPlayers remaining next fallback : nat)
    : option nat :=
  match remaining with
  | O => Some fallback
  | S remaining' =>
      p ← players !! next;
      if Player.hasFinished p
      then skipFinished players totalPlayers remaining' ((next + 1) `mod` totalPlayers)%nat fallback
      else Some next
  end.

Definition getNextPlayerIndex (gameState : GameState.t) : option nat :=
  let totalPlayers := length (GameState.players gameState) in
  skipFinished (GameState.players gameState) totalPlayers totalPlayers
    ((GameState.currentPlayerIndex gameState + 1) `mod` totalPlayers)%nat
    (GameState.currentPlayerIndex gameState).

(** ** checkCapture (gameEngine.js 378-395) *)

(** The test of line 389. *)
Definition capturable (position : Z) (oppToken : Token.t) : bool :=
  bool_decide (Token.state oppToken = ACTIVE)
  && bool_decide (Token.position oppToken = position)
  && bool_decide (Token.homeStretchPos oppToken < 0).

(** The inner loop over [opponent.tokens], from index [t] on. *)
Fixpoint scanTokens (position : Z) (tokens : list Token.t) (t : nat) : option nat :=
  match tokens with
  | [] => None
  | oppToken :: rest =>
      if capturable position oppToken then Some t
      else scanTokens position rest (S t)
  end.

(** The outer loop over [gameState.players], from index [i] on. *)
Fixpoint scanPlayers (playerIndex : nat) (position : Z) (players : list Player.t) (i : nat)
    : option (nat * nat) :=
  match players with
  | [] => None
  | opponent :: rest =>
      if decide (i = playerIndex) then scanPlayers playerIndex position rest (S i)
      else match scanTokens position (Player.tokens opponent) 0 with
           | Some t => Some (i, t)
           | None => scanPlayers playerIndex position rest (S i)
           end
  end.

(** The result is [{ playerIndex, tokenIndex }] or [null]. *)
Definition checkCapture (gameState : GameState.t) (playerIndex : nat) (position : Z)
    : option (nat * nat) :=
  if bool_decide (position ∈ SAFE_SQUARES) then None
  else scanPlayers playerIndex position (GameState.players gameState) 0.

(** ** getValidMovesLocal (gameEngine.js 197-225) *)

Module ValidMove.
Record t : Type := mk {
  tokenId : string;
  tokenIndex : nat;
}.
End ValidMove.

(** The body of the [forEach] callback: is this token movable? *)
Definition movable (diceValue : Z) (token : Token.t) : bool :=
  match Token.state token with
  | HOME => false
  | BASE => bool_decide (diceValue = 6)
  | ACTIVE =>
      let newSteps := Token.stepsFromStart token + diceValue in
      let totalPath := BOARD_SIZE + HOME_STRETCH_LENGTH + 1 in
      bool_decide (newSteps <= totalPath)
  end.

(** [!diceValue] holds for [null] and for [0]; [player.tokens] throws
    when [currentPlayerIndex] is out of range. *)
Definition getValidMovesLocal (gameState : GameState.t) : option (list ValidMove.t) :=
  let player := GameState.players gameState !! GameState.currentPlayerIndex gameState in
  match GameState.diceValue gameState with
  | None => Some []
  | Some diceValue =>
      if decide (diceValue = 0) then Some []
      else
        player ← player;
        Some (omap id (imap (λ index token,
                if movable diceValue token
                then Some (ValidMove.mk (Token.id token) index) else None)
              (Player.tokens player)))
  end.

(** ** moveLocalToken (gameEngine.js 234-369) *)

(** What the if/else chain of lines 252-291 leaves behind: the moved
    token, the capture (if any) and the message so far. *)
Record Outcome : Type := mkOutcome {
  oc_token : Token.t;
  oc_captured : option (nat * nat);
  oc_message : string;
}.

(** Lines 252-291; [None] is the rejection of line 290.
    [stepsFromStart + diceValue] reads a [null] dice value as 0, and [%]
    is the remainder that takes the sign of the dividend ([Z.rem]). *)
Definition moveOutcome (gameState : GameState.t) (playerIndex : nat)
    (player : Player.t) (token : Token.t) : option Outcome :=
  let diceValue := GameState.diceValue gameState in
  if bool_decide (Token.state token = BASE) && bool_decide (diceValue = Some 6) then
    Some (mkOutcome
      (Token.mk (Token.id token) ACTIVE (Player.startPos player)
         (Token.homeStretchPos token) 0)
      (checkCapture gameState playerIndex (Player.startPos player))
      (show_name (Player.name player) +:+ " moves a token to the starting position."))
  else if bool_decide (Token.state token = ACTIVE) then
    let newSteps := Token.stepsFromStart token + to_number diceValue in
    let homeEntrySteps := BOARD_SIZE in
    let totalPathToHome := BOARD_SIZE + HOME_STRETCH_LENGTH + 1 in
    if bool_decide (newSteps = totalPathToHome) then
      Some (mkOutcome
        (Token.mk (Token.id token) HOME (-1) (-1) newSteps)
        None
        (show_name (Player.name player) +:+ "'s token reached HOME! ðŸŽ‰"))
    else if bool_decide (newSteps > homeEntrySteps) then
      Some (mkOutcome
        (Token.mk (Token.id token) (Token.state token) (-1)
           (newSteps - homeEntrySteps - 1) newSteps)
        None
        (show_name (Player.name player) +:+ " moves a token into the home stretch."))
    else
      let newPosition := Z.rem (Player.startPos player + newSteps) BOARD_SIZE in
      Some (mkOutcome
        (Token.mk (Token.id token) (Token.state token) newPosition
           (Token.homeStretchPos token) newSteps)
        (checkCapture gameState playerIndex newPosition)
        (show_name (Player.name player) +:+ " moves a token "
           +:+ show_number diceValue +:+ " spaces."))
  else None.

(** The object written over a captured token, lines 302-308. *)
Definition sentToBase (token : Token.t) : Token.t :=
  Token.mk (Token.id token) BASE (-1) (-1) 0.

Definition with_tokens (p : Player.t) (newTokens : list Token.t) : Player.t :=
  Player.mk (Player.index p) (Player.name p) (Player.color p) (Player.startPos p)
    (Player.homeEntryPos p) newTokens (Player.hasFinished p) (Player.finishOrder p).

(** The callback of the [map] at lines 294-312, applied to player [p]
    at index [i].  Both array writes are in range (the indices were found
    in these arrays), so they are stdpp's insert and alter. *)
Definition applyCaptureAt (playerIndex tokenIndex : nat) (token : Token.t)
    (capturedToken : option (nat * nat)) (i : nat) (p : Player.t) : Player.t :=
  if decide (i = playerIndex) then
    with_tokens p (<[tokenIndex := token]> (Player.tokens p))
  else match capturedToken with
       | Some (ci, ct) =>
           if decide (i = ci)
           then with_tokens p (alter sentToBase ct (Player.tokens p))
           else p
       | None => p
       end.

(** [newPlayers], lines 294-312. *)
Definition applyCapture (gameState : GameState.t) (playerIndex tokenIndex : nat)
    (token : Token.t) (capturedToken : option (nat * nat)) : list Player.t :=
  imap (applyCaptureAt playerIndex tokenIndex token capturedToken)
    (GameState.players gameState).

(** [{ ...updatedPlayer, hasFinished: true, finishOrder }], line 326. *)
Definition markFinished (updatedPlayer : Player.t) (finishOrder : Z) : Player.t :=
  Player.mk (Player.index updatedPlayer) (Player.name updatedPlayer)
    (Player.color updatedPlayer) (Player.startPos updatedPlayer)
    (Player.homeEntryPos updatedPlayer) (Player.tokens updatedPlayer) true finishOrder.

(** [tokens.every(t => t.state === HOME)], line 320. *)
Definition allHome (p : Player.t) : bool :=
  forallb (λ t, bool_decide (Token.state t = HOME)) (Player.tokens p).

(** [{ ...gameState, players: newPlayers }], the argument of line 345. *)
Definition with_players (gameState : GameState.t) (newPlayers : list Player.t) : GameState.t :=
  GameState.mk (GameState.id gameState) newPlayers
    (GameState.currentPlayerIndex gameState) (GameState.diceValue gameState)
    (GameState.diceRolled gameState) (GameState.hasExtraTurn gameState)
    (GameState.consecutiveSixes gameState) (GameState.winner gameState)
    (GameState.gameOver gameState) (GameState.turnPhase gameState)
    (GameState.message gameState) (GameState.moveHistory gameState)
    (GameState.finishOrder gameState).

(** Lines 293-369: apply the capture, detect the finish, hand the turn
    over and build the returned state. *)
Definition settleMove (gameState : GameState.t) (tokenId : string)
    (playerIndex tokenIndex : nat) (oc : Outcome) : option GameState.t :=
  let diceValue := GameState.diceValue gameState in
  let capturedToken := oc_captured oc in
  let newPlayers := applyCapture gameState playerIndex tokenIndex (oc_token oc) capturedToken in
  message ← match capturedToken with
            | Some (ci, _) =>
                cp ← GameState.players gameState !! ci;
                Some (oc_message oc +:+ " Captured " +:+ show_name (Player.name cp)
                        +:+ "'s token! ðŸ’¥")
            | None => Some (oc_message oc)
            end;
  updatedPlayer ← newPlayers !! playerIndex;
  let finished := allHome updatedPlayer && negb (Player.hasFinished updatedPlayer) in
  let newPlayers' :=
    if finished then
      <[playerIndex := markFinished updatedPlayer
                         (Z.of_nat (length (GameState.finishOrder gameState)))]> newPlayers
    else newPlayers in
  let finishOrder :=
    if finished then (GameState.finishOrder gameState ++ [playerIndex])%list
    else GameState.finishOrder gameState in
  let activePlayers := length (filter (λ p, Player.hasFinished p = false) newPlayers') in
  let gameOver :=
    finished && (bool_decide (activePlayers ≤ 1)%nat || bool_decide (length finishOrder = 1%nat)) in
  let winner := if gameOver then Some playerIndex else None in
  let message :=
    if finished then
      if gameOver
      then "ðŸ† " +:+ show_name (Player.name updatedPlayer) +:+ " WINS! Congratulations! ðŸ†"
      else message +:+ " " +:+ show_name (Player.name updatedPlayer) +:+ " has finished! ðŸ†"
    else message in
  let hasExtraTurn := GameState.hasExtraTurn gameState || bool_decide (capturedToken ≠ None) in
  nextPlayerIndex ←
    (if negb gameOver && negb hasExtraTurn
     then getNextPlayerIndex (with_players gameState newPlayers')
     else Some playerIndex);
  message ←
    (if negb gameOver && negb hasExtraTurn then
       np ← newPlayers' !! nextPlayerIndex;
       Some (message +:+ " " +:+ show_name (Player.name np) +:+ "'s turn.")
     else if negb gameOver && hasExtraTurn then
       Some (message +:+ " " +:+ show_name (Player.name updatedPlayer) +:+ " gets another turn!")
     else Some message);
  Some (GameState.mk (GameState.id gameState) newPlayers' nextPlayerIndex None false
          false
          (if hasExtraTurn then GameState.consecutiveSixes gameState else 0)
          winner gameOver Roll message
          (GameState.moveHistory gameState ++ [MoveRecord.mk playerIndex tokenId diceValue])%list
          finishOrder).

Definition moveLocalToken (gameState : GameState.t) (tokenId : string) : option GameState.t :=
  if GameState.gameOver gameState then Some (with_message gameState "Game is over!")
  else
    let playerIndex := GameState.currentPlayerIndex gameState in
    (* [{ ...undefined }] is [{}], whose [tokens] is [undefined]:
       [player.tokens.findIndex] throws *)
    player ← GameState.players gameState !! playerIndex;
    match list_find (λ t, Token.id t = tokenId) (Player.tokens player) with
    | None => Some (with_message gameState "Invalid token!")
    | Some (tokenIndex, token) =>
        match moveOutcome gameState playerIndex player token with
        | None => Some (with_message gameState "Cannot move this token!")
        | Some oc => settleMove gameState tokenId playerIndex tokenIndex oc
        end
    end.

(** ** rollLocalDice (gameEngine.js 118-189) *)

(** [newState] as it stands at line 156, when the turn is not forfeited. *)
Definition rolledState (gameState : GameState.t) (diceValue : Z) : GameState.t :=
  GameState.mk (GameState.id gameState) (GameState.players gameState)
    (GameState.currentPlayerIndex gameState) (Some diceValue) true
    (bool_decide (diceValue = 6))
    (if decide (diceValue = 6) then GameState.consecutiveSixes gameState + 1 else 0)
    (GameState.winner gameState) (GameState.gameOver gameState)
    (GameState.turnPhase gameState) (GameState.message gameState)
    (GameState.moveHistory gameState) (GameState.finishOrder gameState).

(** Lines 127-189, once the die has been drawn.  [(consecutiveSixes || 0)]
    is [consecutiveSixes] on numbers. *)
Definition afterRoll (gameState : GameState.t) (diceValue : Z) : option GameState.t :=
  let playerIndex := GameState.currentPlayerIndex gameState in
  let newState := rolledState gameState diceValue in
  if bool_decide (diceValue = 6) && bool_decide (GameState.consecutiveSixes newState >= 3) then
    nextPlayerIndex ← getNextPlayerIndex newState;
    cur ← GameState.players gameState !! playerIndex;
    next ← GameState.players newState !! nextPlayerIndex;
    Some (GameState.mk (GameState.id newState) (GameState.players newState)
            nextPlayerIndex None false false 0
            (GameState.winner newState) (GameState.gameOver newState) Roll
            (show_name (Player.name cur) +:+ " rolled three 6s! Turn lost. "
               +:+ show_name (Player.name next) +:+ "'s turn.")
            (GameState.moveHistory newState) (GameState.finishOrder newState))
  else
    validMoves ← getValidMovesLocal newState;
    match validMoves with
    | [] =>
        if GameState.hasExtraTurn newState then
          cur ← GameState.players gameState !! playerIndex;
          Some (GameState.mk (GameState.id newState) (GameState.players newState)
                  (GameState.currentPlayerIndex newState) None false false
                  (GameState.consecutiveSixes newState)
                  (GameState.winner newState) (GameState.gameOver newState) Roll
                  (show_name (Player.name cur) +:+ " rolled " +:+ pretty diceValue
                     +:+ " but has no valid moves. Roll again!")
                  (GameState.moveHistory newState) (GameState.finishOrder newState))
        else
          nextPlayerIndex ← getNextPlayerIndex newState;
          cur ← GameState.players gameState !! playerIndex;
          next ← GameState.players newState !! nextPlayerIndex;
          Some (GameState.mk (GameState.id newState) (GameState.players newState)
                  nextPlayerIndex None false (GameState.hasExtraTurn newState)
                  (GameState.consecutiveSixes newState)
                  (GameState.winner newState) (GameState.gameOver newState) Roll
                  (show_name (Player.name cur) +:+ " rolled " +:+ pretty diceValue
                     +:+ " but has no valid moves. "
                     +:+ show_name (Player.name next) +:+ "'s turn.")
                  (GameState.moveHistory newState) (GameState.finishOrder newState))
    | [only] => moveLocalToken newState (ValidMove.tokenId only)
    | _ =>
        cur ← GameState.players gameState !! playerIndex;
        Some (GameState.mk (GameState.id newState) (GameState.players newState)
                (GameState.currentPlayerIndex newState) (GameState.diceValue newState)
                (GameState.diceRolled newState) (GameState.hasExtraTurn newState)
                (GameState.consecutiveSixes newState)
                (GameState.winner newState) (GameState.gameOver newState) Move
                (show_name (Player.name cur) +:+ " rolled " +:+ pretty diceValue
                   +:+ ". Choose a token to move.")
                (GameState.moveHistory newState) (GameState.finishOrder newState))
    end.

Definition rollLocalDice (gameState : GameState.t) : Eff GameState.t :=
  if GameState.gameOver gameState then Ret (with_message gameState "Game is over!")
  else if decide (GameState.turnPhase gameState ≠ Roll)
  then Ret (with_message gameState "You must move a token first!")
  else diceValue ←ᵉ rollDieValue; lift (afterRoll gameState diceValue).

(** ** getBoardCoordinates (gameEngine.js 426-502) *)

Record Coord : Type := mkCoord { row : Z; col : Z }.

#[global] Instance Coord_eq_dec : EqDecision Coord.
Proof. solve_decision. Defined.

Definition pathCoords : list Coord :=
  [ (* column 6, rows 13 to 9 *)
    mkCoord 13 6; mkCoord 12 6; mkCoord 11 6; mkCoord 10 6; mkCoord 9 6;
    (* row 8, columns 5 to 0 *)
    mkCoord 8 5; mkCoord 8 4; mkCoord 8 3; mkCoord 8 2; mkCoord 8 1; mkCoord 8 0;
    (* column 0, rows 7 and 6 *)
    mkCoord 7 0; mkCoord 6 0;
    (* row 6, columns 1 to 5 *)
    mkCoord 6 1; mkCoord 6 2; mkCoord 6 3; mkCoord 6 4; mkCoord 6 5;
    (* column 6, rows 5 to 0 *)
    mkCoord 5 6; mkCoord 4 6; mkCoord 3 6; mkCoord 2 6; mkCoord 1 6; mkCoord 0 6;
    (* row 0, columns 7 and 8 *)
    mkCoord 0 7; mkCoord 0 8;
    (* column 8, rows 1 to 5 *)
    mkCoord 1 8; mkCoord 2 8; mkCoord 3 8; mkCoord 4 8; mkCoord 5 8;
    (* row 6, columns 9 to 14 *)
    mkCoord 6 9; mkCoord 6 10; mkCoord 6 11; mkCoord 6 12; mkCoord 6 13; mkCoord 6 14;
    (* column 14, rows 7 and 8 *)
    mkCoord 7 14; mkCoord 8 14;
    (* row 8, columns 13 to 9 *)
    mkCoord 8 13; mkCoord 8 12; mkCoord 8 11; mkCoord 8 10; mkCoord 8 9;
    (* column 8, rows 9 to 14 *)
    mkCoord 9 8; mkCoord 10 8; mkCoord 11 8; mkCoord 12 8; mkCoord 13 8; mkCoord 14 8;
    (* row 14, columns 7 and 6 *)
    mkCoord 14 7; mkCoord 14 6;
    (* the entry after "Continue..." *)
    mkCoord 13 7 ].

(** The centre cell, returned for every position outside the table. *)
Definition centerFallback : Coord := mkCoord 7 7.

Definition getBoardCoordinates (position : Z) : Coord :=
  if bool_decide (position >= 0) && bool_decide (position < Z.of_nat (length pathCoords))
  then default centerFallback (pathCoords !! Z.to_nat position)
  else centerFallback.

(** Two cells of the grid that touch, diagonally at the corners. *)
Definition adjacent (a b : Coord) : bool :=
  bool_decide (Z.abs (row a - row b) <= 1) && bool_decide (Z.abs (col a - col b) <= 1)
  && negb (bool_decide (a = b)).

(** ** Games

    A game is driven by calls of [rollLocalDice] and [moveLocalToken] on
    the state [createLocalGame] returned.  [rollLocalDice] itself calls
    [moveLocalToken] on [rolledState] when exactly one move is valid
    (line 183), so the states the engine works on are the returned ones
    and these intermediate ones. *)

(** [tokenId] is listed by [getValidMovesLocal]. *)
Definition valid_token (gameState : GameState.t) (tokenId : string) : Prop :=
  ∃ moves, getValidMovesLocal gameState = Some moves ∧ tokenId ∈ ValidMove.tokenId <$> moves.

(** One call of the engine by its caller, who passes [moveLocalToken]
    only the token ids [allowed] admits. *)
Inductive call (allowed : GameState.t → string → Prop) (s : GameState.t)
    : GameState.t → Prop :=
| call_roll w s' :
    world_ok w →
    run (rollLocalDice s) w = Some s' →
    call allowed s s'
| call_move tokenId s' :
    allowed s tokenId →
    moveLocalToken s tokenId = Some s' →
    call allowed s s'.

(** The states of a game. *)
Inductive game_state (allowed : GameState.t → string → Prop) : GameState.t → Prop :=
| game_created config w s :
    world_ok w →
    run (createLocalGame config) w = Some s →
    game_state allowed s
| game_called s s' :
    game_state allowed s →
    call allowed s s' →
    game_state allowed s'
| game_auto s diceValue only :
    game_state allowed s →
    GameState.gameOver s = false →
    GameState.turnPhase s = Roll →
    1 <= diceValue <= 6 →
    ¬ (diceValue = 6 ∧ GameState.consecutiveSixes s + 1 >= 3) →
    getValidMovesLocal (rolledState s diceValue) = Some [only] →
    game_state allowed (rolledState s diceValue).

Definition any_token : GameState.t → string → Prop := λ _ _, True.

(** Any sequence of calls. *)
Definition reachable : GameState.t → Prop := game_state any_token.

(** Calls that move only tokens listed by [getValidMovesLocal]. *)
Definition fairly_reachable : GameState.t → Prop := game_state valid_token.

(** Zero or more further calls. *)
Inductive later_state (s : GameState.t) : GameState.t → Prop :=
| later_now : later_state s s
| later_call s' s'' : later_state s s' → call any_token s' s'' → later_state s s''.

(** A scripted game: each action is a call, a roll being given the
    value [Math.floor(x * 6)] of its draw. *)
Inductive Action : Type :=
| DoRoll (floor6 : Z)
| DoMove (tokenId : string).

Definition constWorld (floor6 : Z) : World :=
  mkWorld (λ _, 0) (λ _, mkDraw floor6 "0.5").

Definition act (a : Action) (s : GameState.t) : option GameState.t :=
  match a with
  | DoRoll floor6 => run (rollLocalDice s) (constWorld floor6)
  | DoMove tokenId => moveLocalToken s tokenId
  end.

Fixpoint play (script : list Action) (s : GameState.t) : option GameState.t :=
  match script with
  | [] => Some s
  | a :: rest => s' ← act a s; play rest s'
  end.

Definition rolls_ok (script : list Action) : Prop :=
  Forall (λ a, match a with DoRoll f => 0 <= f <= 5 | DoMove _ => True end) script.

(** A call of the engine by its host; a roll draws its die from the
    host. *)
Inductive Call : Type :=
| CallRoll
| CallMove (tokenId : string).

Definition callE (c : Call) (s : GameState.t) : Eff GameState.t :=
  match c with
  | CallRoll => rollLocalDice s
  | CallMove tokenId => lift (moveLocalToken s tokenId)
  end.

(** A sequence of calls, each on the state the one before returned. *)
Fixpoint session (calls : list Call) (s : GameState.t) : Eff GameState.t :=
  match calls with
  | [] => Ret s
  | c :: rest => s' ←ᵉ callE c s; session rest s'
  end.

(** A whole game: [createLocalGame], then the calls. *)
Definition game (config : GameConfig) (calls : list Call) : Eff GameState.t :=
  s ←ᵉ createLocalGame config; session calls s.

(** Two hosts whose draws give the same dice; their clocks and the
    digits of their draws are free to differ. *)
Definition same_dice (w1 w2 : World) : Prop :=
  ∀ n, floor_times6 (random w1 n) = floor_times6 (random w2 n).

(** ** Specification vocabulary *)

(** Player [i] exists and has finished. *)
Definition finished_at (players : list Player.t) (i : nat) : Prop :=
  ∃ p, players !! i = Some p ∧ Player.hasFinished p = true.

(** The next player in turn order that has not finished: [r] is the
    first index after the current one, wrapping around, whose player has
    not finished. *)
Definition next_unfinished (gameState : GameState.t) (r : nat) : Prop :=
  let players := GameState.players gameState in
  let n := length players in
  ∃ j, (j < n)%nat ∧
    r = ((GameState.currentPlayerIndex gameState + 1 + j) `mod` n)%nat ∧
    (∃ p, players !! r = Some p ∧ Player.hasFinished p = false) ∧
    ∀ j', (j' < j)%nat →
      finished_at players ((GameState.currentPlayerIndex gameState + 1 + j') `mod` n)%nat.

(** An opposing token that can be captured on main-track cell
    [position]: token [t] of a player [i] other than the mover, active,
    standing on the cell and not in its home stretch. *)
Definition opposing_on (gameState : GameState.t) (playerIndex : nat) (position : Z)
    (i t : nat) : Prop :=
  i ≠ playerIndex ∧
  ∃ tok, token_at gameState i t = Some tok ∧
    Token.state tok = ACTIVE ∧ Token.position tok = position ∧ Token.homeStretchPos tok < 0.

(** The guard of the if/else chain (lines 252 and 261): the token may
    leave base on a six, or is active. *)
Definition permitted (gameState : GameState.t) (token : Token.t) : Prop :=
  (Token.state token = BASE ∧ GameState.diceValue gameState = Some 6)
  ∨ Token.state token = ACTIVE.

(** The players after a settled move, index by index: the callback of
    the [map], then the finish mark on the mover. *)
Definition settledPlayer (gameState : GameState.t) (k : nat) (oc : Outcome)
    (i : nat) (p : Player.t) : Player.t :=
  let q := applyCaptureAt (GameState.currentPlayerIndex gameState) k
             (oc_token oc) (oc_captured oc) i p in
  if bool_decide (i = GameState.currentPlayerIndex gameState)
     && (allHome q && negb (Player.hasFinished q))
  then markFinished q (Z.of_nat (length (GameState.finishOrder gameState)))
  else q.

(** What holds of every state of a game, whatever the caller does. *)
Record engine_inv (s : GameState.t) : Prop := mk_engine_inv {
  inv_dice : ∀ d, GameState.diceValue s = Some d → 1 <= d <= 6;
  inv_current : (GameState.currentPlayerIndex s < length (GameState.players s))%nat;
  inv_start : ∀ p, p ∈ GameState.players s → Player.startPos p ∈ [0; 13; 26; 39];
  inv_base : ∀ p tok, p ∈ GameState.players s → tok ∈ Player.tokens p →
             Token.state tok = BASE → Token.stepsFromStart tok = 0;
  inv_first : GameState.gameOver s = false → GameState.finishOrder s = [];
  inv_unfinished : GameState.gameOver s = false →
                   ∀ p, p ∈ GameState.players s → Player.hasFinished p = false;
}.

(** What holds in addition when only valid moves are made. *)
Record fair_inv (s : GameState.t) : Prop := mk_fair_inv {
  fair_bound : ∀ p tok, p ∈ GameState.players s → tok ∈ Player.tokens p →
               Token.stepsFromStart tok <= 58;
  fair_ids : ∀ p, p ∈ GameState.players s → NoDup (Token.id <$> Player.tokens p);
}.

(** The state with its id blanked. *)
Definition forget_id (s : GameState.t) : GameState.t :=
  GameState.mk "" (GameState.players s) (GameState.currentPlayerIndex s)
    (GameState.diceValue s) (GameState.diceRolled s) (GameState.hasExtraTurn s)
    (GameState.consecutiveSixes s) (GameState.winner s) (GameState.gameOver s)
    (GameState.turnPhase s) (GameState.message s) (GameState.moveHistory s)
    (GameState.finishOrder s).

(** ** Example games

    Two players with the default names and colours; every roll is
    scripted by the value [Math.floor(x * 6)] of its draw. *)

Definition baseToken (id : string) : Token.t := Token.mk id BASE (-1) (-1) 0.
Definition homeToken (id : string) : Token.t := Token.mk id HOME (-1) (-1) 58.

Definition redPlayer (tokens : list Token.t) : Player.t :=
  Player.mk 0 (Some "Player 1") "red" 0 50 tokens false (-1).
Definition greenPlayer (tokens : list Token.t) : Player.t :=
  Player.mk 1 (Some "Player 2") "green" 13 11 tokens false (-1).

Definition greenAtBase : Player.t :=
  greenPlayer [baseToken "green_0"; baseToken "green_1"; baseToken "green_2";
               baseToken "green_3"].

Definition redMoves (tokenId : string) (dice : list Z) : list MoveRecord.t :=
  (λ d, MoveRecord.mk 0 tokenId (Some d)) <$> dice.

(** [createLocalGame({ playerCount: 2 })] at time 0 with the draw 0.5. *)
Definition initial_state : GameState.t :=
  GameState.mk "game_0_5"
    [ redPlayer [baseToken "red_0"; baseToken "red_1"; baseToken "red_2"; baseToken "red_3"];
      greenAtBase ]
    0 None false false 0 None false Roll "Player 1's turn - Roll the dice!" [] [].

(** One turn of red that moves token [tokenId] by 6, 6 and [last + 1],
    followed by green's roll of a 1 (no valid move). *)
Definition lap (tokenId : string) (last : Z) : list Action :=
  [DoRoll 5; DoMove tokenId; DoRoll 5; DoMove tokenId; DoRoll last; DoRoll 0].

(** Red has rolled a six with [red_0] one step from home: the three
    base tokens may move, [red_0] may not (57 + 6 > 58). *)
Definition overshoot_script : list Action :=
  lap "red_0" 4 ++ lap "red_0" 4 ++ lap "red_0" 4
  ++ [DoRoll 5; DoMove "red_0"; DoRoll 4; DoRoll 0; DoRoll 0; DoRoll 0; DoRoll 5].

Definition overshoot_state : GameState.t :=
  GameState.mk "game_0_5"
    [ redPlayer [Token.mk "red_0" ACTIVE (-1) 4 57;
                 baseToken "red_1"; baseToken "red_2"; baseToken "red_3"];
      greenAtBase ]
    0 (Some 6) true true 1 None false Move
    "Player 1 rolled 6. Choose a token to move."
    (redMoves "red_0" [6; 6; 5; 6; 6; 5; 6; 6; 5; 6; 5; 1]) [].

(** Red to roll with [red_0] on cell 11 and green's [green_0] on cell
    14, which is not a safe square. *)
Definition contested_script : list Action :=
  [DoRoll 5; DoMove "red_0"; DoRoll 5; DoMove "red_0"; DoRoll 4;
   DoRoll 5; DoMove "green_0"; DoRoll 0].

Definition contested_state : GameState.t :=
  GameState.mk "game_0_5"
    [ redPlayer [Token.mk "red_0" ACTIVE 11 (-1) 11;
                 baseToken "red_1"; baseToken "red_2"; baseToken "red_3"];
      greenPlayer [Token.mk "green_0" ACTIVE 14 (-1) 1;
                   baseToken "green_1"; baseToken "green_2"; baseToken "green_3"] ]
    0 None false false 0 None false Roll
    "Player 2 moves a token 1 spaces. Player 1's turn."
    (redMoves "red_0" [6; 6; 5]
     ++ [MoveRecord.mk 1 "green_0" (Some 6); MoveRecord.mk 1 "green_0" (Some 1)]) [].

(** Red to roll after two sixes in a row. *)
Definition two_sixes_script : list Action :=
  [DoRoll 5; DoMove "red_0"; DoRoll 5; DoMove "red_0"].

Definition two_sixes_state : GameState.t :=
  GameState.mk "game_0_5"
    [ redPlayer [Token.mk "red_0" ACTIVE 6 (-1) 6;
                 baseToken "red_1"; baseToken "red_2"; baseToken "red_3"];
      greenAtBase ]
    0 None false false 2 None false Roll
    "Player 1 moves a token 6 spaces. Player 1 gets another turn!"
    (redMoves "red_0" [6; 6]) [].

(** Red to roll with three tokens home and [red_3] one step from home. *)
Definition journey (tokenId : string) : list Action :=
  lap tokenId 4 ++ lap tokenId 4 ++ lap tokenId 4 ++ lap tokenId 0.

Definition lastLap : list Action := [DoRoll 5; DoRoll 5; DoRoll 4; DoRoll 0].

Definition home_run_script : list Action :=
  journey "red_0" ++ journey "red_1" ++ journey "red_2"
  ++ lastLap ++ lastLap ++ lastLap ++ [DoRoll 5; DoRoll 5].

Definition home_run_players : list Player.t :=
  [ redPlayer [homeToken "red_0"; homeToken "red_1"; homeToken "red_2";
               Token.mk "red_3" ACTIVE (-1) 4 57];
    greenAtBase ].

Definition home_run_state : GameState.t :=
  GameState.mk "game_0_5" home_run_players 0 None false false 2 None false Roll
    "Player 1 moves a token into the home stretch. Player 1 gets another turn!"
    (redMoves "red_0" [6; 6; 5; 6; 6; 5; 6; 6; 5; 6; 6; 1]
     ++ redMoves "red_1" [6; 6; 5; 6; 6; 5; 6; 6; 5; 6; 6; 1]
     ++ redMoves "red_2" [6; 6; 5; 6; 6; 5; 6; 6; 5; 6; 6; 1]
     ++ redMoves "red_3" [6; 6; 5; 6; 6; 5; 6; 6; 5; 6; 6]) [].

(** The game red has won: the roll of a 1 in [home_run_state] moves
    [red_3] home on its own. *)
Definition home_run_won : GameState.t :=
  default initial_state (run (rollLocalDice home_run_state) (constWorld 0)).

(** Red has rolled a six and entered [red_0], and is to roll again. *)
Definition entered_state : GameState.t :=
  default initial_state (play [DoRoll 5; DoMove "red_0"] initial_state).

(** Green's [green_0] has walked 39 steps and stands on cell 0, the
    start cell of red; red has rolled a six with all its tokens in
    base. *)
Definition occupied_start_script : list Action :=
  [DoRoll 0; DoRoll 5; DoMove "green_0";
   DoRoll 4; DoRoll 0; DoRoll 4; DoRoll 0; DoRoll 4; DoRoll 0; DoRoll 4; DoRoll 0;
   DoRoll 4; DoRoll 0; DoRoll 4; DoRoll 0; DoRoll 4; DoRoll 0;
   DoRoll 3; DoRoll 5].

Definition occupied_start_state : GameState.t :=
  GameState.mk "game_0_5"
    [ redPlayer [baseToken "red_0"; baseToken "red_1"; baseToken "red_2"; baseToken "red_3"];
      greenPlayer [Token.mk "green_0" ACTIVE 0 (-1) 39;
                   baseToken "green_1"; baseToken "green_2"; baseToken "green_3"] ]
    0 (Some 6) true true 1 None false Move
    "Player 1 rolled 6. Choose a token to move."
    ((λ d, MoveRecord.mk 1 "green_0" (Some d)) <$> [6; 5; 5; 5; 5; 5; 5; 5; 4]) [].

(** Three players, green marked finished while the game is on, red to
    roll after two sixes.  No game reaches such a state (the first
    finish ends the game); the turn order must skip green on it. *)
Definition skipping_state : GameState.t :=
  GameState.mk "game_0_5"
    [ redPlayer [Token.mk "red_0" ACTIVE 6 (-1) 6;
                 baseToken "red_1"; baseToken "red_2"; baseToken "red_3"];
      Player.mk 1 (Some "Player 2") "green" 13 11
        [homeToken "green_0"; homeToken "green_1"; homeToken "green_2"; homeToken "green_3"]
        true 0;
      Player.mk 2 (Some "Player 3") "yellow" 26 24
        [baseToken "yellow_0"; baseToken "yellow_1"; baseToken "yellow_2";
         baseToken "yellow_3"]
        false (-1) ]
    0 None false false 2 None false Roll
    "Player 1 moves a token 6 spaces. Player 1 gets another turn!"
    (redMoves "red_0" [6; 6]) [1%nat].

(** ** getHomeStretchCoordinates and getBaseCoordinates (gameEngine.js 511-582)

    Both look a colour up in an object literal keyed by the four colour
    names.  [ownProperty] is the lookup of an own property; a colour
    string that names a property inherited from [Object.prototype]
    (such as ["constructor"]) is outside this model, and every statement
    below about these two functions is about the four colour names. *)

Definition ownProperty {A : Type} (table : list (string * A)) (key : string) : option A :=
  snd <$> List.find (λ kv, bool_decide (kv.1 = key)) table.

Definition homeStretchPaths : list (string * list Coord) :=
  [ ("red", [mkCoord 13 7; mkCoord 12 7; mkCoord 11 7; mkCoord 10 7; mkCoord 9 7]);
    ("green", [mkCoord 7 1; mkCoord 7 2; mkCoord 7 3; mkCoord 7 4; mkCoord 7 5]);
    ("yellow", [mkCoord 1 7; mkCoord 2 7; mkCoord 3 7; mkCoord 4 7; mkCoord 5 7]);
    ("blue", [mkCoord 7 13; mkCoord 7 12; mkCoord 7 11; mkCoord 7 10; mkCoord 7 9]) ].

Definition bases : list (string * list Coord) :=
  [ ("red", [mkCoord 10 1; mkCoord 10 4; mkCoord 13 1; mkCoord 13 4]);
    ("green", [mkCoord 1 1; mkCoord 1 4; mkCoord 4 1; mkCoord 4 4]);
    ("yellow", [mkCoord 1 10; mkCoord 1 13; mkCoord 4 10; mkCoord 4 13]);
    ("blue", [mkCoord 10 10; mkCoord 10 13; mkCoord 13 10; mkCoord 13 13]) ].

(** The shared shape of the two functions: the entry at [index] of the
    colour's table, or the centre cell. *)
Definition tableCoordinates (table : list (string * list Coord)) (color : string)
    (index : Z) : Coord :=
  match ownProperty table color with
  | Some path =>
      if bool_decide (index >= 0) && bool_decide (index < Z.of_nat (length path))
      then default centerFallback (path !! Z.to_nat index)
      else centerFallback
  | None => centerFallback
  end.

Definition getHomeStretchCoordinates (color : string) (homeStretchPos : Z) : Coord :=
  tableCoordinates homeStretchPaths color homeStretchPos.

Definition getBaseCoordinates (color : string) (tokenIndex : Z) : Coord :=
  tableCoordinates bases color tokenIndex.

(** ** The board component (components/GameBoard.js) *)

Module GameBoard.

(** Line 209; the component keeps its own copy of the list. *)
Definition SAFE_SQUARES : list Z := [0; 8; 13; 21; 26; 34; 39; 47].

Definition MAIN_TRACK_SIZE : Z := 52.

(** [getCellType] (lines 220-251): the CSS class of a grid cell. *)
Definition getCellType (r c : Z) : string :=
  if bool_decide (r >= 9) && bool_decide (r <= 14) && bool_decide (c >= 0) && bool_decide (c <= 5)
  then
    if (bool_decide (r >= 9) && bool_decide (r <= 14) && bool_decide (c = 6))
       || (bool_decide (r = 8) && bool_decide (c >= 0) && bool_decide (c <= 5))
    then "cell-path"
    else "cell-red-base"
  else if bool_decide (r >= 0) && bool_decide (r <= 5) && bool_decide (c >= 0) && bool_decide (c <= 5)
  then "cell-green-base"
  else if bool_decide (r >= 0) && bool_decide (r <= 5) && bool_decide (c >= 9) && bool_decide (c <= 14)
  then "cell-yellow-base"
  else if bool_decide (r >= 9) && bool_decide (r <= 14) && bool_decide (c >= 9) && bool_decide (c <= 14)
  then "cell-blue-base"
  else if bool_decide (r >= 6) && bool_decide (r <= 8) && bool_decide (c >= 6) && bool_decide (c <= 8)
  then "cell-home-center"
  else if bool_decide (c = 7) && bool_decide (r >= 9) && bool_decide (r <= 13)
  then "cell-red-stretch"
  else if bool_decide (r = 7) && bool_decide (c >= 1) && bool_decide (c <= 5)
  then "cell-green-stretch"
  else if bool_decide (c = 7) && bool_decide (r >= 1) && bool_decide (r <= 5)
  then "cell-yellow-stretch"
  else if bool_decide (r = 7) && bool_decide (c >= 9) && bool_decide (c <= 13)
  then "cell-blue-stretch"
  else "cell-path".

(** [isBaseInterior] (lines 259-265). *)
Definition isBaseInterior (r c : Z) : bool :=
  if (bool_decide (r = 10) || bool_decide (r = 13)) && (bool_decide (c = 1) || bool_decide (c = 4))
  then true
  else if (bool_decide (r = 1) || bool_decide (r = 4)) && (bool_decide (c = 1) || bool_decide (c = 4))
  then true
  else if (bool_decide (r = 1) || bool_decide (r = 4)) && (bool_decide (c = 10) || bool_decide (c = 13))
  then true
  else if (bool_decide (r = 10) || bool_decide (r = 13)) && (bool_decide (c = 10) || bool_decide (c = 13))
  then true
  else false.

(** [isSafeSquare] (lines 273-279). *)
Definition isSafeSquare (r c : Z) : bool :=
  existsb (λ pos, let coord := getBoardCoordinates pos in
                  bool_decide (row coord = r) && bool_decide (col coord = c))
    SAFE_SQUARES.

(** The body of the loop of [computeIntermediateSteps] (lines 303-315):
    the coordinate pushed for step [s], if any. *)
Definition stepCoordinate (color : string) (startPos : Z) (s : Z) : option Coord :=
  if bool_decide (s > MAIN_TRACK_SIZE) then
    let hsPos := s - MAIN_TRACK_SIZE - 1 in
    if bool_decide (hsPos >= 0) && bool_decide (hsPos < 5)
    then Some (getHomeStretchCoordinates color hsPos)
    else None
  else
    let boardPos := Z.rem (startPos + s) MAIN_TRACK_SIZE in
    Some (getBoardCoordinates boardPos).

(** [computeIntermediateSteps] (lines 289-320); the loop runs over the
    integers [prevSteps + 1 .. currSteps]. *)
Definition computeIntermediateSteps (prevToken currToken : Token.t) (color : string)
    (startPos : Z) : list Coord :=
  if bool_decide (Token.state prevToken = BASE) && bool_decide (Token.state currToken = ACTIVE)
  then []
  else if bool_decide (Token.state prevToken = ACTIVE)
          && (bool_decide (Token.state currToken = ACTIVE)
              || bool_decide (Token.state currToken = HOME))
  then
    let prevSteps := Token.stepsFromStart prevToken in
    let currSteps := Token.stepsFromStart currToken in
    omap (stepCoordinate color startPos) (seqZ (prevSteps + 1) (currSteps - prevSteps))
  else [].

(** Where a token is drawn when no animation overrides it (lines
    446-460). *)
Definition tokenCoordinate (color : string) (tokenIdx : nat) (token : Token.t) : Coord :=
  match Token.state token with
  | BASE => getBaseCoordinates color (Z.of_nat tokenIdx)
  | ACTIVE =>
      if bool_decide (Token.homeStretchPos token >= 0)
      then getHomeStretchCoordinates color (Token.homeStretchPos token)
      else getBoardCoordinates (Token.position token)
  | HOME => mkCoord 7 7
  end.

End GameBoard.

(** ** The player panel (components/PlayerPanel.js 21-23) *)

Module PlayerPanel.

Definition tokensHome (player : Player.t) : nat :=
  length (filter (λ t, Token.state t = HOME) (Player.tokens player)).
Definition tokensActive (player : Player.t) : nat :=
  length (filter (λ t, Token.state t = ACTIVE) (Player.tokens player)).
Definition tokensBase (player : Player.t) : nat :=
  length (filter (λ t, Token.state t = BASE) (Player.tokens player)).

End PlayerPanel.

(** ** The setup screen (components/SetupScreen.js 47-56) *)

Module SetupScreen.

(** [array[i] = x] on a JavaScript array: a write past the end fills the
    gap with holes, which read as [undefined] ([None]). *)
Definition arrayWrite {A : Type} (l : list (option A)) (i : nat) (x : option A)
    : list (option A) :=
  if decide (i < length l)%nat then <[i := x]> l
  else l ++ replicate (i - length l) None ++ [x].

(** [handleColorChange]: the array passed to [setPlayerColors]. *)
Definition handleColorChange (playerColors : list (option string)) (playerCount : nat)
    (index : nat) (colorId : string) : list (option string) :=
  let newColors := playerColors in
  let existingIndex :=
    fst <$> list_find (λ ic : nat * option string,
                         ic.1 ≠ index ∧ (ic.1 < playerCount)%nat ∧ ic.2 = Some colorId)
              (imap pair newColors) in
  let newColors :=
    match existingIndex with
    | Some e => arrayWrite newColors e (mjoin (newColors !! index))
    | None => newColors
    end in
  arrayWrite newColors index (Some colorId).

End SetupScreen.

(** ** More vocabulary *)

(** The ids [createLocalGame] gives the tokens of a colour. *)
Definition tokenIds (color : string) : list string :=
  (λ t : nat, color +:+ "_" +:+ pretty t) <$> seq 0 TOKENS_PER_PLAYER.

(** The three views of a token's progress agree: [position] and
    [homeStretchPos] are what [stepsFromStart] and the player's start
    cell determine. *)
Definition located (startPos : Z) (tok : Token.t) : Prop :=
  match Token.state tok with
  | BASE =>
      Token.position tok = -1 ∧ Token.homeStretchPos tok = -1 ∧ Token.stepsFromStart tok = 0
  | HOME =>
      Token.position tok = -1 ∧ Token.homeStretchPos tok = -1 ∧ Token.stepsFromStart tok = 58
  | ACTIVE =>
      0 <= Token.stepsFromStart tok ∧ Token.stepsFromStart tok ≠ 58 ∧
      if decide (Token.stepsFromStart tok <= 52)
      then Token.homeStretchPos tok = -1 ∧
           Token.position tok = (startPos + Token.stepsFromStart tok) `mod` 52
      else Token.position tok = -1 ∧
           Token.homeStretchPos tok = Token.stepsFromStart tok - 53
  end.

(** The player's track offsets are those of a row of [PLAYER_CONFIGS],
    the row of its colour when the colour is one of the four. *)
Definition configured (p : Player.t) : Prop :=
  ∃ cfg, cfg ∈ PLAYER_CONFIGS ∧
    Player.startPos p = cfg_startPos cfg ∧
    Player.homeEntryPos p = cfg_homeEntryPos cfg ∧
    (Player.color p ∈ defaultColors → cfg_color cfg = Player.color p).

(** What holds of every state of a game beyond [engine_inv]. *)
Record game_inv (s : GameState.t) : Prop := mk_game_inv {
  ginv_index : ∀ i p, GameState.players s !! i = Some p → Player.index p = i;
  ginv_ids : ∀ p, p ∈ GameState.players s →
             Token.id <$> Player.tokens p = tokenIds (Player.color p);
  ginv_config : ∀ p, p ∈ GameState.players s → configured p;
  ginv_located : ∀ p tok, p ∈ GameState.players s → tok ∈ Player.tokens p →
                 located (Player.startPos p) tok;
  ginv_finished : ∀ p, p ∈ GameState.players s → Player.hasFinished p = allHome p;
  ginv_sixes : 0 <= GameState.consecutiveSixes s <= 2;
  ginv_winner :
    match GameState.winner s with
    | Some w => GameState.gameOver s = true ∧ GameState.finishOrder s = [w] ∧
                finished_at (GameState.players s) w ∧
                ∀ i, finished_at (GameState.players s) i → i = w
    | None => GameState.gameOver s = false
    end;
}.

(** The locations a token can be drawn at. *)
Inductive Location : Type :=
| OnTrack (position : Z)
| InStretch (color : string) (homeStretchPos : Z)
| AtBase (color : string) (tokenIndex : Z)
| AtHome.

#[global] Instance Location_eq_dec : EqDecision Location.
Proof. solve_decision. Defined.

(** The locations of a board with the four colours. *)
Definition onBoard (l : Location) : Prop :=
  match l with
  | OnTrack position => 0 <= position < 52
  | InStretch color homeStretchPos => color ∈ defaultColors ∧ 0 <= homeStretchPos < 5
  | AtBase color tokenIndex => color ∈ defaultColors ∧ 0 <= tokenIndex < 4
  | AtHome => True
  end.

(** The cell the board component draws a location on. *)
Definition cellOf (l : Location) : Coord :=
  match l with
  | OnTrack position => getBoardCoordinates position
  | InStretch color homeStretchPos => getHomeStretchCoordinates color homeStretchPos
  | AtBase color tokenIndex => getBaseCoordinates color tokenIndex
  | AtHome => mkCoord 7 7
  end.

(** The CSS class the board component is expected to paint it with. *)
Definition classOf (l : Location) : string :=
  match l with
  | OnTrack _ => "cell-path"
  | InStretch color _ => "cell-" +:+ color +:+ "-stretch"
  | AtBase color _ => "cell-" +:+ color +:+ "-base"
  | AtHome => "cell-home-center"
  end.

(** The location of a token of a player of colour [color], by the
    branches of [GameBoard.tokenCoordinate]. *)
Definition locationOf (color : string) (tokenIdx : nat) (token : Token.t) : Location :=
  match Token.state token with
  | BASE => AtBase color (Z.of_nat tokenIdx)
  | ACTIVE =>
      if bool_decide (Token.homeStretchPos token >= 0)
      then InStretch color (Token.homeStretchPos token)
      else OnTrack (Token.position token)
  | HOME => AtHome
  end.

Definition allLocations : list Location :=
  (OnTrack <$> seqZ 0 52)
  ++ (c ← defaultColors; InStretch c <$> seqZ 0 5)
  ++ (c ← defaultColors; AtBase c <$> seqZ 0 4)
  ++ [AtHome].

(** The cell of a token of colour [color] with start cell [startPos]
    after [s] steps: on the track up to step 52, then in the stretch. *)
Definition cellAtStep (color : string) (startPos : Z) (s : Z) : Coord :=
  if decide (s <= 52) then getBoardCoordinates ((startPos + s) `mod` 52)
  else getHomeStretchCoordinates color (s - 53).

(** A walk on the grid: each cell touches the next. *)
Definition walk (cells : list Coord) : Prop :=
  ∀ j a b, cells !! j = Some a → cells !! S j = Some b → adjacent a b = true.

(** The states the engine returns to its caller: the created one and
    the results of calls. *)
Inductive returned : GameState.t → Prop :=
| returned_created config w s :
    world_ok w → run (createLocalGame config) w = Some s → returned s
| returned_called s s' : returned s → call any_token s s' → returned s'.

(** Dice and phase go together in a returned state. *)
Definition phase_inv (s : GameState.t) : Prop :=
  match GameState.turnPhase s with
  | Roll =>
      GameState.diceValue s = None ∧ GameState.diceRolled s = false ∧
      GameState.hasExtraTurn s = false
  | Move =>
      GameState.gameOver s = false ∧ GameState.diceRolled s = true ∧
      ∃ d moves,
        GameState.diceValue s = Some d ∧
        GameState.hasExtraTurn s = bool_decide (d = 6) ∧
        getValidMovesLocal s = Some moves ∧ (2 ≤ length moves)%nat
  end.

(** Two states that differ in [message] at most. *)
Definition same_but_message (s s' : GameState.t) : Prop :=
  with_message s "" = with_message s' "".

(** The fields of a player that no call changes. *)
Definition identity (p : Player.t) : nat * option string * string * Z * Z * list string :=
  (Player.index p, Player.name p, Player.color p, Player.startPos p,
   Player.homeEntryPos p, Token.id <$> Player.tokens p).

(** * Verification *)

(** ** Turn order: getNextPlayerIndex *)

Lemma skipFinished_spec (players : list Player.t) (remaining next fallback : nat) :
  (next < length players)%nat →
  ∃ r, skipFinished players (length players) remaining next fallback = Some r ∧
    ((∃ j, (j < remaining)%nat ∧ r = ((next + j) `mod` length players)%nat ∧
           (∃ p, players !! r = Some p ∧ Player.hasFinished p = false) ∧
           ∀ j', (j' < j)%nat → finished_at players ((next + j') `mod` length players)%nat)
     ∨ (r = fallback ∧
        ∀ j, (j < remaining)%nat → finished_at players ((next + j) `mod` length players)%nat)).
Proof.
  revert next. induction remaining as [|remaining IH]; intros next Hnext; simpl.
  - eexists; split; [done|]. right. split; [done|]. intros; lia.
  - destruct (lookup_lt_is_Some_2 players next Hnext) as [p Hp].
    rewrite Hp. simpl. destruct (Player.hasFinished p) eqn:Hfin.
    + destruct (IH ((next + 1) `mod` length players)%nat) as (r & Hr & Hcase).
      { apply Nat.mod_upper_bound. lia. }
      exists r. split; [done|].
      assert (Hshift : ∀ j, (((next + 1) `mod` length players + j) `mod` length players
                             = (next + S j) `mod` length players)%nat).
      { intros j. rewrite Nat.Div0.add_mod_idemp_l. f_equal. lia. }
      assert (H0 : ((next + 0) `mod` length players = next)%nat).
      { rewrite Nat.add_0_r. by apply Nat.mod_small. }
      destruct Hcase as [(j & Hj & Hrj & Hun & Hbefore)|[-> Hall]].
      * rewrite Hshift in Hrj.
        left. exists (S j). split; [lia|]. split; [done|]. split; [done|].
        intros [|j'] Hj'.
        -- rewrite H0. by exists p.
        -- rewrite <- Hshift. apply Hbefore. lia.
      * right. split; [done|]. intros [|j] Hj.
        -- rewrite H0. by exists p.
        -- rewrite <- Hshift. apply Hall. lia.
    + exists next. split; [done|]. left. exists 0%nat. split; [lia|].
      rewrite Nat.add_0_r, Nat.mod_small by done.
      split; [done|]. split; [by exists p|]. intros; lia.
Qed.

Lemma getNextPlayerIndex_spec (gameState : GameState.t) :
  (GameState.currentPlayerIndex gameState < length (GameState.players gameState))%nat →
  ∃ r, getNextPlayerIndex gameState = Some r ∧
    (r < length (GameState.players gameState))%nat ∧
    (next_unfinished gameState r ∨
     (r = GameState.currentPlayerIndex gameState ∧
      ∀ p, p ∈ GameState.players gameState → Player.hasFinished p = true)).
Proof.
  intros Hcur. unfold getNextPlayerIndex, next_unfinished.
  set (players := GameState.players gameState) in *.
  set (cur := GameState.currentPlayerIndex gameState) in *.
  destruct (skipFinished_spec players (length players)
              ((cur + 1) `mod` length players)%nat cur) as (r & Hr & Hcase).
  { apply Nat.mod_upper_bound. lia. }
  exists r. split; [done|].
  assert (Hshift : ∀ j, (((cur + 1) `mod` length players + j) `mod` length players
                         = (cur + 1 + j) `mod` length players)%nat).
  { intros j. by rewrite Nat.Div0.add_mod_idemp_l. }
  destruct Hcase as [(j & Hj & Hrj & Hun & Hbefore)|[-> Hall]].
  - rewrite Hshift in Hrj. split.
    { destruct Hun as (p & Hp & _). by apply lookup_lt_Some in Hp. }
    left. exists j. repeat split; try done.
    intros j' Hj'. rewrite <- Hshift. by apply Hbefore.
  - split; [done|]. right. split; [done|].
    intros p Hp. apply list_elem_of_lookup in Hp as [i Hi].
    pose proof (lookup_lt_Some _ _ _ Hi) as Hlt.
    (* index [i] is reached after [(i + n - cur - 1) mod n] attempts *)
    destruct (Hall ((i + length players - (cur + 1) `mod` length players) `mod` length players)%nat)
      as (p' & Hp' & Hfin).
    { apply Nat.mod_upper_bound. lia. }
    rewrite Nat.Div0.add_mod_idemp_r in Hp'.
    pose proof (Nat.mod_upper_bound (cur + 1) (length players) ltac:(lia)) as Hm.
    replace ((cur + 1) `mod` length players + (i + length players - (cur + 1) `mod` length players))%nat
      with (i + 1 * length players)%nat in Hp' by lia.
    rewrite Nat.Div0.mod_add, Nat.mod_small in Hp' by done.
    congruence.
Qed.

(** ** Capture: checkCapture *)

Lemma capturable_true (position : Z) (tok : Token.t) :
  capturable position tok = true ↔
  Token.state tok = ACTIVE ∧ Token.position tok = position ∧ Token.homeStretchPos tok < 0.
Proof.
  unfold capturable. rewrite !andb_true_iff, !bool_decide_eq_true. tauto.
Qed.

Lemma scanTokens_spec (position : Z) (tokens : list Token.t) (t0 : nat) :
  match scanTokens position tokens t0 with
  | Some t =>
      ∃ k tok, t = (t0 + k)%nat ∧ tokens !! k = Some tok ∧ capturable position tok = true ∧
        ∀ k' tok', (k' < k)%nat → tokens !! k' = Some tok' → capturable position tok' = false
  | None => ∀ k tok, tokens !! k = Some tok → capturable position tok = false
  end.
Proof.
  revert t0. induction tokens as [|tok tokens IH]; intros t0; simpl.
  - intros k tok Hk. by rewrite lookup_nil in Hk.
  - destruct (capturable position tok) eqn:Hc.
    + exists 0%nat, tok. split; [lia|]. split; [done|]. split; [done|]. intros; lia.
    + specialize (IH (S t0)). destruct (scanTokens position tokens (S t0)) as [t|].
      * destruct IH as (k & tok' & -> & Hk & Hcap & Hbefore).
        exists (S k), tok'. split; [lia|]. split; [done|]. split; [done|].
        intros [|k'] tok'' Hlt Hlook; simpl in Hlook.
        -- by inversion Hlook; subst.
        -- apply (Hbefore k'); [lia|done].
      * intros [|k] tok' Hlook; simpl in Hlook.
        -- by inversion Hlook; subst.
        -- by apply (IH k).
Qed.

Lemma scanPlayers_spec (playerIndex : nat) (position : Z) (players : list Player.t) (i0 : nat) :
  match scanPlayers playerIndex position players i0 with
  | Some (i, t) =>
      ∃ k p tok, i = (i0 + k)%nat ∧ i ≠ playerIndex ∧ players !! k = Some p ∧
        Player.tokens p !! t = Some tok ∧ capturable position tok = true ∧
        (∀ t' tok', (t' < t)%nat → Player.tokens p !! t' = Some tok' →
                    capturable position tok' = false) ∧
        (∀ k' p' t' tok', (k' < k)%nat → (i0 + k')%nat ≠ playerIndex →
           players !! k' = Some p' → Player.tokens p' !! t' = Some tok' →
           capturable position tok' = false)
  | None =>
      ∀ k p t tok, (i0 + k)%nat ≠ playerIndex → players !! k = Some p →
        Player.tokens p !! t = Some tok → capturable position tok = false
  end.
Proof.
  revert i0. induction players as [|p players IH]; intros i0; simpl.
  - intros k p t tok _ Hk. by rewrite lookup_nil in Hk.
  - specialize (IH (S i0)).
    assert (Hskip :
      (∀ t tok, i0 ≠ playerIndex → Player.tokens p !! t = Some tok →
                capturable position tok = false) →
      match scanPlayers playerIndex position players (S i0) with
      | Some (i, t) =>
          ∃ k p0 tok, i = (i0 + k)%nat ∧ i ≠ playerIndex ∧ (p :: players) !! k = Some p0 ∧
            Player.tokens p0 !! t = Some tok ∧ capturable position tok = true ∧
            (∀ t' tok', (t' < t)%nat → Player.tokens p0 !! t' = Some tok' →
                        capturable position tok' = false) ∧
            (∀ k' p' t' tok', (k' < k)%nat → (i0 + k')%nat ≠ playerIndex →
               (p :: players) !! k' = Some p' → Player.tokens p' !! t' = Some tok' →
               capturable position tok' = false)
      | None =>
          ∀ k p0 t tok, (i0 + k)%nat ≠ playerIndex → (p :: players) !! k = Some p0 →
            Player.tokens p0 !! t = Some tok → capturable position tok = false
      end).
    { intros Hhead.
      destruct (scanPlayers playerIndex position players (S i0)) as [[i t]|].
      - destruct IH as (k & p0 & tok & -> & Hne & Hk & Ht & Hcap & Hfirst & Hbefore).
        exists (S k), p0, tok. split; [lia|]. split; [lia|]. split; [done|].
        split; [done|]. split; [done|]. split; [done|].
        intros [|k'] p' t' tok' Hlt Hne' Hlook Htok; simpl in Hlook.
        + inversion Hlook; subst. apply (Hhead t'); [|done].
          by rewrite Nat.add_0_r in Hne'.
        + apply (Hbefore k' p' t'); [lia| |done|done].
          by replace (S i0 + k')%nat with (i0 + S k')%nat by lia.
      - intros [|k] p0 t tok Hne Hlook Htok; simpl in Hlook.
        + inversion Hlook; subst. apply (Hhead t); [|done].
          by rewrite Nat.add_0_r in Hne.
        + apply (IH k p0 t); [|done|done].
          by replace (S i0 + k)%nat with (i0 + S k)%nat by lia. }
    destruct (decide (i0 = playerIndex)) as [Heq|Hne].
    + apply Hskip. intros; done.
    + pose proof (scanTokens_spec position (Player.tokens p) 0) as Htok.
      destruct (scanTokens position (Player.tokens p) 0) as [t|].
      * destruct Htok as (k & tok & -> & Hk & Hcap & Hfirst). simpl.
        exists 0%nat, p, tok. split; [lia|]. split; [done|]. split; [done|].
        split; [done|]. split; [done|]. split; [done|]. intros; lia.
      * apply Hskip. intros t tok _ Ht. by apply (Htok t).
Qed.

Lemma checkCapture_Some (gameState : GameState.t) (playerIndex : nat) (position : Z)
    (i t : nat) :
  checkCapture gameState playerIndex position = Some (i, t) →
  (position ∉ SAFE_SQUARES) ∧ opposing_on gameState playerIndex position i t ∧
  ∀ i' t', opposing_on gameState playerIndex position i' t' →
    (i < i')%nat ∨ (i = i' ∧ (t ≤ t')%nat).
Proof.
  unfold checkCapture. case_bool_decide as Hsafe; [done|]. intros Hscan.
  pose proof (scanPlayers_spec playerIndex position (GameState.players gameState) 0) as Hspec.
  rewrite Hscan in Hspec.
  destruct Hspec as (k & p & tok & -> & Hne & Hk & Ht & Hcap & Hfirst & Hbefore).
  simpl in *. split; [done|]. split.
  - split; [done|]. exists tok. unfold token_at. rewrite Hk. simpl.
    split; [done|]. by apply capturable_true.
  - intros i' t' [Hne' (tok' & Htok' & Hcap')].
    apply capturable_true in Hcap'.
    unfold token_at in Htok'.
    destruct (GameState.players gameState !! i') as [p'|] eqn:Hp'; [|done]. simpl in Htok'.
    destruct (decide (i' < k)%nat) as [Hlt|Hge].
    { rewrite (Hbefore i' p' t' tok') in Hcap'; done. }
    destruct (decide (k = i')) as [->|Hneq]; [|left; lia].
    right. split; [done|]. simplify_eq.
    destruct (decide (t' < t)%nat) as [Hlt|]; [|lia].
    rewrite (Hfirst t' tok') in Hcap'; done.
Qed.

Lemma checkCapture_None (gameState : GameState.t) (playerIndex : nat) (position : Z) :
  checkCapture gameState playerIndex position = None →
  position ∈ SAFE_SQUARES ∨ ∀ i t, ¬ opposing_on gameState playerIndex position i t.
Proof.
  unfold checkCapture. case_bool_decide as Hsafe; [by left|]. intros Hscan. right.
  pose proof (scanPlayers_spec playerIndex position (GameState.players gameState) 0) as Hspec.
  rewrite Hscan in Hspec. intros i t [Hne (tok & Htok & Hcap)].
  apply capturable_true in Hcap. unfold token_at in Htok.
  destruct (GameState.players gameState !! i) as [p|] eqn:Hp; [|done]. simpl in Htok.
  rewrite (Hspec i p t tok) in Hcap; done.
Qed.

Lemma checkCapture_safe (gameState : GameState.t) (playerIndex : nat) (position : Z) :
  position ∈ SAFE_SQUARES → checkCapture gameState playerIndex position = None.
Proof. intros Hsafe. unfold checkCapture. by rewrite bool_decide_eq_true_2. Qed.

(** ** The structure of moveLocalToken *)

Lemma moveOutcome_is_Some (gameState : GameState.t) (playerIndex : nat)
    (player : Player.t) (token : Token.t) :
  is_Some (moveOutcome gameState playerIndex player token) ↔ permitted gameState token.
Proof.
  unfold moveOutcome, permitted, is_Some.
  destruct (Token.state token) eqn:Hstate; simpl.
  - destruct (bool_decide (GameState.diceValue gameState = Some 6)) eqn:Hd.
    + apply bool_decide_eq_true in Hd. split; [by left|by eexists].
    + apply bool_decide_eq_false in Hd. split.
      * by intros [? ?].
      * intros [[_ ?]|?]; done.
  - split; [by right|]. intros _.
    destruct (bool_decide _); [by eexists|]. destruct (bool_decide _); by eexists.
  - split; [by intros [? ?]|]. intros [[? _]|?]; done.
Qed.

Lemma moveOutcome_None (gameState : GameState.t) (playerIndex : nat)
    (player : Player.t) (token : Token.t) :
  ¬ permitted gameState token →
  moveOutcome gameState playerIndex player token = None.
Proof.
  intros Hn. rewrite <- moveOutcome_is_Some in Hn.
  destruct (moveOutcome gameState playerIndex player token) eqn:E; [|done].
  exfalso. apply Hn. by eexists.
Qed.

(** The moved token keeps its id, and a capture is only ever one that
    [checkCapture] reported for the cell the token landed on. *)
Lemma moveOutcome_facts (gameState : GameState.t) (playerIndex : nat)
    (player : Player.t) (token : Token.t) (oc : Outcome) :
  moveOutcome gameState playerIndex player token = Some oc →
  Token.id (oc_token oc) = Token.id token ∧
  Token.state (oc_token oc) ≠ BASE ∧
  (oc_captured oc = None ∨
   oc_captured oc = checkCapture gameState playerIndex (Token.position (oc_token oc))) ∧
  (0 <= Token.position (oc_token oc) →
   oc_captured oc = checkCapture gameState playerIndex (Token.position (oc_token oc))).
Proof.
  unfold moveOutcome. cbv zeta.
  destruct (bool_decide (Token.state token = BASE) &&
            bool_decide (GameState.diceValue gameState = Some 6)).
  { intros [= <-]. simpl. repeat split; try done. by right. }
  destruct (bool_decide (Token.state token = ACTIVE)) eqn:Hact; [|done].
  apply bool_decide_eq_true in Hact.
  destruct (bool_decide (_ = _)).
  { intros [= <-]. simpl. repeat split; try done. by left. }
  destruct (bool_decide (_ > _)).
  { intros [= <-]. simpl. rewrite Hact. repeat split; try done. by left. }
  intros [= <-]. simpl. rewrite Hact. repeat split; try done. by right.
Qed.

Lemma list_find_id_Some (tokens : list Token.t) (tokenId : string) (k : nat) (token : Token.t) :
  list_find (λ t, Token.id t = tokenId) tokens = Some (k, token) →
  tokens !! k = Some token ∧ Token.id token = tokenId ∧ (k < length tokens)%nat.
Proof.
  intros (Hk & Hid & _)%list_find_Some. split; [done|]. split; [done|].
  by apply lookup_lt_Some in Hk.
Qed.

Lemma moveLocalToken_gameOver (gameState : GameState.t) (tokenId : string) :
  GameState.gameOver gameState = true →
  moveLocalToken gameState tokenId = Some (with_message gameState "Game is over!").
Proof. intros H. unfold moveLocalToken. by rewrite H. Qed.

Lemma moveLocalToken_settle (gameState : GameState.t) (tokenId : string)
    (player : Player.t) (k : nat) (token : Token.t) (oc : Outcome) :
  GameState.gameOver gameState = false →
  GameState.players gameState !! GameState.currentPlayerIndex gameState = Some player →
  list_find (λ t, Token.id t = tokenId) (Player.tokens player) = Some (k, token) →
  moveOutcome gameState (GameState.currentPlayerIndex gameState) player token = Some oc →
  moveLocalToken gameState tokenId
  = settleMove gameState tokenId (GameState.currentPlayerIndex gameState) k oc.
Proof.
  intros Hover Hplayer Hfind Hoc. unfold moveLocalToken.
  rewrite Hover, Hplayer. simpl. by rewrite Hfind, Hoc.
Qed.

(** Every outcome of [moveLocalToken]: a rejection that changes the
    message only, or a settled move. *)
Lemma moveLocalToken_cases (gameState : GameState.t) (tokenId : string) (s' : GameState.t) :
  moveLocalToken gameState tokenId = Some s' →
  (∃ message, s' = with_message gameState message) ∨
  (∃ player k token oc,
     GameState.gameOver gameState = false ∧
     GameState.players gameState !! GameState.currentPlayerIndex gameState = Some player ∧
     list_find (λ t, Token.id t = tokenId) (Player.tokens player) = Some (k, token) ∧
     moveOutcome gameState (GameState.currentPlayerIndex gameState) player token = Some oc ∧
     settleMove gameState tokenId (GameState.currentPlayerIndex gameState) k oc = Some s').
Proof.
  unfold moveLocalToken. destruct (GameState.gameOver gameState) eqn:Hover.
  { intros [= <-]. left. by eexists. }
  destruct (GameState.players gameState !! GameState.currentPlayerIndex gameState)
    as [player|] eqn:Hplayer; [|done]. simpl.
  destruct (list_find _ _) as [[k token]|] eqn:Hfind.
  2:{ intros [= <-]. left. by eexists. }
  destruct (moveOutcome _ _ _ _) as [oc|] eqn:Hoc.
  2:{ intros [= <-]. left. by eexists. }
  intros Hs. right. by exists player, k, token, oc.
Qed.

(** What [settleMove] returns, field by field. *)
Lemma settleMove_inv (gameState : GameState.t) (tokenId : string) (k : nat)
    (oc : Outcome) (s' : GameState.t) :
  let playerIndex := GameState.currentPlayerIndex gameState in
  let newPlayers := applyCapture gameState playerIndex k (oc_token oc) (oc_captured oc) in
  settleMove gameState tokenId playerIndex k oc = Some s' →
  ∃ updatedPlayer nextPlayerIndex message,
    newPlayers !! playerIndex = Some updatedPlayer ∧
    let finished := allHome updatedPlayer && negb (Player.hasFinished updatedPlayer) in
    let newPlayers' :=
      if finished
      then <[playerIndex := markFinished updatedPlayer
                              (Z.of_nat (length (GameState.finishOrder gameState)))]> newPlayers
      else newPlayers in
    let finishOrder :=
      if finished then (GameState.finishOrder gameState ++ [playerIndex])%list
      else GameState.finishOrder gameState in
    let gameOver :=
      finished &&
      (bool_decide (length (filter (λ p, Player.hasFinished p = false) newPlayers') ≤ 1)%nat
       || bool_decide (length finishOrder = 1%nat)) in
    let hasExtraTurn :=
      GameState.hasExtraTurn gameState || bool_decide (oc_captured oc ≠ None) in
    (if negb gameOver && negb hasExtraTurn
     then getNextPlayerIndex (with_players gameState newPlayers') = Some nextPlayerIndex
     else nextPlayerIndex = playerIndex) ∧
    s' = GameState.mk (GameState.id gameState) newPlayers' nextPlayerIndex None false false
           (if hasExtraTurn then GameState.consecutiveSixes gameState else 0)
           (if gameOver then Some playerIndex else None) gameOver Roll message
           (GameState.moveHistory gameState
              ++ [MoveRecord.mk playerIndex tokenId (GameState.diceValue gameState)])%list
           finishOrder.
Proof.
  intros playerIndex newPlayers. unfold settleMove. cbv zeta.
  fold playerIndex. fold newPlayers.
  destruct (match oc_captured oc with Some _ => _ | None => _ end) as [msg|]; [|done].
  simpl. destruct (newPlayers !! playerIndex) as [updatedPlayer|] eqn:Hup; [|done].
  simpl. intros Hs.
  match type of Hs with
  | context [ (if ?c then getNextPlayerIndex ?g else Some ?p) ] =>
      destruct (if c then getNextPlayerIndex g else Some p) as [next|] eqn:Hnext; [|done]
  end.
  simpl in Hs.
  match type of Hs with
  | (?m ≫= _) = _ => destruct m as [msg'|] eqn:Hmsg; [|done]
  end.
  simpl in Hs. injection Hs as <-.
  exists updatedPlayer, next, msg'. split; [done|]. cbv zeta. split; [|done].
  match type of Hnext with
  | (if ?c then _ else _) = _ => destruct c; [done|by injection Hnext]
  end.
Qed.

Lemma settleMove_players (gameState : GameState.t) (tokenId : string) (k : nat)
    (oc : Outcome) (s' : GameState.t) :
  settleMove gameState tokenId (GameState.currentPlayerIndex gameState) k oc = Some s' →
  ∀ i, GameState.players s' !! i
       = settledPlayer gameState k oc i <$> GameState.players gameState !! i.
Proof.
  intros Hs i. apply settleMove_inv in Hs.
  destruct Hs as (up & next & msg & Hup & _ & ->). simpl.
  unfold applyCapture in *. rewrite list_lookup_imap in Hup.
  unfold settledPlayer.
  destruct (decide (i = GameState.currentPlayerIndex gameState)) as [->|Hne].
  - rewrite bool_decide_eq_true_2 by done. simpl.
    destruct (GameState.players gameState !! GameState.currentPlayerIndex gameState)
      as [p|] eqn:Hp; [|done].
    simpl in Hup. injection Hup as <-.
    destruct (allHome _ && negb _) eqn:Hfin.
    + rewrite list_lookup_insert_eq; [simpl; by rewrite Hfin|].
      rewrite length_imap. by apply lookup_lt_Some in Hp.
    + rewrite list_lookup_imap, Hp. simpl. by rewrite Hfin.
  - rewrite bool_decide_eq_false_2 by done. simpl.
    destruct (allHome up && negb (Player.hasFinished up)).
    + rewrite list_lookup_insert_ne by done. by rewrite list_lookup_imap.
    + by rewrite list_lookup_imap.
Qed.

Lemma settledPlayer_tokens (gameState : GameState.t) (k : nat) (oc : Outcome)
    (i : nat) (p : Player.t) :
  Player.tokens (settledPlayer gameState k oc i p)
  = Player.tokens (applyCaptureAt (GameState.currentPlayerIndex gameState) k
                     (oc_token oc) (oc_captured oc) i p).
Proof. unfold settledPlayer. cbv zeta. by destruct (_ && _). Qed.

Lemma settledPlayer_startPos (gameState : GameState.t) (k : nat) (oc : Outcome)
    (i : nat) (p : Player.t) :
  Player.startPos (settledPlayer gameState k oc i p) = Player.startPos p.
Proof.
  unfold settledPlayer. cbv zeta.
  assert (H : ∀ a b c d, Player.startPos (applyCaptureAt a b c d i p) = Player.startPos p).
  { intros a b c d. unfold applyCaptureAt. destruct (decide _); [done|].
    destruct d as [[ci ct]|]; [|done]. by destruct (decide _). }
  destruct (_ && _); simpl; apply H.
Qed.

Lemma applyCaptureAt_hasFinished (playerIndex k : nat) (token : Token.t)
    (captured : option (nat * nat)) (i : nat) (p : Player.t) :
  Player.hasFinished (applyCaptureAt playerIndex k token captured i p) = Player.hasFinished p.
Proof.
  unfold applyCaptureAt. destruct (decide _); simpl; try done.
  destruct captured as [[ci ct]|]; try done. by destruct (decide _).
Qed.

(** A finish mark is only ever added. *)
Lemma settledPlayer_hasFinished (gameState : GameState.t) (k : nat) (oc : Outcome)
    (i : nat) (p : Player.t) :
  Player.hasFinished p = true →
  Player.hasFinished (settledPlayer gameState k oc i p) = true.
Proof.
  intros Hfin. unfold settledPlayer. cbv zeta. destruct (_ && _); [done|].
  by rewrite applyCaptureAt_hasFinished.
Qed.

(** The tokens after a settled move: the mover's token is replaced, the
    captured token is sent to base, every other token is untouched. *)
Lemma settleMove_token_at (gameState : GameState.t) (tokenId : string) (k : nat)
    (oc : Outcome) (s' : GameState.t) (player : Player.t) :
  settleMove gameState tokenId (GameState.currentPlayerIndex gameState) k oc = Some s' →
  GameState.players gameState !! GameState.currentPlayerIndex gameState = Some player →
  (k < length (Player.tokens player))%nat →
  ∀ i t, token_at s' i t =
    if decide (i = GameState.currentPlayerIndex gameState ∧ t = k) then Some (oc_token oc)
    else if decide (i ≠ GameState.currentPlayerIndex gameState ∧ oc_captured oc = Some (i, t))
         then sentToBase <$> token_at gameState i t
         else token_at gameState i t.
Proof.
  intros Hs Hplayer Hk i t. unfold token_at.
  rewrite (settleMove_players _ _ _ _ _ Hs).
  destruct (GameState.players gameState !! i) as [p|] eqn:Hp; simpl.
  2:{ destruct (decide (i = _ ∧ _)) as [[-> _]|]; [congruence|].
      by destruct (decide (_ ∧ _)). }
  rewrite settledPlayer_tokens. unfold applyCaptureAt.
  destruct (decide (i = GameState.currentPlayerIndex gameState)) as [->|Hne]; simpl.
  - assert (p = player) as -> by congruence.
    destruct (decide (t = k)) as [->|Hnk].
    + rewrite decide_True by done. by apply list_lookup_insert_eq.
    + rewrite decide_False by tauto. rewrite decide_False by tauto.
      by apply list_lookup_insert_ne.
  - rewrite decide_False by tauto.
    destruct (oc_captured oc) as [[ci ct]|].
    + destruct (decide (i = ci)) as [->|Hnci]; simpl.
      * destruct (decide (t = ct)) as [->|Hnct].
        -- rewrite decide_True by done. apply list_lookup_alter_eq.
        -- rewrite decide_False by (intros [_ ?]; congruence).
           by apply list_lookup_alter_ne.
      * by rewrite decide_False by (intros [_ ?]; congruence).
    + by rewrite decide_False by (intros [_ ?]; congruence).
Qed.

Lemma settleMove_is_Some (gameState : GameState.t) (tokenId : string) (k : nat)
    (oc : Outcome) (player : Player.t) :
  GameState.players gameState !! GameState.currentPlayerIndex gameState = Some player →
  (∀ ci ct, oc_captured oc = Some (ci, ct) →
            (ci < length (GameState.players gameState))%nat) →
  is_Some (settleMove gameState tokenId (GameState.currentPlayerIndex gameState) k oc).
Proof.
  intros Hplayer Hcap. unfold settleMove. cbv zeta.
  set (playerIndex := GameState.currentPlayerIndex gameState) in *.
  set (newPlayers := applyCapture gameState playerIndex k (oc_token oc) (oc_captured oc)).
  assert (Hlen : length newPlayers = length (GameState.players gameState)).
  { unfold newPlayers, applyCapture. by rewrite length_imap. }
  pose proof (lookup_lt_Some _ _ _ Hplayer) as Hcur.
  assert (∃ msg, match oc_captured oc with
                 | Some (ci, _) =>
                     cp ← GameState.players gameState !! ci;
                     Some (oc_message oc +:+ " Captured " +:+ show_name (Player.name cp)
                             +:+ "'s token! ðŸ’¥")
                 | None => Some (oc_message oc)
                 end = Some msg) as [msg ->].
  { destruct (oc_captured oc) as [[ci ct]|]; [|by eexists].
    destruct (lookup_lt_is_Some_2 (GameState.players gameState) ci) as [cp ->];
      [by eapply Hcap|]. by eexists. }
  simpl.
  destruct (lookup_lt_is_Some_2 newPlayers playerIndex) as [up ->]; [lia|]. simpl.
  set (finished := allHome up && negb (Player.hasFinished up)).
  set (newPlayers' := if finished then _ else newPlayers).
  assert (Hlen' : length newPlayers' = length (GameState.players gameState)).
  { unfold newPlayers'. destruct finished; [|done]. by rewrite length_insert. }
  destruct (getNextPlayerIndex_spec (with_players gameState newPlayers'))
    as (r & Hr & Hrlt & _); [simpl; lia|]. simpl in Hrlt.
  match goal with
  | |- is_Some ((if ?c then _ else _) ≫= _) => destruct c eqn:Hc
  end.
  - rewrite Hr. simpl.
    destruct (lookup_lt_is_Some_2 newPlayers' r) as [np ->]; [lia|]. by eexists.
  - simpl.
    match goal with
    | |- is_Some ((if ?c then _ else _) ≫= _) => destruct c
    end; by eexists.
Qed.

Lemma moveOutcome_captured_lt (gameState : GameState.t) (playerIndex : nat)
    (player : Player.t) (token : Token.t) (oc : Outcome) (ci ct : nat) :
  moveOutcome gameState playerIndex player token = Some oc →
  oc_captured oc = Some (ci, ct) →
  ci ≠ playerIndex ∧ (ci < length (GameState.players gameState))%nat ∧
  ∃ tok, token_at gameState ci ct = Some tok ∧ Token.state tok = ACTIVE.
Proof.
  intros Hoc Hcap. destruct (moveOutcome_facts _ _ _ _ _ Hoc) as (_ & _ & [Hn|Hc] & _);
    [congruence|].
  rewrite Hcap in Hc. symmetry in Hc.
  apply checkCapture_Some in Hc as (_ & [Hne (tok & Htok & Hact & _)] & _).
  split; [done|]. split; [|by exists tok].
  unfold token_at in Htok.
  destruct (GameState.players gameState !! ci) eqn:Hp; [|done].
  by apply lookup_lt_Some in Hp.
Qed.

(** A permitted move on a token of the current player is settled: the
    call does not throw. *)
Lemma moveLocalToken_applied (gameState : GameState.t) (tokenId : string)
    (player : Player.t) (k : nat) (token : Token.t) (oc : Outcome) :
  GameState.gameOver gameState = false →
  GameState.players gameState !! GameState.currentPlayerIndex gameState = Some player →
  list_find (λ t, Token.id t = tokenId) (Player.tokens player) = Some (k, token) →
  moveOutcome gameState (GameState.currentPlayerIndex gameState) player token = Some oc →
  ∃ s', moveLocalToken gameState tokenId = Some s' ∧
        settleMove gameState tokenId (GameState.currentPlayerIndex gameState) k oc = Some s'.
Proof.
  intros Hover Hplayer Hfind Hoc.
  rewrite (moveLocalToken_settle _ _ _ _ _ _ Hover Hplayer Hfind Hoc).
  destruct (settleMove_is_Some gameState tokenId k oc player Hplayer) as [s' Hs'].
  { intros ci ct Hcap. by eapply moveOutcome_captured_lt. }
  by exists s'.
Qed.

(** ** The transition of the acting token *)

(** C1 (as amended).  A move of an active token of the current player
    with [stepsFromStart = s] and dice value [d], where [s + d <= 58] as
    [getValidMovesLocal] requires: the token's [stepsFromStart] becomes
    [s + d]; at [s + d = 58] it is home with [position = -1] and
    [homeStretchPos = -1]; for [52 < s + d < 58] it stays active with
    [homeStretchPos = s + d - 52 - 1] and [position = -1]; for
    [s + d <= 52] it stays active with [position = (startPos + s + d) % 52]
    (the mathematical [mod] whenever the sum is not negative). *)
Theorem moveLocalToken_active_transition (gameState : GameState.t) (tokenId : string)
    (player : Player.t) (k : nat) (token : Token.t) (d : Z) :
  GameState.gameOver gameState = false →
  GameState.players gameState !! GameState.currentPlayerIndex gameState = Some player →
  list_find (λ t, Token.id t = tokenId) (Player.tokens player) = Some (k, token) →
  Token.state token = ACTIVE →
  GameState.diceValue gameState = Some d →
  Token.stepsFromStart token + d <= 58 →
  ∃ s' token',
    moveLocalToken gameState tokenId = Some s' ∧
    token_at s' (GameState.currentPlayerIndex gameState) k = Some token' ∧
    Token.id token' = tokenId ∧
    Token.stepsFromStart token' = Token.stepsFromStart token + d ∧
    (Token.stepsFromStart token + d = 58 →
       Token.state token' = HOME ∧ Token.position token' = -1 ∧
       Token.homeStretchPos token' = -1) ∧
    (52 < Token.stepsFromStart token + d < 58 →
       Token.state token' = ACTIVE ∧
       Token.homeStretchPos token' = (Token.stepsFromStart token + d) - 52 - 1 ∧
       Token.position token' = -1) ∧
    (Token.stepsFromStart token + d <= 52 →
       Token.state token' = ACTIVE ∧
       Token.position token'
         = Z.rem (Player.startPos player + (Token.stepsFromStart token + d)) 52 ∧
       (0 <= Player.startPos player + (Token.stepsFromStart token + d) →
        Token.position token'
          = (Player.startPos player + (Token.stepsFromStart token + d)) `mod` 52)).
Proof.
  intros Hover Hplayer Hfind Hact Hdice Hle.
  destruct (list_find_id_Some _ _ _ _ Hfind) as (Hk & Hid & Hlt).
  assert (∃ oc, moveOutcome gameState (GameState.currentPlayerIndex gameState) player token
                = Some oc) as [oc Hoc].
  { apply moveOutcome_is_Some. by right. }
  destruct (moveLocalToken_applied _ _ _ _ _ _ Hover Hplayer Hfind Hoc) as (s' & Hmove & Hs').
  exists s', (oc_token oc). split; [done|].
  split.
  { rewrite (settleMove_token_at _ _ _ _ _ _ Hs' Hplayer Hlt). by rewrite decide_True. }
  revert Hoc. unfold moveOutcome. cbv zeta.
  rewrite Hact, Hdice. simpl. unfold BOARD_SIZE, HOME_STRETCH_LENGTH. simpl.
  case_bool_decide as H58; [|case_bool_decide as H52]; intros [= <-]; simpl;
    (split; [done|]); (split; [done|]).
  - repeat split; try done; lia.
  - repeat split; try done; lia.
  - split; [lia|]. split; [lia|]. intros _. split; [done|]. split; [done|].
    intros Hnonneg. by apply Z.rem_mod_nonneg.
Qed.

(** ** Capture on landing *)

(** C2.  A permitted move whose token lands on main-track cell [c] (the
    moved token's new [position], not negative).  Some opposing token is
    captured exactly when [c] is not a safe square and an opposing
    active token outside its home stretch stands on [c]; the captured
    token is the first such token in player order, then token order;
    it is sent to base, the mover's token is replaced by the moved one,
    and every other token of the game is as before. *)
Theorem moveLocalToken_capture (gameState : GameState.t) (tokenId : string)
    (player : Player.t) (k : nat) (token : Token.t) (s' : GameState.t)
    (token' : Token.t) (c : Z) :
  GameState.gameOver gameState = false →
  GameState.players gameState !! GameState.currentPlayerIndex gameState = Some player →
  list_find (λ t, Token.id t = tokenId) (Player.tokens player) = Some (k, token) →
  permitted gameState token →
  moveLocalToken gameState tokenId = Some s' →
  token_at s' (GameState.currentPlayerIndex gameState) k = Some token' →
  Token.position token' = c →
  0 <= c →
  let playerIndex := GameState.currentPlayerIndex gameState in
  ∃ captured : option (nat * nat),
    (is_Some captured ↔
       (c ∉ SAFE_SQUARES) ∧ ∃ i t, opposing_on gameState playerIndex c i t) ∧
    (∀ i t, captured = Some (i, t) →
       opposing_on gameState playerIndex c i t ∧
       ∀ i' t', opposing_on gameState playerIndex c i' t' →
         (i < i')%nat ∨ (i = i' ∧ (t ≤ t')%nat)) ∧
    (∀ i t,
       token_at s' i t =
         if decide (i = playerIndex ∧ t = k) then Some token'
         else if decide (captured = Some (i, t))
              then sentToBase <$> token_at gameState i t
              else token_at gameState i t) ∧
    (∀ tok, sentToBase tok = Token.mk (Token.id tok) BASE (-1) (-1) 0).
Proof.
  intros Hover Hplayer Hfind Hperm Hmove Htok' Hpos Hc playerIndex.
  destruct (list_find_id_Some _ _ _ _ Hfind) as (Hk & Hid & Hlt).
  apply (moveOutcome_is_Some gameState (GameState.currentPlayerIndex gameState) player)
    in Hperm as [oc Hoc].
  rewrite (moveLocalToken_settle _ _ _ _ _ _ Hover Hplayer Hfind Hoc) in Hmove.
  pose proof (settleMove_token_at _ _ _ _ _ _ Hmove Hplayer Hlt) as Hat.
  assert (token' = oc_token oc) as ->.
  { rewrite Hat, decide_True in Htok' by done. congruence. }
  destruct (moveOutcome_facts _ _ _ _ _ Hoc) as (_ & _ & _ & Hcap).
  rewrite Hpos in Hcap. specialize (Hcap Hc). fold playerIndex in Hcap.
  exists (oc_captured oc). split; [|split; [|split]].
  - rewrite Hcap. split.
    + intros [[i t] Hsome].
      apply checkCapture_Some in Hsome as (Hsafe & Hopp & _).
      split; [done|]. by exists i, t.
    + intros [Hsafe (i & t & Hopp)].
      destruct (checkCapture gameState playerIndex c) as [cap|] eqn:Hcc; [by eexists|].
      apply checkCapture_None in Hcc as [?|Hnone]; [done|].
      by destruct (Hnone i t).
  - intros i t Hsome. rewrite Hcap in Hsome.
    by apply checkCapture_Some in Hsome as (_ & Hopp & Hfirst).
  - intros i t. rewrite Hat. fold playerIndex.
    destruct (decide (i = playerIndex ∧ t = k)) as [|Hnk]; [done|].
    destruct (decide (oc_captured oc = Some (i, t))) as [Heq|Hneq].
    + rewrite decide_True; [done|]. split; [|done].
      rewrite Hcap in Heq. by apply checkCapture_Some in Heq as (_ & [Hne _] & _).
    + by rewrite decide_False by tauto.
  - done.
Qed.

(** ** The state after a move *)

(** C9.  A move that is applied (game not over, token of the current
    player, permitted) returns a state with [diceValue = null],
    [diceRolled = false], [turnPhase = 'roll'] and [hasExtraTurn = false],
    also when the game has just ended; a mover who had the extra turn
    keeps the turn, which shows in [currentPlayerIndex] only. *)
Theorem moveLocalToken_resets_turn (gameState : GameState.t) (tokenId : string)
    (player : Player.t) (k : nat) (token : Token.t) :
  GameState.gameOver gameState = false →
  GameState.players gameState !! GameState.currentPlayerIndex gameState = Some player →
  list_find (λ t, Token.id t = tokenId) (Player.tokens player) = Some (k, token) →
  permitted gameState token →
  ∃ s', moveLocalToken gameState tokenId = Some s' ∧
    GameState.diceValue s' = None ∧
    GameState.diceRolled s' = false ∧
    GameState.turnPhase s' = Roll ∧
    GameState.hasExtraTurn s' = false ∧
    (GameState.hasExtraTurn gameState = true ∨ GameState.gameOver s' = true →
     GameState.currentPlayerIndex s' = GameState.currentPlayerIndex gameState) ∧
    GameState.moveHistory s'
    = (GameState.moveHistory gameState
         ++ [MoveRecord.mk (GameState.currentPlayerIndex gameState) tokenId
               (GameState.diceValue gameState)])%list.
Proof.
  intros Hover Hplayer Hfind Hperm.
  apply (moveOutcome_is_Some gameState (GameState.currentPlayerIndex gameState) player)
    in Hperm as [oc Hoc].
  destruct (moveLocalToken_applied _ _ _ _ _ _ Hover Hplayer Hfind Hoc) as (s' & Hmove & Hs').
  exists s'. split; [done|].
  apply settleMove_inv in Hs' as (up & next & msg & Hup & Hnext & ->). simpl.
  repeat split; try done.
  intros Hkeep. revert Hnext.
  destruct Hkeep as [-> | ->]; simpl; [|done].
  by rewrite andb_false_r.
Qed.

(** ** The structure of rollLocalDice *)

Lemma rollLocalDice_cases (s : GameState.t) (w : World) (s' : GameState.t) :
  run (rollLocalDice s) w = Some s' →
  (∃ message, s' = with_message s message) ∨
  (GameState.gameOver s = false ∧ GameState.turnPhase s = Roll ∧
   afterRoll s (floor_times6 (random w 0%nat) + 1) = Some s').
Proof.
  unfold rollLocalDice. destruct (GameState.gameOver s) eqn:Hover.
  { intros [= <-]. left. by eexists. }
  destruct (decide (GameState.turnPhase s ≠ Roll)) as [Hne|Heq].
  { intros [= <-]. left. by eexists. }
  simpl. intros Hrun. right. split; [done|]. split.
  { destruct (GameState.turnPhase s); [done|]. exfalso. by apply Heq. }
  by destruct (afterRoll s (floor_times6 (random w 0%nat) + 1)).
Qed.

(** After the draw the players are untouched, or the single valid move
    is applied to [rolledState]. *)
Lemma afterRoll_cases (s : GameState.t) (d : Z) (s' : GameState.t) :
  afterRoll s d = Some s' →
  (GameState.players s' = GameState.players s ∧
   GameState.gameOver s' = GameState.gameOver s ∧
   GameState.finishOrder s' = GameState.finishOrder s ∧
   GameState.moveHistory s' = GameState.moveHistory s ∧
   (GameState.diceValue s' = None ∨ GameState.diceValue s' = Some d) ∧
   ((GameState.currentPlayerIndex s < length (GameState.players s))%nat →
    (GameState.currentPlayerIndex s' < length (GameState.players s))%nat)) ∨
  (¬ (d = 6 ∧ GameState.consecutiveSixes s + 1 >= 3) ∧
   ∃ only, getValidMovesLocal (rolledState s d) = Some [only] ∧
           moveLocalToken (rolledState s d) (ValidMove.tokenId only) = Some s').
Proof.
  unfold afterRoll. cbv zeta.
  destruct (bool_decide (d = 6) && bool_decide (GameState.consecutiveSixes (rolledState s d) >= 3))
    eqn:Hforfeit.
  { destruct (getNextPlayerIndex (rolledState s d)) as [next|] eqn:Hnext; [|done]. simpl.
    destruct (GameState.players s !! GameState.currentPlayerIndex s) as [cur|]; [|done]. simpl.
    destruct (GameState.players s !! next) as [np|] eqn:Hnp; [|done]. simpl.
    intros [= <-]. left. simpl. repeat split; try done; [by left|].
    intros _. by apply lookup_lt_Some in Hnp. }
  destruct (getValidMovesLocal (rolledState s d)) as [moves|] eqn:Hmoves; [|done]. simpl.
  destruct moves as [|only [|another moves]].
  - destruct (bool_decide (d = 6)).
    + destruct (GameState.players s !! GameState.currentPlayerIndex s) as [cur|]; [|done].
      simpl. intros [= <-]. left. simpl. repeat split; try done. by left.
    + destruct (getNextPlayerIndex (rolledState s d)) as [next|] eqn:Hnext; [|done]. simpl.
      destruct (GameState.players s !! GameState.currentPlayerIndex s) as [cur|]; [|done].
      simpl. destruct (GameState.players s !! next) as [np|] eqn:Hnp; [|done]. simpl.
      intros [= <-]. left. simpl. repeat split; try done; [by left|].
      intros _. by apply lookup_lt_Some in Hnp.
  - intros Hmove. right. split; [|by exists only].
    intros [-> Hge].
    apply andb_false_iff in Hforfeit as [Hf|Hf]; apply bool_decide_eq_false in Hf;
      [done|]. by simpl in Hf.
  - destruct (GameState.players s !! GameState.currentPlayerIndex s) as [cur|]; [|done].
    simpl. intros [= <-]. left. simpl. repeat split; try done. by right.
Qed.

(** ** Invariants of a game *)

Lemma engine_inv_with_message (s : GameState.t) (message : string) :
  engine_inv s → engine_inv (with_message s message).
Proof. intros [? ? ? ? ? ?]. by constructor. Qed.

Lemma engine_inv_rolled (s : GameState.t) (d : Z) :
  engine_inv s → 1 <= d <= 6 → engine_inv (rolledState s d).
Proof. intros [? ? ? ? ? ?] Hd. constructor; simpl; try done. by intros ? [= <-]. Qed.

Lemma settleMove_elem_of (gameState : GameState.t) (tokenId : string) (k : nat)
    (oc : Outcome) (s' : GameState.t) (p' : Player.t) :
  settleMove gameState tokenId (GameState.currentPlayerIndex gameState) k oc = Some s' →
  p' ∈ GameState.players s' →
  ∃ i p, GameState.players gameState !! i = Some p ∧ p' = settledPlayer gameState k oc i p.
Proof.
  intros Hs [i Hi]%list_elem_of_lookup.
  rewrite (settleMove_players _ _ _ _ _ Hs) in Hi.
  destruct (GameState.players gameState !! i) as [p|] eqn:Hp; [|done].
  simpl in Hi. injection Hi as <-. by exists i, p.
Qed.

Lemma settleMove_length (gameState : GameState.t) (tokenId : string) (k : nat)
    (oc : Outcome) (s' : GameState.t) :
  settleMove gameState tokenId (GameState.currentPlayerIndex gameState) k oc = Some s' →
  length (GameState.players s') = length (GameState.players gameState).
Proof.
  intros Hs. apply settleMove_inv in Hs as (up & next & msg & _ & _ & ->). simpl.
  destruct (allHome up && negb (Player.hasFinished up));
    unfold applyCapture; by rewrite ?length_insert, length_imap.
Qed.

(** A token of a player after a settled move is a token the player had,
    the moved token, or a token sent to base. *)
Lemma settledPlayer_token_elem (gameState : GameState.t) (k : nat) (oc : Outcome)
    (i : nat) (p : Player.t) (tok' : Token.t) :
  tok' ∈ Player.tokens (settledPlayer gameState k oc i p) →
  tok' ∈ Player.tokens p
  ∨ (i = GameState.currentPlayerIndex gameState ∧ tok' = oc_token oc)
  ∨ (∃ tok, tok ∈ Player.tokens p ∧ tok' = sentToBase tok).
Proof.
  rewrite settledPlayer_tokens. unfold applyCaptureAt.
  destruct (decide (i = GameState.currentPlayerIndex gameState)) as [->|Hne]; simpl.
  - intros [j Hj]%list_elem_of_lookup.
    apply list_lookup_insert_Some in Hj as [(_ & <- & _)|[_ Hj]].
    + right. by left.
    + left. by eapply list_elem_of_lookup_2.
  - destruct (oc_captured oc) as [[ci ct]|]; [|by left].
    destruct (decide (i = ci)) as [->|]; [|by left]. simpl.
    intros [j Hj]%list_elem_of_lookup.
    destruct (decide (ct = j)) as [->|Hnj].
    + rewrite list_lookup_alter_eq in Hj.
      destruct (Player.tokens p !! j) as [tok|] eqn:Htok; [|done].
      simpl in Hj. injection Hj as <-. right. right. exists tok.
      split; [|done]. by eapply list_elem_of_lookup_2.
    + rewrite list_lookup_alter_ne in Hj by done. left. by eapply list_elem_of_lookup_2.
Qed.

Lemma engine_inv_settle (s : GameState.t) (tokenId : string) (player : Player.t)
    (k : nat) (token : Token.t) (oc : Outcome) (s' : GameState.t) :
  engine_inv s →
  GameState.gameOver s = false →
  GameState.players s !! GameState.currentPlayerIndex s = Some player →
  moveOutcome s (GameState.currentPlayerIndex s) player token = Some oc →
  settleMove s tokenId (GameState.currentPlayerIndex s) k oc = Some s' →
  engine_inv s'.
Proof.
  intros [Hdice Hcur Hstart Hbase Hfirst Hunf] Hover Hplayer Hoc Hs.
  pose proof (settleMove_length _ _ _ _ _ Hs) as Hlen.
  constructor.
  - apply settleMove_inv in Hs as (up & next & msg & _ & _ & ->). by simpl.
  - rewrite Hlen.
    apply settleMove_inv in Hs as (up & next & msg & Hup & Hnext & ->). simpl in *.
    match type of Hnext with
    | (if ?c then getNextPlayerIndex ?g = _ else _) => destruct c; [|by subst]
    end.
    match type of Hnext with
    | getNextPlayerIndex ?g = _ =>
        destruct (getNextPlayerIndex_spec g) as (r & Hr & Hlt & _);
          [simpl; by rewrite Hlen|]
    end.
    simpl in Hlt. rewrite Hlen in Hlt. rewrite Hr in Hnext. by injection Hnext as <-.
  - intros p' Hp'. destruct (settleMove_elem_of _ _ _ _ _ _ Hs Hp') as (i & p & Hp & ->).
    rewrite settledPlayer_startPos. apply Hstart. by eapply list_elem_of_lookup_2.
  - intros p' tok' Hp' Htok' Hst.
    destruct (settleMove_elem_of _ _ _ _ _ _ Hs Hp') as (i & p & Hp & ->).
    apply settledPlayer_token_elem in Htok' as [Hin|[[_ ->]|(tok & _ & ->)]].
    + apply (Hbase p); [by eapply list_elem_of_lookup_2|done|done].
    + by destruct (moveOutcome_facts _ _ _ _ _ Hoc) as (_ & Hnb & _).
    + done.
  - specialize (Hfirst Hover).
    apply settleMove_inv in Hs as (up & next & msg & _ & _ & ->). simpl.
    rewrite Hfirst. destruct (allHome up && negb (Player.hasFinished up)); [|done].
    simpl. by rewrite orb_true_r.
  - specialize (Hfirst Hover). specialize (Hunf Hover).
    apply settleMove_inv in Hs as (up & next & msg & _ & _ & ->). simpl.
    rewrite Hfirst. destruct (allHome up && negb (Player.hasFinished up)).
    { simpl. by rewrite orb_true_r. }
    intros _ p' (i & p & -> & Hp)%elem_of_lookup_imap.
    rewrite applyCaptureAt_hasFinished. apply Hunf. by eapply list_elem_of_lookup_2.
Qed.

Lemma engine_inv_move (s : GameState.t) (tokenId : string) (s' : GameState.t) :
  engine_inv s → moveLocalToken s tokenId = Some s' → engine_inv s'.
Proof.
  intros Hinv Hmove.
  apply moveLocalToken_cases in Hmove
    as [[message ->]|(player & k & token & oc & Hover & Hplayer & _ & Hoc & Hs)].
  - by apply engine_inv_with_message.
  - by eapply engine_inv_settle.
Qed.

Lemma engine_inv_afterRoll (s : GameState.t) (d : Z) (s' : GameState.t) :
  engine_inv s → 1 <= d <= 6 → afterRoll s d = Some s' → engine_inv s'.
Proof.
  intros Hinv Hd Hafter.
  apply afterRoll_cases in Hafter
    as [(Hplayers & Hover & Hfo & _ & Hdice & Hcur)|(_ & only & _ & Hmove)].
  - destruct Hinv as [Hd0 Hcur0 Hstart Hbase Hfirst Hunf].
    constructor; rewrite ?Hplayers, ?Hover, ?Hfo; try done.
    + intros d' Hd'. destruct Hdice as [Hn|Hsome]; rewrite Hd' in *; [done|].
      by injection Hsome as ->.
    + by apply Hcur.
  - eapply engine_inv_move; [|done]. by apply engine_inv_rolled.
Qed.

Lemma engine_inv_roll (s : GameState.t) (w : World) (s' : GameState.t) :
  engine_inv s → world_ok w → run (rollLocalDice s) w = Some s' → engine_inv s'.
Proof.
  intros Hinv Hw Hroll.
  apply rollLocalDice_cases in Hroll as [[message ->]|(_ & _ & Hafter)].
  - by apply engine_inv_with_message.
  - eapply engine_inv_afterRoll; [done| |done].
    specialize (Hw 0%nat). unfold draw_ok in Hw. lia.
Qed.

(** *** The created game *)

Lemma PLAYER_CONFIGS_startPos (cfg : PlayerConfig) :
  cfg ∈ PLAYER_CONFIGS → cfg_startPos cfg ∈ [0; 13; 26; 39].
Proof.
  unfold PLAYER_CONFIGS. rewrite !elem_of_cons, elem_of_nil.
  intros [->|[->|[->|[->|[]]]]]; simpl; tauto.
Qed.

Lemma newPlayer_spec (config : GameConfig) (i : nat) (p : Player.t) :
  newPlayer config i = Some p →
  Player.startPos p ∈ [0; 13; 26; 39] ∧
  Player.tokens p = newTokens (Player.color p) ∧
  Player.hasFinished p = false.
Proof.
  unfold newPlayer. cbv zeta.
  set (color := or_else (playerColors config !! i) (defaultColors !! i)).
  set (found := color ≫= _).
  destruct (match found with Some c => Some c | None => PLAYER_CONFIGS !! i end)
    as [cfg|] eqn:Hcfg; [|done].
  simpl. destruct color as [c|]; [|done]. simpl. intros [= <-]. simpl.
  split; [|done]. apply PLAYER_CONFIGS_startPos.
  destruct found as [c'|] eqn:Hfound.
  - injection Hcfg as ->. subst found. cbn [mbind option_bind] in Hfound.
    apply find_some in Hfound as [Hin _]. by apply list_elem_of_In.
  - by eapply list_elem_of_lookup_2.
Qed.

Lemma createLocalGame_inv (config : GameConfig) (w : World) (s : GameState.t) :
  run (createLocalGame config) w = Some s →
  ∃ players first id message,
    mapM (newPlayer config) (seq 0 (playerCount config)) = Some players ∧
    players !! 0%nat = Some first ∧
    s = GameState.mk id players 0 None false false 0 None false Roll message [] [].
Proof.
  unfold createLocalGame.
  destruct (mapM (newPlayer config) (seq 0 (playerCount config))) as [players|]; [|done].
  simpl. destruct (players !! 0%nat) as [first|] eqn:Hfirst; [|done].
  simpl. intros [= <-]. by eexists players, first, _, _.
Qed.

Lemma created_players (config : GameConfig) (players : list Player.t) (p : Player.t) :
  mapM (newPlayer config) (seq 0 (playerCount config)) = Some players →
  p ∈ players → ∃ i, newPlayer config i = Some p.
Proof.
  intros Hm%mapM_Some_1 [j Hj]%list_elem_of_lookup.
  destruct (Forall2_lookup_r _ _ _ _ _ Hm Hj) as (i & _ & Hi). by exists i.
Qed.

Lemma newTokens_elem (color : string) (tok : Token.t) :
  tok ∈ newTokens color → Token.state tok = BASE ∧ Token.stepsFromStart tok = 0.
Proof.
  unfold newTokens. intros (t & -> & _)%list_elem_of_fmap. done.
Qed.

Lemma engine_inv_created (config : GameConfig) (w : World) (s : GameState.t) :
  run (createLocalGame config) w = Some s → engine_inv s.
Proof.
  intros (players & first & id & message & Hm & Hfirst & ->)%createLocalGame_inv.
  constructor; simpl; try done.
  - by apply lookup_lt_Some in Hfirst.
  - intros p Hp. destruct (created_players _ _ _ Hm Hp) as [i Hi].
    by apply newPlayer_spec in Hi as (? & _).
  - intros p tok Hp Htok _. destruct (created_players _ _ _ Hm Hp) as [i Hi].
    apply newPlayer_spec in Hi as (_ & Htoks & _). rewrite Htoks in Htok.
    by apply newTokens_elem in Htok as [_ ?].
  - intros _ p Hp. destruct (created_players _ _ _ Hm Hp) as [i Hi].
    by apply newPlayer_spec in Hi as (_ & _ & ?).
Qed.

(** Every state of a game satisfies the invariant, whatever tokens the
    caller asks to move. *)
Lemma game_state_inv (allowed : GameState.t → string → Prop) (s : GameState.t) :
  game_state allowed s → engine_inv s.
Proof.
  induction 1 as [config w s _ Hrun|s s' _ IH Hcall|s d only _ IH Hover Hphase Hd _ _].
  - by eapply engine_inv_created.
  - destruct Hcall as [w s' Hw Hroll|tokenId s' _ Hmove].
    + by eapply engine_inv_roll.
    + by eapply engine_inv_move.
  - by apply engine_inv_rolled.
Qed.

(** *** Fair play: only valid moves *)

Lemma fair_inv_players (s s' : GameState.t) :
  GameState.players s' = GameState.players s → fair_inv s → fair_inv s'.
Proof. intros Heq [? ?]. constructor; by rewrite Heq. Qed.

Lemma settledPlayer_ids (gameState : GameState.t) (k : nat) (oc : Outcome)
    (i : nat) (p : Player.t) :
  (i = GameState.currentPlayerIndex gameState →
   Token.id <$> Player.tokens p !! k = Some (Token.id (oc_token oc))) →
  Token.id <$> Player.tokens (settledPlayer gameState k oc i p)
  = Token.id <$> Player.tokens p.
Proof.
  intros Hk. rewrite settledPlayer_tokens. unfold applyCaptureAt.
  destruct (decide (i = GameState.currentPlayerIndex gameState)) as [Heq|Hne]; simpl.
  - rewrite list_fmap_insert. apply list_insert_id.
    rewrite list_lookup_fmap. by apply Hk.
  - destruct (oc_captured oc) as [[ci ct]|]; [|done].
    destruct (decide (i = ci)); [|done]. simpl.
    rewrite (list_fmap_alter Token.id sentToBase id) by by apply Forall_true.
    by apply list_alter_id.
Qed.

(** A token id listed by [getValidMovesLocal] names a movable token;
    ids being distinct, it is the token [moveLocalToken] finds. *)
Lemma valid_token_movable (s : GameState.t) (tokenId : string) (player : Player.t)
    (k : nat) (token : Token.t) :
  valid_token s tokenId →
  GameState.players s !! GameState.currentPlayerIndex s = Some player →
  NoDup (Token.id <$> Player.tokens player) →
  list_find (λ t, Token.id t = tokenId) (Player.tokens player) = Some (k, token) →
  ∃ d, GameState.diceValue s = Some d ∧ d ≠ 0 ∧ movable d token = true.
Proof.
  intros (moves & Hmoves & Hin) Hplayer Hnodup Hfind.
  destruct (list_find_id_Some _ _ _ _ Hfind) as (Hk & Hid & _).
  unfold getValidMovesLocal in Hmoves. rewrite Hplayer in Hmoves.
  destruct (GameState.diceValue s) as [d|]; [|by simplify_eq; inversion Hin].
  destruct (decide (d = 0)); [by simplify_eq; inversion Hin|].
  simpl in Hmoves. injection Hmoves as <-.
  exists d. split; [done|]. split; [done|].
  apply list_elem_of_fmap in Hin as (m & -> & Hm).
  apply list_elem_of_omap in Hm as (x & Hx & Hsome). simpl in Hsome. subst x.
  apply elem_of_lookup_imap in Hx as (j & tok & Heq & Hj).
  destruct (movable d tok) eqn:Hmov; [|done]. injection Heq as ->. simpl in *.
  assert (j = k) as ->.
  { eapply NoDup_lookup; [done| |].
    - rewrite list_lookup_fmap, Hj. done.
    - rewrite list_lookup_fmap, Hk. simpl. by rewrite Hid. }
  congruence.
Qed.

Lemma moveOutcome_bound (s : GameState.t) (playerIndex : nat) (player : Player.t)
    (token : Token.t) (oc : Outcome) (d : Z) :
  moveOutcome s playerIndex player token = Some oc →
  GameState.diceValue s = Some d →
  movable d token = true →
  Token.stepsFromStart (oc_token oc) <= 58.
Proof.
  unfold moveOutcome, movable. cbv zeta. intros Hoc Hd Hmov. rewrite Hd in Hoc.
  unfold BOARD_SIZE, HOME_STRETCH_LENGTH in *. simpl in Hoc.
  destruct (Token.state token); simpl in Hoc.
  - destruct (bool_decide (Some d = Some 6)); [|done]. by injection Hoc as <-.
  - apply bool_decide_eq_true in Hmov.
    destruct (bool_decide (_ = _)); [injection Hoc as <-; simpl; lia|].
    destruct (bool_decide (_ > _)); injection Hoc as <-; simpl; lia.
  - by simpl in Hmov.
Qed.

Lemma fair_inv_settle (s : GameState.t) (tokenId : string) (player : Player.t)
    (k : nat) (token : Token.t) (oc : Outcome) (d : Z) (s' : GameState.t) :
  fair_inv s →
  GameState.players s !! GameState.currentPlayerIndex s = Some player →
  Player.tokens player !! k = Some token →
  moveOutcome s (GameState.currentPlayerIndex s) player token = Some oc →
  GameState.diceValue s = Some d →
  movable d token = true →
  settleMove s tokenId (GameState.currentPlayerIndex s) k oc = Some s' →
  fair_inv s'.
Proof.
  intros [Hbound Hids] Hplayer Hk Hoc Hd Hmov Hs. constructor.
  - intros p' tok' Hp' Htok'.
    destruct (settleMove_elem_of _ _ _ _ _ _ Hs Hp') as (i & p & Hp & ->).
    apply settledPlayer_token_elem in Htok' as [Hin|[[_ ->]|(tok & _ & ->)]].
    + apply (Hbound p); [by eapply list_elem_of_lookup_2|done].
    + by eapply moveOutcome_bound.
    + done.
  - intros p' Hp'.
    destruct (settleMove_elem_of _ _ _ _ _ _ Hs Hp') as (i & p & Hp & ->).
    rewrite settledPlayer_ids.
    + apply Hids. by eapply list_elem_of_lookup_2.
    + intros ->. assert (p = player) as -> by congruence. rewrite Hk. simpl.
      by destruct (moveOutcome_facts _ _ _ _ _ Hoc) as (-> & _).
Qed.

Lemma fair_inv_move (s : GameState.t) (tokenId : string) (s' : GameState.t) :
  fair_inv s → valid_token s tokenId → moveLocalToken s tokenId = Some s' → fair_inv s'.
Proof.
  intros Hfair Hvalid Hmove.
  apply moveLocalToken_cases in Hmove
    as [[message ->]|(player & k & token & oc & Hover & Hplayer & Hfind & Hoc & Hs)].
  - by apply (fair_inv_players s).
  - destruct (valid_token_movable s tokenId player k token) as (d & Hd & _ & Hmov);
      try done.
    { apply (fair_ids s Hfair). by eapply list_elem_of_lookup_2. }
    destruct (list_find_id_Some _ _ _ _ Hfind) as (Hk & _ & _).
    by eapply fair_inv_settle.
Qed.

Lemma fair_inv_afterRoll (s : GameState.t) (d : Z) (s' : GameState.t) :
  fair_inv s → afterRoll s d = Some s' → fair_inv s'.
Proof.
  intros Hfair Hafter.
  apply afterRoll_cases in Hafter as [(Hplayers & _)|(_ & only & Hvalid & Hmove)].
  - by apply (fair_inv_players s).
  - eapply (fair_inv_move (rolledState s d)); [|exists [only]|done].
    + by apply (fair_inv_players s).
    + split; [done|]. simpl. apply list_elem_of_here.
Qed.

Lemma fair_inv_roll (s : GameState.t) (w : World) (s' : GameState.t) :
  fair_inv s → run (rollLocalDice s) w = Some s' → fair_inv s'.
Proof.
  intros Hfair Hroll.
  apply rollLocalDice_cases in Hroll as [[message ->]|(_ & _ & Hafter)].
  - by apply (fair_inv_players s).
  - by eapply fair_inv_afterRoll.
Qed.

Lemma newTokens_ids (color : string) : NoDup (Token.id <$> newTokens color).
Proof.
  unfold newTokens. rewrite <- list_fmap_compose.
  change (NoDup ((λ suffix, color +:+ suffix) <$> ["_0"; "_1"; "_2"; "_3"])).
  apply (NoDup_fmap_2 (String.app color)).
  refine (bool_decide_unpack _ _). by vm_compute.
Qed.

Lemma fair_inv_created (config : GameConfig) (w : World) (s : GameState.t) :
  run (createLocalGame config) w = Some s → fair_inv s.
Proof.
  intros (players & first & id & message & Hm & Hfirst & ->)%createLocalGame_inv.
  constructor; simpl.
  - intros p tok Hp Htok. destruct (created_players _ _ _ Hm Hp) as [i Hi].
    apply newPlayer_spec in Hi as (_ & Htoks & _). rewrite Htoks in Htok.
    apply newTokens_elem in Htok as [_ ->]. done.
  - intros p Hp. destruct (created_players _ _ _ Hm Hp) as [i Hi].
    apply newPlayer_spec in Hi as (_ & -> & _). apply newTokens_ids.
Qed.

Lemma fairly_reachable_inv (s : GameState.t) : fairly_reachable s → fair_inv s.
Proof.
  induction 1 as [config w s _ Hrun|s s' _ IH Hcall|s d only _ IH _ _ _ _ _].
  - by eapply fair_inv_created.
  - destruct Hcall as [w s' Hw Hroll|tokenId s' Hvalid Hmove].
    + by eapply fair_inv_roll.
    + by eapply fair_inv_move.
  - by apply (fair_inv_players s).
Qed.

(** ** Progress of a token *)

Lemma token_at_elem (s : GameState.t) (i t : nat) (tok : Token.t) :
  token_at s i t = Some tok →
  ∃ p, GameState.players s !! i = Some p ∧ p ∈ GameState.players s ∧
       Player.tokens p !! t = Some tok ∧ tok ∈ Player.tokens p.
Proof.
  unfold token_at. destruct (GameState.players s !! i) as [p|] eqn:Hp; [|done].
  simpl. intros Ht. exists p. repeat split; try done; by eapply list_elem_of_lookup_2.
Qed.

Lemma token_at_players (s s' : GameState.t) (i t : nat) :
  GameState.players s' = GameState.players s → token_at s' i t = token_at s i t.
Proof. unfold token_at. by intros ->. Qed.

Lemma moveOutcome_mono (s : GameState.t) (playerIndex : nat) (player : Player.t)
    (token : Token.t) (oc : Outcome) :
  moveOutcome s playerIndex player token = Some oc →
  (Token.state token = BASE → Token.stepsFromStart token = 0) →
  0 <= to_number (GameState.diceValue s) →
  Token.stepsFromStart token <= Token.stepsFromStart (oc_token oc).
Proof.
  unfold moveOutcome. cbv zeta. intros Hoc Hbase Hdice.
  destruct (Token.state token) eqn:Hstate; simpl in Hoc.
  - rewrite Hbase by done.
    destruct (bool_decide (GameState.diceValue s = Some 6)); [|done].
    injection Hoc as <-. done.
  - destruct (bool_decide (_ = _)); [injection Hoc as <-; simpl; lia|].
    destruct (bool_decide (_ > _)); injection Hoc as <-; simpl; lia.
  - done.
Qed.

(** Across one call of [moveLocalToken] a token keeps or increases its
    [stepsFromStart], unless it is an opposing active token that the
    call sends to base. *)
Lemma move_steps (s : GameState.t) (tokenId : string) (s' : GameState.t)
    (i t : nat) (tok tok' : Token.t) :
  engine_inv s →
  moveLocalToken s tokenId = Some s' →
  token_at s i t = Some tok →
  token_at s' i t = Some tok' →
  Token.stepsFromStart tok <= Token.stepsFromStart tok'
  ∨ (i ≠ GameState.currentPlayerIndex s ∧ Token.state tok = ACTIVE ∧ tok' = sentToBase tok).
Proof.
  intros Hinv Hmove Htok Htok'.
  apply moveLocalToken_cases in Hmove
    as [[message ->]|(player & k & token & oc & Hover & Hplayer & Hfind & Hoc & Hs)].
  { left. rewrite (token_at_players s) in Htok' by done. by simplify_eq. }
  destruct (list_find_id_Some _ _ _ _ Hfind) as (Hk & _ & Hlt).
  rewrite (settleMove_token_at _ _ _ _ _ _ Hs Hplayer Hlt) in Htok'.
  destruct (decide (i = _ ∧ t = k)) as [[-> ->]|Hnk].
  - left. injection Htok' as <-.
    assert (tok = token) as ->.
    { unfold token_at in Htok. rewrite Hplayer in Htok. simpl in Htok. congruence. }
    eapply moveOutcome_mono; [done| |].
    + intros Hbase. eapply (inv_base s Hinv player); [|by eapply list_elem_of_lookup_2|done].
      by eapply list_elem_of_lookup_2.
    + destruct (GameState.diceValue s) as [d|] eqn:Hd; simpl; [|done].
      pose proof (inv_dice s Hinv d Hd). lia.
  - destruct (decide (_ ∧ _)) as [[Hne Hcap]|Hncap].
    + right. rewrite Htok in Htok'. injection Htok' as <-.
      destruct (moveOutcome_captured_lt _ _ _ _ _ _ _ Hoc Hcap) as (_ & _ & tok0 & Htok0 & Hact).
      split; [done|]. split; [congruence|done].
    + left. by simplify_eq.
Qed.

Lemma roll_steps (s : GameState.t) (w : World) (s' : GameState.t)
    (i t : nat) (tok tok' : Token.t) :
  engine_inv s →
  world_ok w →
  run (rollLocalDice s) w = Some s' →
  token_at s i t = Some tok →
  token_at s' i t = Some tok' →
  Token.stepsFromStart tok <= Token.stepsFromStart tok'
  ∨ (i ≠ GameState.currentPlayerIndex s ∧ Token.state tok = ACTIVE ∧ tok' = sentToBase tok).
Proof.
  intros Hinv Hw Hroll Htok Htok'.
  apply rollLocalDice_cases in Hroll as [[message ->]|(_ & _ & Hafter)].
  { left. rewrite (token_at_players s) in Htok' by done. by simplify_eq. }
  apply afterRoll_cases in Hafter as [(Hplayers & _)|(_ & only & _ & Hmove)].
  { left. rewrite (token_at_players s) in Htok' by done. by simplify_eq. }
  eapply (move_steps (rolledState s _)); [|done|done|done].
  apply engine_inv_rolled; [done|].
  specialize (Hw 0%nat). unfold draw_ok in Hw. lia.
Qed.

(** C4 (as amended).  From a state of a game to the state after the
    next call ([rollLocalDice] or [moveLocalToken], with any token id) a
    token's [stepsFromStart] does not decrease, except for an opposing
    active token that the call captures, which is reset to base with
    [stepsFromStart = 0]; and in a game whose callers move only tokens
    listed by [getValidMovesLocal] it never exceeds 58. *)
Theorem stepsFromStart_progress (s s' : GameState.t) (i t : nat) (tok tok' : Token.t) :
  reachable s →
  call any_token s s' →
  token_at s i t = Some tok →
  token_at s' i t = Some tok' →
  (Token.stepsFromStart tok <= Token.stepsFromStart tok'
   ∨ (i ≠ GameState.currentPlayerIndex s ∧ Token.state tok = ACTIVE ∧
      Token.state tok' = BASE ∧ Token.stepsFromStart tok' = 0)) ∧
  (fairly_reachable s' → Token.stepsFromStart tok' <= 58).
Proof.
  intros Hreach Hcall Htok Htok'. split.
  - apply game_state_inv in Hreach.
    assert (Token.stepsFromStart tok <= Token.stepsFromStart tok'
            ∨ (i ≠ GameState.currentPlayerIndex s ∧ Token.state tok = ACTIVE ∧
               tok' = sentToBase tok)) as [Hle|(Hne & Hact & ->)].
    { destruct Hcall as [w s' Hw Hroll|tokenId s' _ Hmove].
      - by eapply roll_steps.
      - by eapply move_steps. }
    + by left.
    + right. done.
  - intros Hfair%fairly_reachable_inv.
    apply token_at_elem in Htok' as (p & _ & Hp & _ & Hin).
    by apply (fair_bound s' Hfair p).
Qed.

(** ** Scripted games are games *)

Lemma constWorld_ok (floor6 : Z) : 0 <= floor6 <= 5 → world_ok (constWorld floor6).
Proof. intros H n. exact H. Qed.

Lemma play_reachable (script : list Action) (s s' : GameState.t) :
  reachable s → rolls_ok script → play script s = Some s' → reachable s'.
Proof.
  revert s. induction script as [|a script IH]; intros s Hreach Hok; simpl.
  - by intros [= <-].
  - destruct (act a s) as [s1|] eqn:Hact; [|done]. simpl.
    apply Forall_cons in Hok as [Ha Hok]. apply IH; [|done].
    apply (game_called _ s); [done|].
    destruct a as [floor6|tokenId]; simpl in Hact.
    + eapply call_roll; [|done]. by apply constWorld_ok.
    + by eapply call_move.
Qed.

Lemma initial_reachable : reachable initial_state.
Proof.
  apply (game_created _ (mkGameConfig 2 [] []) (constWorld 0)).
  - by apply constWorld_ok.
  - vm_compute. reflexivity.
Qed.

Lemma rolls_ok_decide (script : list Action) :
  forallb (λ a, match a with
                | DoRoll f => bool_decide (0 <= f <= 5)
                | DoMove _ => true
                end) script = true →
  rolls_ok script.
Proof.
  intros H. apply Forall_forall. intros a Ha.
  rewrite forallb_forall in H. specialize (H a). rewrite <- list_elem_of_In in H.
  specialize (H Ha). destruct a; [|done]. by apply bool_decide_eq_true in H.
Qed.

Lemma scripted_reachable (script : list Action) (s : GameState.t) :
  forallb (λ a, match a with
                | DoRoll f => bool_decide (0 <= f <= 5)
                | DoMove _ => true
                end) script = true →
  play script initial_state = Some s →
  reachable s.
Proof.
  intros Hok Hplay. eapply play_reachable; [apply initial_reachable| |done].
  by apply rolls_ok_decide.
Qed.

(** ** Three sixes in a row *)

Lemma next_unfinished_rolled (s : GameState.t) (d : Z) (r : nat) :
  next_unfinished (rolledState s d) r ↔ next_unfinished s r.
Proof. done. Qed.

(** C5.  On every state whose current player index names a player,
    with the game on and in the roll phase: when two sixes in a row are
    counted ([consecutiveSixes >= 2]) and the draw is a six,
    [rollLocalDice] forfeits the turn.  It returns a state with
    [consecutiveSixes = 0], the dice cleared, [turnPhase = 'roll'] and
    no move applied (players, move history and the other fields are
    those of the input); the current player is the next player in turn
    order that has not finished, finished players being skipped, and
    stays the same only when every player has finished. *)
Theorem third_six_forfeits (s : GameState.t) (w : World) :
  (GameState.currentPlayerIndex s < length (GameState.players s))%nat →
  GameState.gameOver s = false →
  GameState.turnPhase s = Roll →
  2 <= GameState.consecutiveSixes s →
  floor_times6 (random w 0%nat) + 1 = 6 →
  ∃ s', run (rollLocalDice s) w = Some s' ∧
    GameState.consecutiveSixes s' = 0 ∧
    GameState.diceValue s' = None ∧
    GameState.diceRolled s' = false ∧
    GameState.turnPhase s' = Roll ∧
    GameState.hasExtraTurn s' = false ∧
    ((∃ p, p ∈ GameState.players s ∧ Player.hasFinished p = false) →
     next_unfinished s (GameState.currentPlayerIndex s')) ∧
    ((∀ p, p ∈ GameState.players s → Player.hasFinished p = true) →
     GameState.currentPlayerIndex s' = GameState.currentPlayerIndex s) ∧
    GameState.players s' = GameState.players s ∧
    GameState.moveHistory s' = GameState.moveHistory s ∧
    GameState.finishOrder s' = GameState.finishOrder s ∧
    GameState.winner s' = GameState.winner s ∧
    GameState.id s' = GameState.id s ∧
    GameState.gameOver s' = false.
Proof.
  intros Hcur Hover Hphase Hsix Hdraw.
  unfold rollLocalDice. rewrite Hover, Hphase.
  rewrite decide_False by (by intros H; apply H).
  simpl. rewrite Hdraw. unfold afterRoll. cbv zeta.
  replace (bool_decide (6 = 6) && bool_decide (GameState.consecutiveSixes (rolledState s 6) >= 3))
    with true by (symmetry; simpl; apply bool_decide_eq_true_2; lia).
  destruct (getNextPlayerIndex_spec (rolledState s 6)) as (r & Hr & Hlt & Hnext); [done|].
  rewrite Hr. simpl in *.
  destruct (lookup_lt_is_Some_2 _ _ Hcur) as [cur Hcurp].
  destruct (lookup_lt_is_Some_2 _ _ Hlt) as [np Hnp].
  rewrite Hcurp, Hnp. simpl. eexists. split; [done|]. simpl.
  repeat (split; [done|]). split; [|split; [|done]].
  - intros (p & Hp & Hunf). destruct Hnext as [Hnext|[_ Hall]]; [done|].
    by rewrite (Hall p Hp) in Hunf.
  - intros Hall. destruct Hnext as [(j & _ & _ & (p & Hp & Hunf) & _)|[-> _]]; [|done].
    rewrite (Hall p) in Hunf; [done|]. by eapply list_elem_of_lookup_2.
Qed.

(** ** Finishing *)

Lemma move_hasFinished (s : GameState.t) (tokenId : string) (s' : GameState.t)
    (i : nat) (p : Player.t) :
  moveLocalToken s tokenId = Some s' →
  GameState.players s !! i = Some p →
  Player.hasFinished p = true →
  ∃ p', GameState.players s' !! i = Some p' ∧ Player.hasFinished p' = true.
Proof.
  intros Hmove Hp Hfin.
  apply moveLocalToken_cases in Hmove
    as [[message ->]|(player & k & token & oc & _ & _ & _ & _ & Hs)].
  - by exists p.
  - exists (settledPlayer s k oc i p). split.
    + by rewrite (settleMove_players _ _ _ _ _ Hs), Hp.
    + by apply settledPlayer_hasFinished.
Qed.

(** No call clears a finish mark. *)
Lemma call_hasFinished (s s' : GameState.t) (i : nat) (p : Player.t) :
  call any_token s s' →
  GameState.players s !! i = Some p →
  Player.hasFinished p = true →
  ∃ p', GameState.players s' !! i = Some p' ∧ Player.hasFinished p' = true.
Proof.
  intros [w s1 _ Hroll|tokenId s1 _ Hmove] Hp Hfin.
  - apply rollLocalDice_cases in Hroll as [[message ->]|(_ & _ & Hafter)].
    { by exists p. }
    apply afterRoll_cases in Hafter as [(Hplayers & _)|(_ & only & _ & Hmove)].
    { exists p. by rewrite Hplayers. }
    by eapply (move_hasFinished (rolledState s _)).
  - by eapply move_hasFinished.
Qed.

Lemma later_hasFinished (s s' : GameState.t) (i : nat) (p : Player.t) :
  later_state s s' →
  GameState.players s !! i = Some p →
  Player.hasFinished p = true →
  ∃ p', GameState.players s' !! i = Some p' ∧ Player.hasFinished p' = true.
Proof.
  induction 1 as [|s1 s2 _ IH Hcall]; intros Hp Hfin.
  - by exists p.
  - destruct (IH Hp Hfin) as (p1 & Hp1 & Hfin1). by eapply call_hasFinished.
Qed.

Lemma allHome_insert (tokens : list Token.t) (k : nat) (token' : Token.t) (p : Player.t) :
  (∀ j tok, j ≠ k → tokens !! j = Some tok → Token.state tok = HOME) →
  Token.state token' = HOME →
  allHome (with_tokens p (<[k := token']> tokens)) = true.
Proof.
  intros Hothers Hhome. unfold allHome. simpl.
  apply forallb_forall. intros tok Htok.
  apply list_elem_of_In, list_elem_of_lookup in Htok as [j Hj].
  apply bool_decide_eq_true.
  apply list_lookup_insert_Some in Hj as [(_ & <- & _)|[Hne Hj]]; [done|].
  by apply (Hothers j).
Qed.

(** C6.  In a game, a move that takes an active token of the current
    player to step 58 while the player's other tokens are all home, and
    the player is not yet marked finished: in the returned state the
    player has [hasFinished = true], its index is appended to
    [finishOrder], [gameOver = true] and [winner] is the player's index;
    and the mark is still set after any further calls. *)
Theorem fourth_token_home_wins (s : GameState.t) (tokenId : string)
    (player : Player.t) (k : nat) (token : Token.t) (s' : GameState.t) :
  reachable s →
  GameState.gameOver s = false →
  GameState.players s !! GameState.currentPlayerIndex s = Some player →
  list_find (λ t, Token.id t = tokenId) (Player.tokens player) = Some (k, token) →
  Token.state token = ACTIVE →
  Token.stepsFromStart token + to_number (GameState.diceValue s) = 58 →
  (∀ j tok, j ≠ k → Player.tokens player !! j = Some tok → Token.state tok = HOME) →
  Player.hasFinished player = false →
  moveLocalToken s tokenId = Some s' →
  (∃ p', GameState.players s' !! GameState.currentPlayerIndex s = Some p' ∧
         Player.hasFinished p' = true ∧ allHome p' = true) ∧
  GameState.finishOrder s' = (GameState.finishOrder s ++ [GameState.currentPlayerIndex s])%list ∧
  GameState.gameOver s' = true ∧
  GameState.winner s' = Some (GameState.currentPlayerIndex s) ∧
  (∀ s'', later_state s' s'' →
     ∃ p'', GameState.players s'' !! GameState.currentPlayerIndex s = Some p'' ∧
            Player.hasFinished p'' = true).
Proof.
  intros Hinv%game_state_inv Hover Hplayer Hfind Hact Hsteps Hothers Hnot Hmove.
  set (token' := Token.mk (Token.id token) HOME (-1) (-1)
                   (Token.stepsFromStart token + to_number (GameState.diceValue s))).
  assert (∃ msg, moveOutcome s (GameState.currentPlayerIndex s) player token
                 = Some (mkOutcome token' None msg)) as [msg Hoc].
  { unfold moveOutcome. cbv zeta. rewrite Hact. simpl.
    rewrite bool_decide_eq_true_2 by done. by eexists. }
  rewrite (moveLocalToken_settle _ _ _ _ _ _ Hover Hplayer Hfind Hoc) in Hmove.
  pose proof (lookup_lt_Some _ _ _ Hplayer) as Hcur.
  apply settleMove_inv in Hmove as (up & next & msg' & Hup & _ & ->).
  unfold applyCapture in Hup. rewrite list_lookup_imap, Hplayer in Hup.
  simpl in Hup. unfold applyCaptureAt in Hup. rewrite decide_True in Hup by done.
  injection Hup as <-.
  rewrite allHome_insert by done. simpl. rewrite Hnot. simpl.
  rewrite (inv_first s Hinv Hover). simpl. rewrite orb_true_r.
  assert (Hlen : (GameState.currentPlayerIndex s
                  < length (applyCapture s (GameState.currentPlayerIndex s) k token' None))%nat).
  { unfold applyCapture. by rewrite length_imap. }
  split; [|split; [done|split; [done|split; [done|]]]].
  - eexists. split; [by apply list_lookup_insert_eq|]. split; [done|].
    by apply (allHome_insert _ _ _ player).
  - intros s'' Hlater.
    eapply later_hasFinished; [done|by apply list_lookup_insert_eq|done].
Qed.

(** ** Leaving base *)

Lemma start_is_safe (z : Z) : z ∈ [0; 13; 26; 39] → z ∈ SAFE_SQUARES.
Proof.
  unfold SAFE_SQUARES. rewrite !elem_of_cons, !elem_of_nil. tauto.
Qed.

(** C10.  In a game every player's [startPos] is one of 0, 13, 26, 39,
    which are safe squares, so the capture check made when a token
    leaves base finds nothing: the move of a base token onto its start
    cell carries no capture. *)
Theorem leaving_base_never_captures (s : GameState.t) (i : nat) (p : Player.t)
    (token : Token.t) :
  reachable s →
  GameState.players s !! i = Some p →
  Token.state token = BASE →
  Player.startPos p ∈ [0; 13; 26; 39] ∧
  Player.startPos p ∈ SAFE_SQUARES ∧
  checkCapture s i (Player.startPos p) = None ∧
  (GameState.diceValue s = Some 6 →
   ∃ oc, moveOutcome s i p token = Some oc ∧ oc_captured oc = None ∧
         Token.state (oc_token oc) = ACTIVE ∧
         Token.position (oc_token oc) = Player.startPos p ∧
         Token.stepsFromStart (oc_token oc) = 0).
Proof.
  intros Hinv%game_state_inv Hp Hbase.
  assert (Hstart : Player.startPos p ∈ [0; 13; 26; 39]).
  { apply (inv_start s Hinv). by eapply list_elem_of_lookup_2. }
  pose proof (start_is_safe _ Hstart) as Hsafe.
  pose proof (checkCapture_safe s i _ Hsafe) as Hnone.
  repeat split; try done.
  intros Hsix. unfold moveOutcome. cbv zeta. rewrite Hbase, Hsix. simpl.
  eexists. split; [done|]. by simpl.
Qed.

(** ** Rejections *)

(** What [moveLocalToken] does reject: the state is returned with a new
    message when the game is over, when the current player has no token
    with the id, and when the token found is at home or is at base
    without a six. *)
Lemma moveLocalToken_rejects (s : GameState.t) (tokenId : string) (player : Player.t) :
  GameState.players s !! GameState.currentPlayerIndex s = Some player →
  GameState.gameOver s = true
  ∨ list_find (λ t, Token.id t = tokenId) (Player.tokens player) = None
  ∨ (∃ k token,
       list_find (λ t, Token.id t = tokenId) (Player.tokens player) = Some (k, token) ∧
       ¬ permitted s token) →
  ∃ message, moveLocalToken s tokenId = Some (with_message s message).
Proof.
  intros Hplayer Hcase. unfold moveLocalToken.
  destruct (GameState.gameOver s) eqn:Hover; [by eexists|].
  rewrite Hplayer. simpl.
  destruct Hcase as [?|[Hnone|(k & token & Hfind & Hnot)]]; [done| |].
  - rewrite Hnone. by eexists.
  - rewrite Hfind. rewrite (moveOutcome_None _ _ _ _ Hnot). by eexists.
Qed.

Lemma overshoot_reachable : reachable overshoot_state.
Proof. apply (scripted_reachable overshoot_script); by vm_compute. Qed.

Lemma contested_reachable : reachable contested_state.
Proof. apply (scripted_reachable contested_script); by vm_compute. Qed.

Lemma occupied_start_reachable : reachable occupied_start_state.
Proof. apply (scripted_reachable occupied_start_script); by vm_compute. Qed.

Lemma two_sixes_reachable : reachable two_sixes_state.
Proof. apply (scripted_reachable two_sixes_script); by vm_compute. Qed.

Lemma home_run_reachable : reachable home_run_state.
Proof. apply (scripted_reachable home_run_script); by vm_compute. Qed.

Lemma home_run_rolled_reachable : reachable (rolledState home_run_state 1).
Proof.
  apply (game_auto _ _ _ (ValidMove.mk "red_3" 3)).
  - apply home_run_reachable.
  - done.
  - done.
  - lia.
  - intros [? _]. done.
  - by vm_compute.
Qed.

Lemma contested_rolled_reachable : reachable (rolledState contested_state 3).
Proof.
  apply (game_auto _ _ _ (ValidMove.mk "red_0" 0)).
  - apply contested_reachable.
  - done.
  - done.
  - lia.
  - intros [? _]. done.
  - by vm_compute.
Qed.

(** C3: the re-check that [getValidMovesLocal] makes is missing from
    [moveLocalToken].  In [overshoot_state], a state of a game, the
    valid moves are the three base tokens, yet the call for [red_0]
    (57 + 6 > 58) is not rejected: the token is moved to step 63,
    [homeStretchPos = 10], and the move is logged.  In
    [contested_state] no dice value is present and no move is valid, yet
    the call for the active [red_0] is applied as a move of 0 steps: the
    turn passes to player 1 and the move is logged. *)
Theorem moveLocalToken_applies_invalid_moves :
  reachable overshoot_state ∧
  ValidMove.tokenId <$> default [] (getValidMovesLocal overshoot_state)
    = ["red_1"; "red_2"; "red_3"] ∧
  (∃ s', moveLocalToken overshoot_state "red_0" = Some s' ∧
     token_at s' 0 0 = Some (Token.mk "red_0" ACTIVE (-1) 10 63) ∧
     GameState.diceValue s' = None ∧
     GameState.turnPhase s' = Roll ∧
     GameState.moveHistory s'
     = (GameState.moveHistory overshoot_state ++ [MoveRecord.mk 0 "red_0" (Some 6)])%list) ∧
  reachable contested_state ∧
  GameState.diceValue contested_state = None ∧
  getValidMovesLocal contested_state = Some [] ∧
  (∃ s', moveLocalToken contested_state "red_0" = Some s' ∧
     GameState.currentPlayerIndex contested_state = 0%nat ∧
     GameState.currentPlayerIndex s' = 1%nat ∧
     GameState.moveHistory s'
     = (GameState.moveHistory contested_state ++ [MoveRecord.mk 0 "red_0" None])%list).
Proof.
  split; [apply overshoot_reachable|]. split; [by vm_compute|].
  split; [eexists; by vm_compute|].
  split; [apply contested_reachable|]. split; [done|]. split; [done|].
  eexists. by vm_compute.
Qed.

(** ** Board geometry *)

(** C7: the path table has 53 entries, not 52.  The cell the source
    labels 50 sits at index 51 and the cell it labels 51 ("not used in
    standard path") at index 52, so position 52 is mapped to a table
    entry instead of the centre fallback. *)
Theorem pathCoords_has_53_entries :
  length pathCoords = 53%nat ∧
  pathCoords !! 50%nat = Some (mkCoord 14 7) ∧
  pathCoords !! 51%nat = Some (mkCoord 14 6) ∧
  pathCoords !! 52%nat = Some (mkCoord 13 7) ∧
  getBoardCoordinates 52 = mkCoord 13 7 ∧
  getBoardCoordinates 53 = centerFallback.
Proof. repeat split. Qed.

(** What does hold of the table: its first 52 entries are distinct cells
    forming a closed path, and the start offsets and safe squares of the
    rules engine are positions of it. *)
Lemma pathCoords_track :
  NoDup (take 52 pathCoords) ∧
  forallb (λ i : nat, adjacent (getBoardCoordinates (Z.of_nat i))
                        (getBoardCoordinates (Z.of_nat (S i) `mod` 52)))
          (seq 0 52) = true ∧
  cfg_startPos <$> PLAYER_CONFIGS = [0; 13; 26; 39] ∧
  SAFE_SQUARES = [0; 8; 13; 21; 26; 34; 39; 47] ∧
  Forall (λ z, 0 <= z < 52) SAFE_SQUARES.
Proof.
  split; [refine (bool_decide_unpack _ _); by vm_compute|].
  split; [by vm_compute|]. split; [done|]. split; [done|].
  refine (bool_decide_unpack _ _). by vm_compute.
Qed.

(** ** Host calls *)

Lemma createLocalGame_forget_id (config : GameConfig) (w1 w2 : World) :
  forget_id <$> run (createLocalGame config) w1
  = forget_id <$> run (createLocalGame config) w2.
Proof.
  unfold createLocalGame.
  destruct (mapM (newPlayer config) (seq 0 (playerCount config))) as [players|]; [|done].
  simpl. by destruct (players !! 0%nat).
Qed.

Lemma same_dice_tick (w1 w2 : World) : same_dice w1 w2 → same_dice (tick w1) (tick w2).
Proof. intros H n. apply H. Qed.

Lemma same_dice_drawn (w1 w2 : World) : same_dice w1 w2 → same_dice (drawn w1) (drawn w2).
Proof. intros H n. apply (H (S n)). Qed.

Lemma run_bind_lift {A B : Type} (o : option A) (k : A → Eff B) (w : World) :
  run (Eff_bind (lift o) k) w = o ≫= λ a, run (k a) w.
Proof. by destruct o. Qed.

(** [rollLocalDice] returns at once or draws once. *)
Lemma rollLocalDice_shape (s : GameState.t) :
  (∃ r, rollLocalDice s = Ret r) ∨
  rollLocalDice s = MathRandom (λ x, lift (afterRoll s (floor_times6 x + 1))).
Proof.
  unfold rollLocalDice. destruct (GameState.gameOver s); [left; by eexists|].
  destruct (decide _); [left; by eexists|]. by right.
Qed.

Lemma session_same_dice (calls : list Call) (s : GameState.t) (w1 w2 : World) :
  same_dice w1 w2 → run (session calls s) w1 = run (session calls s) w2.
Proof.
  revert s w1 w2. induction calls as [|c calls IH]; intros s w1 w2 Hdice; [done|].
  simpl. destruct c as [|tokenId]; simpl.
  - destruct (rollLocalDice_shape s) as [[r ->]| ->]; simpl.
    + by apply IH.
    + rewrite !run_bind_lift, (Hdice 0%nat).
      destruct (afterRoll s _) as [s'|]; [|done]. simpl.
      by apply IH, same_dice_drawn.
  - rewrite !run_bind_lift. destruct (moveLocalToken s tokenId) as [s'|]; [|done].
    simpl. by apply IH.
Qed.

(** The engine never reads the id: it copies it. *)
Lemma settleMove_forget_id (s : GameState.t) (tokenId : string) (playerIndex k : nat)
    (oc : Outcome) :
  settleMove (forget_id s) tokenId playerIndex k oc
  = forget_id <$> settleMove s tokenId playerIndex k oc.
Proof.
  unfold settleMove. cbv zeta.
  change (applyCapture (forget_id s)) with (applyCapture s).
  change (GameState.players (forget_id s)) with (GameState.players s).
  change (GameState.finishOrder (forget_id s)) with (GameState.finishOrder s).
  change (GameState.hasExtraTurn (forget_id s)) with (GameState.hasExtraTurn s).
  destruct (match oc_captured oc with Some _ => _ | None => _ end) as [message|]; [|done].
  cbn [mbind option_bind].
  destruct (applyCapture s playerIndex k (oc_token oc) (oc_captured oc) !! playerIndex)
    as [up|]; [|done].
  cbn [mbind option_bind].
  set (np := if allHome up && negb (Player.hasFinished up) then _ else _).
  change (getNextPlayerIndex (with_players (forget_id s) np))
    with (getNextPlayerIndex (with_players s np)).
  destruct (if negb _ && negb _ then getNextPlayerIndex (with_players s np) else _)
    as [next|]; [|done].
  cbn [mbind option_bind].
  destruct (if negb _ && negb _ then _ else _) as [m|]; [|done].
  done.
Qed.

Lemma moveLocalToken_forget_id (s : GameState.t) (tokenId : string) :
  moveLocalToken (forget_id s) tokenId = forget_id <$> moveLocalToken s tokenId.
Proof.
  unfold moveLocalToken.
  change (GameState.gameOver (forget_id s)) with (GameState.gameOver s).
  change (GameState.players (forget_id s)) with (GameState.players s).
  change (GameState.currentPlayerIndex (forget_id s)) with (GameState.currentPlayerIndex s).
  destruct (GameState.gameOver s); [done|].
  destruct (GameState.players s !! GameState.currentPlayerIndex s) as [player|]; [|done].
  cbn [mbind option_bind].
  destruct (list_find _ (Player.tokens player)) as [[k token]|]; [|done].
  change (moveOutcome (forget_id s)) with (moveOutcome s).
  destruct (moveOutcome s _ player token) as [oc|]; [|done].
  apply settleMove_forget_id.
Qed.

Lemma afterRoll_forget_id (s : GameState.t) (d : Z) :
  afterRoll (forget_id s) d = forget_id <$> afterRoll s d.
Proof.
  unfold afterRoll. cbv zeta.
  change (rolledState (forget_id s) d) with (forget_id (rolledState s d)).
  change (GameState.currentPlayerIndex (forget_id s)) with (GameState.currentPlayerIndex s).
  change (GameState.players (forget_id s)) with (GameState.players s).
  change (GameState.consecutiveSixes (forget_id (rolledState s d)))
    with (GameState.consecutiveSixes (rolledState s d)).
  change (getNextPlayerIndex (forget_id (rolledState s d)))
    with (getNextPlayerIndex (rolledState s d)).
  change (getValidMovesLocal (forget_id (rolledState s d)))
    with (getValidMovesLocal (rolledState s d)).
  destruct (bool_decide (d = 6) && bool_decide _).
  { destruct (getNextPlayerIndex (rolledState s d)) as [next|]; [|done].
    cbn [mbind option_bind].
    destruct (GameState.players s !! GameState.currentPlayerIndex s); [|done].
    cbn [mbind option_bind]. simpl.
    by destruct (GameState.players s !! next). }
  destruct (getValidMovesLocal (rolledState s d)) as [moves|]; [|done].
  cbn [mbind option_bind].
  destruct moves as [|only [|second rest]].
  - simpl. destruct (bool_decide (d = 6)).
    + by destruct (GameState.players s !! GameState.currentPlayerIndex s).
    + destruct (getNextPlayerIndex (rolledState s d)) as [next|]; [|done].
      cbn [mbind option_bind].
      destruct (GameState.players s !! GameState.currentPlayerIndex s); [|done].
      cbn [mbind option_bind]. by destruct (GameState.players s !! next).
  - apply moveLocalToken_forget_id.
  - simpl. by destruct (GameState.players s !! GameState.currentPlayerIndex s).
Qed.

Lemma session_forget_id (calls : list Call) (s : GameState.t) (w : World) :
  run (session calls (forget_id s)) w = forget_id <$> run (session calls s) w.
Proof.
  revert s w. induction calls as [|c calls IH]; intros s w; [done|].
  simpl. destruct c as [|tokenId]; simpl.
  - unfold rollLocalDice.
    change (GameState.gameOver (forget_id s)) with (GameState.gameOver s).
    change (GameState.turnPhase (forget_id s)) with (GameState.turnPhase s).
    destruct (GameState.gameOver s); [apply (IH (with_message s _))|].
    destruct (decide _); [apply (IH (with_message s _))|].
    simpl. rewrite !run_bind_lift, afterRoll_forget_id.
    destruct (afterRoll s _) as [s'|]; [|done]. simpl. apply IH.
  - rewrite !run_bind_lift, moveLocalToken_forget_id.
    destruct (moveLocalToken s tokenId) as [s'|]; [|done]. simpl. apply IH.
Qed.

Lemma game_same_dice (config : GameConfig) (calls : list Call) (w1 w2 : World) :
  same_dice w1 w2 →
  forget_id <$> run (game config calls) w1 = forget_id <$> run (game config calls) w2.
Proof.
  intros Hdice. unfold game, createLocalGame.
  destruct (mapM (newPlayer config) (seq 0 (playerCount config))) as [players|]; [|done].
  simpl. destruct (players !! 0%nat) as [first|]; [|done]. simpl.
  rewrite <- !session_forget_id. apply session_same_dice.
  by apply same_dice_drawn, same_dice_tick.
Qed.


(** ** Concrete games *)

(** C1, as stated, fails on an overshoot: in [overshoot_state] the
    active token [red_0] has 57 steps and the dice value is 6, so
    [57 + 6] is neither 58 nor between 52 and 58, and the claim's
    "otherwise" case asks for [position = (0 + 63) mod 52 = 11]; the
    move leaves the token off the main track, [position = -1] and
    [homeStretchPos = 10]. *)
Lemma overshoot_leaves_main_track :
  ∃ player token s' token',
    GameState.gameOver overshoot_state = false ∧
    GameState.players overshoot_state !! GameState.currentPlayerIndex overshoot_state
      = Some player ∧
    list_find (λ t, Token.id t = "red_0") (Player.tokens player) = Some (0%nat, token) ∧
    Token.state token = ACTIVE ∧
    Token.stepsFromStart token = 57 ∧
    GameState.diceValue overshoot_state = Some 6 ∧
    moveLocalToken overshoot_state "red_0" = Some s' ∧
    token_at s' 0 0 = Some token' ∧
    Token.stepsFromStart token' = 57 + 6 ∧
    Token.position token' = -1 ∧
    Token.homeStretchPos token' = 10 ∧
    Token.position token' ≠ (Player.startPos player + (57 + 6)) `mod` 52.
Proof.
  eexists _, _, _, _. repeat split; try (by vm_compute).
Qed.

(** The transition theorem at red's roll of a 3 in [contested_state]:
    [red_0] goes from step 11 to step 14 on cell 14. *)
Lemma moveLocalToken_active_transition_witness :
  GameState.diceValue (rolledState contested_state 3) = Some 3 ∧
  ∃ s' token',
    moveLocalToken (rolledState contested_state 3) "red_0" = Some s' ∧
    token_at s' 0 0 = Some token' ∧
    Token.stepsFromStart token' = 14 ∧
    Token.position token' = 14.
Proof.
  split; [reflexivity|].
  destruct (moveLocalToken_active_transition (rolledState contested_state 3) "red_0"
              (redPlayer [Token.mk "red_0" ACTIVE 11 (-1) 11;
                          baseToken "red_1"; baseToken "red_2"; baseToken "red_3"])
              0 (Token.mk "red_0" ACTIVE 11 (-1) 11) 3)
    as (s' & token' & Hmove & Hat & _ & Hsteps & _ & _ & Htrack);
    [reflexivity|reflexivity|reflexivity|reflexivity|reflexivity|simpl; lia|].
  exists s', token'. split; [exact Hmove|]. split; [exact Hat|]. split; [exact Hsteps|].
  destruct Htrack as (_ & Hpos & _); [simpl; lia|]. exact Hpos.
Defined.

(** The capture theorem at the same move: green's token on cell 14 is
    the one captured. *)
Lemma moveLocalToken_capture_witness :
  opposing_on (rolledState contested_state 3) 0 14 1 0 ∧
  ∃ s' captured,
    moveLocalToken (rolledState contested_state 3) "red_0" = Some s' ∧
    is_Some captured ∧
    token_at s' 1 0 =
      (if decide (captured = Some (1%nat, 0%nat))
       then Some (baseToken "green_0") else Some (Token.mk "green_0" ACTIVE 14 (-1) 1)).
Proof.
  assert (Hopp : opposing_on (rolledState contested_state 3) 0 14 1 0).
  { split; [discriminate|]. eexists. split; [reflexivity|]. repeat split. }
  split; [exact Hopp|].
  pose (s' := default initial_state
                (moveLocalToken (rolledState contested_state 3) "red_0")).
  assert (Hmove : moveLocalToken (rolledState contested_state 3) "red_0" = Some s').
  { reflexivity. }
  destruct (moveLocalToken_capture (rolledState contested_state 3) "red_0"
              (redPlayer [Token.mk "red_0" ACTIVE 11 (-1) 11;
                          baseToken "red_1"; baseToken "red_2"; baseToken "red_3"])
              0 (Token.mk "red_0" ACTIVE 11 (-1) 11) s'
              (Token.mk "red_0" ACTIVE 14 (-1) 14) 14)
    as (captured & Hiff & _ & Hat & _);
    [reflexivity|reflexivity|reflexivity|right; reflexivity|exact Hmove
    |reflexivity|reflexivity|lia|].
  exists s', captured. split; [exact Hmove|]. split.
  - apply Hiff. split.
    + intros Hin. apply list_elem_of_In in Hin. simpl in Hin.
      repeat (destruct Hin as [Hin|Hin]; [discriminate Hin|]). exact Hin.
    + exists 1%nat, 0%nat. exact Hopp.
  - rewrite (Hat 1%nat 0%nat). simpl. destruct (decide (captured = Some (1%nat, 0%nat))); reflexivity.
Defined.

(** The same move clears the dice and returns to the roll phase. *)
Lemma moveLocalToken_resets_turn_witness :
  permitted (rolledState contested_state 3) (Token.mk "red_0" ACTIVE 11 (-1) 11) ∧
  ∃ s', moveLocalToken (rolledState contested_state 3) "red_0" = Some s' ∧
        GameState.diceValue s' = None ∧ GameState.turnPhase s' = Roll.
Proof.
  split; [right; reflexivity|].
  destruct (moveLocalToken_resets_turn (rolledState contested_state 3) "red_0"
              (redPlayer [Token.mk "red_0" ACTIVE 11 (-1) 11;
                          baseToken "red_1"; baseToken "red_2"; baseToken "red_3"])
              0 (Token.mk "red_0" ACTIVE 11 (-1) 11))
    as (s' & Hmove & Hdice & _ & Hphase & _);
    [reflexivity|reflexivity|reflexivity|right; reflexivity|].
  exists s'. split; [exact Hmove|]. split; [exact Hdice|exact Hphase].
Defined.

(** C4, as stated, fails on a capture: from [contested_state], a state
    of a game, red's roll of a 3 moves [red_0] onto cell 14 and sends
    green's token there back to base; its [stepsFromStart] drops from 1
    to 0. *)
Lemma capture_resets_stepsFromStart :
  reachable contested_state ∧
  ∃ s' tok tok',
    call any_token contested_state s' ∧
    token_at contested_state 1 0 = Some tok ∧
    token_at s' 1 0 = Some tok' ∧
    Token.stepsFromStart tok = 1 ∧
    Token.stepsFromStart tok' = 0 ∧
    Token.stepsFromStart tok' < Token.stepsFromStart tok.
Proof.
  split; [apply contested_reachable|].
  eexists _, _, _. split.
  { apply (call_roll _ _ (constWorld 2)); [by apply constWorld_ok|]. by vm_compute. }
  repeat split.
Qed.

(** Red's own token only advances over that roll. *)
Lemma stepsFromStart_progress_witness :
  ∃ s' tok',
    call any_token contested_state s' ∧
    token_at s' 0 0 = Some tok' ∧
    (11 <= Token.stepsFromStart tok'
     ∨ Token.state tok' = BASE ∧ Token.stepsFromStart tok' = 0).
Proof.
  pose (s' := default initial_state
                (run (rollLocalDice contested_state) (constWorld 2))).
  assert (Hcall : call any_token contested_state s').
  { apply (call_roll _ _ (constWorld 2)); [apply constWorld_ok; lia|reflexivity]. }
  exists s', (Token.mk "red_0" ACTIVE 14 (-1) 14).
  split; [exact Hcall|]. split; [reflexivity|].
  destruct (stepsFromStart_progress contested_state s' 0 0
              (Token.mk "red_0" ACTIVE 11 (-1) 11) (Token.mk "red_0" ACTIVE 14 (-1) 14)
              contested_reachable Hcall eq_refl eq_refl) as [[Hle|(_ & _ & Hb & Hz)] _].
  - left. exact Hle.
  - right. split; [exact Hb|exact Hz].
Defined.

(** A third six in [skipping_state], where green has finished, hands
    the turn from red (seat 0) to yellow (seat 2): green is skipped. *)
Lemma third_six_forfeits_witness :
  finished_at (GameState.players skipping_state) 1 ∧
  ∃ s', run (rollLocalDice skipping_state) (constWorld 5) = Some s' ∧
        GameState.consecutiveSixes s' = 0 ∧
        GameState.currentPlayerIndex s' = 2%nat ∧
        next_unfinished skipping_state (GameState.currentPlayerIndex s').
Proof.
  split; [eexists; split; reflexivity|].
  destruct (third_six_forfeits skipping_state (constWorld 5))
    as (s' & Hroll & Hsix & _ & _ & _ & _ & Hnext & _);
    [simpl; lia|reflexivity|reflexivity|simpl; lia|reflexivity|].
  exists s'. split; [exact Hroll|]. split; [exact Hsix|]. split.
  - vm_compute in Hroll. injection Hroll as <-. reflexivity.
  - apply Hnext. eexists. split; [apply list_elem_of_here|reflexivity].
Defined.

(** The auto-move of [red_3] on a roll of 1 in [home_run_state] ends
    the game with red as winner. *)
Lemma fourth_token_home_wins_witness :
  ∃ s', moveLocalToken (rolledState home_run_state 1) "red_3" = Some s' ∧
        GameState.gameOver s' = true ∧
        GameState.winner s' = Some 0%nat ∧
        GameState.finishOrder s' = [0%nat].
Proof.
  pose (s' := default initial_state
                (moveLocalToken (rolledState home_run_state 1) "red_3")).
  assert (Hmove : moveLocalToken (rolledState home_run_state 1) "red_3" = Some s').
  { reflexivity. }
  exists s'. split; [exact Hmove|].
  destruct (fourth_token_home_wins (rolledState home_run_state 1) "red_3"
              (redPlayer [homeToken "red_0"; homeToken "red_1"; homeToken "red_2";
                          Token.mk "red_3" ACTIVE (-1) 4 57])
              3 (Token.mk "red_3" ACTIVE (-1) 4 57) s'
              home_run_rolled_reachable)
    as (_ & Horder & Hover & Hwinner & _);
    [reflexivity|reflexivity|reflexivity|reflexivity|reflexivity| |reflexivity|exact Hmove|].
  { intros [|[|[|[|j]]]] tok Hne Hj; simpl in Hj;
      try (injection Hj as <-; reflexivity); [contradiction|discriminate]. }
  split; [exact Hover|]. split; [exact Hwinner|exact Horder].
Defined.



(** Red leaves base onto cell 0 while green's [green_0] stands on it:
    the token is an opposing one in the sense of the capture rule, it
    would be captured on a cell that is not safe, and the check finds
    nothing. *)
Lemma leaving_base_never_captures_witness :
  opposing_on occupied_start_state 0 0 1 0 ∧
  scanPlayers 0 0 (GameState.players occupied_start_state) 0 = Some (1%nat, 0%nat) ∧
  checkCapture occupied_start_state 0 0 = None ∧
  ∃ oc, moveOutcome occupied_start_state 0
          (redPlayer [baseToken "red_0"; baseToken "red_1"; baseToken "red_2";
                      baseToken "red_3"])
          (baseToken "red_0") = Some oc ∧
        oc_captured oc = None ∧ Token.position (oc_token oc) = 0.
Proof.
  split.
  { split; [discriminate|]. eexists. split; [reflexivity|]. repeat split. }
  split; [reflexivity|].
  destruct (leaving_base_never_captures occupied_start_state 0
              (redPlayer [baseToken "red_0"; baseToken "red_1"; baseToken "red_2";
                          baseToken "red_3"])
              (baseToken "red_0") occupied_start_reachable)
    as (_ & _ & Hnone & Hmove); [reflexivity|reflexivity|].
  split; [exact Hnone|].
  destruct (Hmove eq_refl) as (oc & Hoc & Hcap & _ & Hpos & _).
  exists oc. split; [exact Hoc|]. split; [exact Hcap|exact Hpos].
Defined.

(** * Further properties of the engine and of its callers *)

(** ** Fields a move leaves alone *)

Lemma applyCaptureAt_fields (playerIndex k : nat) (token : Token.t)
    (captured : option (nat * nat)) (i : nat) (p : Player.t) :
  let q := applyCaptureAt playerIndex k token captured i p in
  Player.index q = Player.index p ∧ Player.name q = Player.name p ∧
  Player.color q = Player.color p ∧ Player.startPos q = Player.startPos p ∧
  Player.homeEntryPos q = Player.homeEntryPos p.
Proof.
  unfold applyCaptureAt. destruct (decide _); [done|].
  destruct captured as [[ci ct]|]; [|done]. by destruct (decide _).
Qed.

Lemma settledPlayer_fields (s : GameState.t) (k : nat) (oc : Outcome) (i : nat)
    (p : Player.t) :
  let q := settledPlayer s k oc i p in
  Player.index q = Player.index p ∧ Player.name q = Player.name p ∧
  Player.color q = Player.color p ∧ Player.startPos q = Player.startPos p ∧
  Player.homeEntryPos q = Player.homeEntryPos p.
Proof.
  unfold settledPlayer. cbv zeta.
  pose proof (applyCaptureAt_fields (GameState.currentPlayerIndex s) k
                (oc_token oc) (oc_captured oc) i p) as H.
  by destruct (_ && _).
Qed.

(** ** The views of a token's progress *)

Lemma start_range (z : Z) : z ∈ [0; 13; 26; 39] → 0 <= z < 52.
Proof. rewrite !elem_of_cons, elem_of_nil. lia. Qed.

Lemma moveOutcome_located (s : GameState.t) (playerIndex : nat) (player : Player.t)
    (token : Token.t) (oc : Outcome) :
  moveOutcome s playerIndex player token = Some oc →
  0 <= Player.startPos player < 52 →
  0 <= to_number (GameState.diceValue s) →
  located (Player.startPos player) token →
  located (Player.startPos player) (oc_token oc).
Proof.
  unfold moveOutcome, located. cbv zeta. intros Hoc Hstart Hdice Hloc.
  unfold BOARD_SIZE, HOME_STRETCH_LENGTH in Hoc.
  destruct (Token.state token) eqn:Hstate; simpl in Hoc.
  - destruct (bool_decide (GameState.diceValue s = Some 6)); [|done].
    injection Hoc as <-. simpl. destruct Hloc as (_ & Hhs & _).
    split; [done|]. split; [done|].
    split; [done|]. rewrite Z.add_0_r. by rewrite Z.mod_small.
  - destruct Hloc as (Hnn & Hne & Hview).
    case_bool_decide as H58.
    { injection Hoc as <-. simpl. repeat split; lia. }
    case_bool_decide as H52; injection Hoc as <-; simpl.
    + split; [lia|]. split; [done|]. rewrite decide_False by lia. split; lia.
    + split; [lia|]. split; [done|]. rewrite decide_True by lia.
      rewrite decide_True in Hview by lia. destruct Hview as [Hhs _].
      split; [done|]. apply Z.rem_mod_nonneg; lia.
  - done.
Qed.

Lemma sentToBase_located (startPos : Z) (tok : Token.t) : located startPos (sentToBase tok).
Proof. done. Qed.

(** ** Finished players *)

Lemma allHome_true (p : Player.t) :
  allHome p = true ↔ ∀ tok, tok ∈ Player.tokens p → Token.state tok = HOME.
Proof.
  unfold allHome. rewrite forallb_forall. split.
  - intros H tok Htok. eapply bool_decide_eq_true_1, H. by apply list_elem_of_In.
  - intros H tok Htok. apply bool_decide_eq_true_2, H. by apply list_elem_of_In.
Qed.

Lemma allHome_false (p : Player.t) (tok : Token.t) :
  tok ∈ Player.tokens p → Token.state tok ≠ HOME → allHome p = false.
Proof.
  intros Hin Hne. destruct (allHome p) eqn:Hall; [|done].
  rewrite allHome_true in Hall. by destruct (Hne (Hall tok Hin)).
Qed.

Lemma moveOutcome_not_home (s : GameState.t) (playerIndex : nat) (player : Player.t)
    (token : Token.t) (oc : Outcome) :
  moveOutcome s playerIndex player token = Some oc → Token.state token ≠ HOME.
Proof.
  intros Hoc Hhome.
  assert (is_Some (moveOutcome s playerIndex player token)) as Hsome by by eexists.
  apply moveOutcome_is_Some in Hsome as [[Hb _]|Ha]; congruence.
Qed.

(** The finish mark follows the tokens across a settled move. *)
Lemma settledPlayer_finished (s : GameState.t) (player : Player.t) (k : nat)
    (token : Token.t) (oc : Outcome) (i : nat) (p : Player.t) :
  GameState.players s !! GameState.currentPlayerIndex s = Some player →
  Player.tokens player !! k = Some token →
  moveOutcome s (GameState.currentPlayerIndex s) player token = Some oc →
  GameState.players s !! i = Some p →
  Player.hasFinished p = allHome p →
  Player.hasFinished (settledPlayer s k oc i p) = allHome (settledPlayer s k oc i p).
Proof.
  intros Hplayer Hk Hoc Hp Hfin. unfold settledPlayer. cbv zeta.
  destruct (bool_decide (i = GameState.currentPlayerIndex s)) eqn:Hi; simpl.
  - apply bool_decide_eq_true in Hi. subst i.
    assert (p = player) as -> by congruence.
    set (q := applyCaptureAt _ _ _ _ _ _).
    assert (Hq : Player.hasFinished q = Player.hasFinished player)
      by apply applyCaptureAt_hasFinished.
    assert (Hnot : Player.hasFinished player = false).
    { rewrite Hfin. apply (allHome_false _ token); [by eapply list_elem_of_lookup_2|].
      by eapply moveOutcome_not_home. }
    rewrite Hq, Hnot. simpl. destruct (allHome q) eqn:Hall; [done|].
    simpl. by rewrite Hq, Hnot.
  - apply bool_decide_eq_false in Hi. rewrite applyCaptureAt_hasFinished, Hfin.
    unfold applyCaptureAt. rewrite decide_False by done.
    destruct (oc_captured oc) as [[ci ct]|] eqn:Hcap; [|done].
    destruct (decide (i = ci)) as [->|]; [|done].
    destruct (moveOutcome_captured_lt _ _ _ _ _ _ _ Hoc Hcap) as (_ & _ & tok & Htok & Hact).
    unfold token_at in Htok. rewrite Hp in Htok. simpl in Htok.
    rewrite (allHome_false p tok); [|by eapply list_elem_of_lookup_2|congruence].
    symmetry. apply (allHome_false _ (sentToBase tok)); [|done].
    simpl. apply list_elem_of_lookup. exists ct.
    by rewrite list_lookup_alter_eq, Htok.
Qed.

(** ** The second invariant of a game *)

Lemma game_inv_same (s s' : GameState.t) :
  GameState.players s' = GameState.players s →
  0 <= GameState.consecutiveSixes s' <= 2 →
  GameState.winner s' = GameState.winner s →
  GameState.gameOver s' = GameState.gameOver s →
  GameState.finishOrder s' = GameState.finishOrder s →
  game_inv s → game_inv s'.
Proof.
  intros Hp Hsix Hw Hover Hfo [? ? ? ? ? ? ?].
  constructor; rewrite ?Hp, ?Hw, ?Hover, ?Hfo; done.
Qed.

Lemma game_inv_with_message (s : GameState.t) (message : string) :
  game_inv s → game_inv (with_message s message).
Proof. intros [? ? ? ? ? ? ?]. by constructor. Qed.

Lemma game_inv_rolled (s : GameState.t) (d : Z) :
  game_inv s →
  ¬ (d = 6 ∧ GameState.consecutiveSixes s + 1 >= 3) →
  game_inv (rolledState s d).
Proof.
  intros [? ? ? ? ? Hsix ?] Hnot. constructor; simpl; try done.
  destruct (decide (d = 6)); lia.
Qed.

Lemma game_inv_settle (s : GameState.t) (tokenId : string) (player : Player.t)
    (k : nat) (token : Token.t) (oc : Outcome) (s' : GameState.t) :
  engine_inv s →
  game_inv s →
  GameState.gameOver s = false →
  GameState.players s !! GameState.currentPlayerIndex s = Some player →
  Player.tokens player !! k = Some token →
  moveOutcome s (GameState.currentPlayerIndex s) player token = Some oc →
  settleMove s tokenId (GameState.currentPlayerIndex s) k oc = Some s' →
  game_inv s'.
Proof.
  intros Hinv [Hindex Hids Hconfig Hloc Hfin Hsix Hwin] Hover Hplayer Hk Hoc Hs.
  pose proof (settleMove_players _ _ _ _ _ Hs) as Hplayers.
  assert (Hin : ∀ i p, GameState.players s !! i = Some p → p ∈ GameState.players s).
  { intros i p Hp. by eapply list_elem_of_lookup_2. }
  constructor.
  - intros i p' Hp'. rewrite Hplayers in Hp'.
    destruct (GameState.players s !! i) as [p|] eqn:Hp; [|done].
    simpl in Hp'. injection Hp' as <-.
    destruct (settledPlayer_fields s k oc i p) as (-> & _). by apply Hindex.
  - intros p' Hp'. destruct (settleMove_elem_of _ _ _ _ _ _ Hs Hp') as (i & p & Hp & ->).
    destruct (settledPlayer_fields s k oc i p) as (_ & _ & -> & _).
    rewrite settledPlayer_ids; [by eapply Hids, Hin|].
    intros ->. assert (p = player) as -> by congruence. rewrite Hk. simpl.
    by destruct (moveOutcome_facts _ _ _ _ _ Hoc) as (-> & _).
  - intros p' Hp'. destruct (settleMove_elem_of _ _ _ _ _ _ Hs Hp') as (i & p & Hp & ->).
    destruct (settledPlayer_fields s k oc i p) as (_ & _ & Hc & Hst & Hhe).
    destruct (Hconfig p (Hin _ _ Hp)) as (cfg & ? & ? & ? & ?).
    exists cfg. rewrite Hc, Hst, Hhe. done.
  - intros p' tok' Hp' Htok'.
    destruct (settleMove_elem_of _ _ _ _ _ _ Hs Hp') as (i & p & Hp & ->).
    destruct (settledPlayer_fields s k oc i p) as (_ & _ & _ & -> & _).
    apply settledPlayer_token_elem in Htok' as [Htok|[[-> ->]|(tok & _ & ->)]].
    + by eapply Hloc, Htok; eapply Hin.
    + assert (p = player) as -> by congruence.
      eapply moveOutcome_located; [done| | |].
      * apply start_range, (inv_start s Hinv). by eapply Hin.
      * destruct (GameState.diceValue s) as [d|] eqn:Hd; simpl; [|done].
        pose proof (inv_dice s Hinv d Hd). lia.
      * apply Hloc; [by eapply Hin|by eapply list_elem_of_lookup_2].
    + apply sentToBase_located.
  - intros p' Hp'. destruct (settleMove_elem_of _ _ _ _ _ _ Hs Hp') as (i & p & Hp & ->).
    eapply settledPlayer_finished; try done. by eapply Hfin, Hin.
  - apply settleMove_inv in Hs as (up & next & msg & _ & _ & ->). simpl.
    destruct (_ || _); lia.
  - pose proof (lookup_lt_Some _ _ _ Hplayer) as Hcur.
    apply settleMove_inv in Hs as (up & next & msg & Hup & _ & ->). simpl.
    rewrite (inv_first s Hinv Hover).
    destruct (allHome up && negb (Player.hasFinished up)); simpl; [|done].
    rewrite orb_true_r. split; [done|]. split; [done|].
    assert (Hlen : (GameState.currentPlayerIndex s
                    < length (applyCapture s (GameState.currentPlayerIndex s) k
                                (oc_token oc) (oc_captured oc)))%nat).
    { unfold applyCapture. by rewrite length_imap. }
    split.
    { eexists. split; [by apply list_lookup_insert_eq|done]. }
    intros i (p' & Hp' & Hfin').
    destruct (decide (i = GameState.currentPlayerIndex s)) as [|Hne]; [done|].
    rewrite list_lookup_insert_ne in Hp' by done.
    unfold applyCapture in Hp'. rewrite list_lookup_imap in Hp'.
    destruct (GameState.players s !! i) as [p|] eqn:Hp; [|done].
    simpl in Hp'. injection Hp' as <-.
    rewrite applyCaptureAt_hasFinished in Hfin'.
    rewrite (inv_unfinished s Hinv Hover p) in Hfin'; [done|by eapply Hin].
Qed.

Lemma game_inv_move (s : GameState.t) (tokenId : string) (s' : GameState.t) :
  engine_inv s → game_inv s → moveLocalToken s tokenId = Some s' → game_inv s'.
Proof.
  intros Hinv Hg Hmove.
  apply moveLocalToken_cases in Hmove
    as [[message ->]|(player & k & token & oc & Hover & Hplayer & Hfind & Hoc & Hs)].
  - by apply game_inv_with_message.
  - destruct (list_find_id_Some _ _ _ _ Hfind) as (Hk & _ & _).
    by eapply game_inv_settle.
Qed.

Lemma game_inv_afterRoll (s : GameState.t) (d : Z) (s' : GameState.t) :
  engine_inv s → game_inv s → 1 <= d <= 6 → afterRoll s d = Some s' → game_inv s'.
Proof.
  intros Hinv Hg Hd Hafter.
  pose proof (ginv_sixes s Hg) as Hsix.
  destruct (decide (d = 6 ∧ GameState.consecutiveSixes s + 1 >= 3)) as [Hforfeit|Hnot].
  - (* the forfeited turn *)
    unfold afterRoll in Hafter. cbv zeta in Hafter.
    destruct Hforfeit as [-> Hge].
    replace (bool_decide (6 = 6) && bool_decide (GameState.consecutiveSixes (rolledState s 6) >= 3))
      with true in Hafter.
    2:{ symmetry. simpl. by apply bool_decide_eq_true_2. }
    destruct (getNextPlayerIndex (rolledState s 6)); [|done]. simpl in Hafter.
    destruct (GameState.players s !! GameState.currentPlayerIndex s); [|done].
    simpl in Hafter. destruct (GameState.players s !! n); [|done]. simpl in Hafter.
    injection Hafter as <-. apply (game_inv_same s); simpl; done.
  - assert (Hrolled : game_inv (rolledState s d)) by by apply game_inv_rolled.
    pose proof (ginv_sixes _ Hrolled) as Hsix'. simpl in Hsix'.
    unfold afterRoll in Hafter. cbv zeta in Hafter.
    replace (bool_decide (d = 6) && bool_decide (GameState.consecutiveSixes (rolledState s d) >= 3))
      with false in Hafter.
    2:{ symmetry. apply andb_false_iff.
        destruct (decide (d = 6)) as [->|]; [right|left]; apply bool_decide_eq_false_2;
          [simpl; lia|done]. }
    destruct (getValidMovesLocal (rolledState s d)) as [moves|]; [|done]. simpl in Hafter.
    destruct moves as [|only [|another moves]].
    + destruct (bool_decide (d = 6)).
      * destruct (GameState.players s !! GameState.currentPlayerIndex s); [|done].
        simpl in Hafter. injection Hafter as <-. apply (game_inv_same s); simpl; done.
      * destruct (getNextPlayerIndex (rolledState s d)); [|done]. simpl in Hafter.
        destruct (GameState.players s !! GameState.currentPlayerIndex s); [|done].
        simpl in Hafter. destruct (GameState.players s !! n); [|done].
        simpl in Hafter. injection Hafter as <-. apply (game_inv_same s); simpl; done.
    + by eapply (game_inv_move (rolledState s d)); [apply engine_inv_rolled| |].
    + destruct (GameState.players s !! GameState.currentPlayerIndex s); [|done].
      simpl in Hafter. injection Hafter as <-. apply (game_inv_same s); simpl; done.
Qed.

Lemma game_inv_roll (s : GameState.t) (w : World) (s' : GameState.t) :
  engine_inv s → game_inv s → world_ok w → run (rollLocalDice s) w = Some s' → game_inv s'.
Proof.
  intros Hinv Hg Hw Hroll.
  apply rollLocalDice_cases in Hroll as [[message ->]|(_ & _ & Hafter)].
  - by apply game_inv_with_message.
  - eapply game_inv_afterRoll; [done|done| |done].
    specialize (Hw 0%nat). unfold draw_ok in Hw. lia.
Qed.

(** *** The created game *)

Lemma known_color_config (c : string) :
  c ∈ defaultColors →
  ∃ cfg, List.find (λ c', bool_decide (cfg_color c' = c)) PLAYER_CONFIGS = Some cfg.
Proof.
  unfold defaultColors. rewrite !elem_of_cons, elem_of_nil.
  intros [->|[->|[->|[->|[]]]]]; by eexists.
Qed.

Lemma newPlayer_configured (config : GameConfig) (i : nat) (p : Player.t) :
  newPlayer config i = Some p →
  Player.index p = i ∧ configured p ∧
  Player.name p = or_else (playerNames config !! i) (defaultNames !! i) ∧
  Some (Player.color p) = or_else (playerColors config !! i) (defaultColors !! i).
Proof.
  unfold newPlayer. cbv zeta.
  set (color := or_else (playerColors config !! i) (defaultColors !! i)).
  destruct color as [c|] eqn:Hcolor.
  2:{ simpl. by destruct (PLAYER_CONFIGS !! i). }
  cbn [mbind option_bind].
  destruct (List.find _ PLAYER_CONFIGS) as [cfg|] eqn:Hfound.
  - intros [= <-]. simpl. split; [done|]. split; [|done].
    apply find_some in Hfound as [Hin Hc]. apply bool_decide_eq_true in Hc.
    exists cfg. split; [by apply list_elem_of_In|]. done.
  - destruct (PLAYER_CONFIGS !! i) as [cfg|] eqn:Hcfg; [|done].
    intros [= <-]. simpl. split; [done|]. split; [|done].
    exists cfg. split; [by eapply list_elem_of_lookup_2|]. split; [done|]. split; [done|].
    intros Hknown. simpl in Hknown.
    apply known_color_config in Hknown as [cfg' Hcfg']. congruence.
Qed.

Lemma created_lookup (config : GameConfig) (players : list Player.t) (i : nat) (p : Player.t) :
  mapM (newPlayer config) (seq 0 (playerCount config)) = Some players →
  players !! i = Some p → newPlayer config i = Some p ∧ (i < playerCount config)%nat.
Proof.
  intros Hm%mapM_Some_1 Hi.
  destruct (Forall2_lookup_r _ _ _ _ _ Hm Hi) as (j & Hj & Hnew).
  apply lookup_seq in Hj as [-> ?]. done.
Qed.

Lemma newTokens_located (color : string) (startPos : Z) (tok : Token.t) :
  tok ∈ newTokens color → located startPos tok.
Proof. unfold newTokens. by intros (t & -> & _)%list_elem_of_fmap. Qed.

Lemma newTokens_tokenIds (color : string) : Token.id <$> newTokens color = tokenIds color.
Proof. unfold newTokens, tokenIds. by rewrite <- list_fmap_compose. Qed.

Lemma game_inv_created (config : GameConfig) (w : World) (s : GameState.t) :
  run (createLocalGame config) w = Some s → game_inv s.
Proof.
  intros (players & first & id & message & Hm & Hfirst & ->)%createLocalGame_inv.
  constructor; simpl; try done.
  - intros i p Hp. destruct (created_lookup _ _ _ _ Hm Hp) as [Hnew _].
    by apply newPlayer_configured in Hnew as (? & _).
  - intros p Hp. destruct (created_players _ _ _ Hm Hp) as [i Hi].
    apply newPlayer_spec in Hi as (_ & -> & _). apply newTokens_tokenIds.
  - intros p Hp. destruct (created_players _ _ _ Hm Hp) as [i Hi].
    by apply newPlayer_configured in Hi as (_ & ? & _).
  - intros p tok Hp Htok. destruct (created_players _ _ _ Hm Hp) as [i Hi].
    apply newPlayer_spec in Hi as (_ & Htoks & _). rewrite Htoks in Htok.
    by eapply newTokens_located.
  - intros p Hp. destruct (created_players _ _ _ Hm Hp) as [i Hi].
    apply newPlayer_spec in Hi as (_ & Htoks & ->). symmetry.
    apply (allHome_false _ (Token.mk (Player.color p +:+ "_" +:+ pretty 0%nat) BASE (-1) (-1) 0));
      [|done].
    rewrite Htoks. unfold newTokens. simpl. apply list_elem_of_here.
Qed.

Lemma game_state_game_inv (allowed : GameState.t → string → Prop) (s : GameState.t) :
  game_state allowed s → game_inv s.
Proof.
  induction 1 as [config w s _ Hrun|s s' Hs IH Hcall|s d only Hs IH Hover Hphase Hd Hnot _].
  - by eapply game_inv_created.
  - apply game_state_inv in Hs. destruct Hcall as [w s' Hw Hroll|tokenId s' _ Hmove].
    + by eapply game_inv_roll.
    + by eapply game_inv_move.
  - by apply game_inv_rolled.
Qed.

Lemma returned_reachable (s : GameState.t) : returned s → reachable s.
Proof.
  induction 1 as [config w s Hw Hrun|s s' _ IH Hcall].
  - by eapply game_created.
  - by eapply game_called.
Qed.

(** ** What holds of every state of a game *)

Lemma tokenIds_NoDup (color : string) : NoDup (tokenIds color).
Proof. rewrite <- newTokens_tokenIds. apply newTokens_ids. Qed.

Lemma game_tokens_length (s : GameState.t) (p : Player.t) :
  game_inv s → p ∈ GameState.players s → length (Player.tokens p) = 4%nat.
Proof.
  intros Hg Hp. rewrite <- (length_fmap Token.id), (ginv_ids s Hg p Hp). done.
Qed.

Lemma home_run_won_reachable : reachable home_run_won.
Proof.
  eapply game_called; [apply home_run_reachable|].
  apply (call_roll _ _ (constWorld 0)); [by apply constWorld_ok|].
  by vm_compute.
Qed.

(** X1. In every state of a game the current player index names a
    player, the die is [null] or a value from 1 to 6, and the count of
    consecutive sixes is 0, 1 or 2: the third six resets it. *)
Theorem game_counters_in_range (s : GameState.t) :
  reachable s →
  (GameState.currentPlayerIndex s < length (GameState.players s))%nat ∧
  (∀ d, GameState.diceValue s = Some d → 1 <= d <= 6) ∧
  0 <= GameState.consecutiveSixes s <= 2.
Proof.
  intros Hs. pose proof (game_state_inv _ _ Hs) as He.
  pose proof (game_state_game_inv _ _ Hs) as Hg.
  split; [apply He|]. split; [apply He|apply Hg].
Qed.

Lemma game_counters_in_range_witness :
  (GameState.currentPlayerIndex two_sixes_state
   < length (GameState.players two_sixes_state))%nat ∧
  (∀ d, GameState.diceValue two_sixes_state = Some d → 1 <= d <= 6) ∧
  0 <= GameState.consecutiveSixes two_sixes_state <= 2.
Proof. apply (game_counters_in_range two_sixes_state). apply two_sixes_reachable. Defined.

(** X2. In every state of a game, whatever tokens the caller moved, the
    three views of a token's progress agree: a token in base or home has
    [position] and [homeStretchPos] -1 and 0 or 58 steps; an active token
    with at most 52 steps stands on track cell [(startPos + steps) mod 52]
    outside the stretch, and one with more steps is off the track at
    stretch cell [steps - 53].  [position] is always -1 or a track cell. *)
Theorem token_views_agree (s : GameState.t) (p : Player.t) (tok : Token.t) :
  reachable s →
  p ∈ GameState.players s →
  tok ∈ Player.tokens p →
  located (Player.startPos p) tok ∧ -1 <= Token.position tok < 52.
Proof.
  intros Hs Hp Htok.
  pose proof (inv_start s (game_state_inv _ _ Hs) p Hp) as Hstart%start_range.
  pose proof (ginv_located s (game_state_game_inv _ _ Hs) p tok Hp Htok) as Hloc.
  split; [done|].
  unfold located in Hloc. destruct (Token.state tok).
  - lia.
  - destruct Hloc as (H0 & _ & Hloc). case_decide.
    + destruct Hloc as [_ ->].
      pose proof (Z.mod_pos_bound (Player.startPos p + Token.stepsFromStart tok) 52). lia.
    + lia.
  - lia.
Qed.

Lemma token_views_agree_witness :
  located 0 (Token.mk "red_0" ACTIVE (-1) 4 57)
  ∧ -1 <= Token.position (Token.mk "red_0" ACTIVE (-1) 4 57) < 52.
Proof.
  apply (token_views_agree overshoot_state
           (redPlayer [Token.mk "red_0" ACTIVE (-1) 4 57;
                       baseToken "red_1"; baseToken "red_2"; baseToken "red_3"])).
  - apply overshoot_reachable.
  - apply list_elem_of_here.
  - apply list_elem_of_here.
Defined.

Lemma filter_states (l : list Token.t) :
  (length (filter (λ t, Token.state t = BASE) l)
   + length (filter (λ t, Token.state t = ACTIVE) l)
   + length (filter (λ t, Token.state t = HOME) l) = length l)%nat.
Proof.
  induction l as [|tok l IH]; [done|].
  rewrite !filter_cons. destruct (Token.state tok) eqn:Hst.
  - rewrite decide_True by done. rewrite !decide_False by done. simpl. lia.
  - rewrite decide_False by done. rewrite decide_True by done.
    rewrite decide_False by done. simpl. lia.
  - rewrite !decide_False by done. rewrite decide_True by done. simpl. lia.
Qed.

Lemma filter_all (l : list Token.t) :
  length (filter (λ t, Token.state t = HOME) l) = length l
  ↔ ∀ tok, tok ∈ l → Token.state tok = HOME.
Proof.
  induction l as [|tok l IH]; [by split; [intros _ ? ?%elem_of_nil|]|].
  rewrite filter_cons. split.
  - intros Hlen. case_decide as Hst.
    + simpl in Hlen. intros tok' [->|Hin]%elem_of_cons; [done|].
      apply IH; [lia|done].
    + pose proof (length_filter (λ t, Token.state t = HOME) l). simpl in Hlen. lia.
  - intros Hall. rewrite decide_True by (apply Hall; left).
    simpl. f_equal. apply IH. intros tok' Hin. apply Hall. by right.
Qed.

(** X3. In every state of a game each player has four tokens, the three
    counts the player panel shows (in base, active, home) add up to four,
    and the player is marked finished exactly when the panel counts four
    tokens home. *)
Theorem panel_counts (s : GameState.t) (p : Player.t) :
  reachable s →
  p ∈ GameState.players s →
  (PlayerPanel.tokensBase p + PlayerPanel.tokensActive p + PlayerPanel.tokensHome p = 4)%nat ∧
  (Player.hasFinished p = true ↔ PlayerPanel.tokensHome p = 4%nat).
Proof.
  intros Hs Hp. pose proof (game_state_game_inv _ _ Hs) as Hg.
  pose proof (game_tokens_length s p Hg Hp) as Hlen.
  unfold PlayerPanel.tokensBase, PlayerPanel.tokensActive, PlayerPanel.tokensHome.
  split; [by rewrite filter_states|].
  rewrite (ginv_finished s Hg p Hp), allHome_true, <- Hlen. symmetry. apply filter_all.
Qed.

Lemma panel_counts_witness :
  (PlayerPanel.tokensBase
     (redPlayer [homeToken "red_0"; homeToken "red_1"; homeToken "red_2";
                Token.mk "red_3" ACTIVE (-1) 4 57])
   + PlayerPanel.tokensActive
       (redPlayer [homeToken "red_0"; homeToken "red_1"; homeToken "red_2";
                Token.mk "red_3" ACTIVE (-1) 4 57])
   + PlayerPanel.tokensHome
       (redPlayer [homeToken "red_0"; homeToken "red_1"; homeToken "red_2";
                Token.mk "red_3" ACTIVE (-1) 4 57])
   = 4)%nat ∧
  (Player.hasFinished
     (redPlayer [homeToken "red_0"; homeToken "red_1"; homeToken "red_2";
                Token.mk "red_3" ACTIVE (-1) 4 57]) = true
   ↔ PlayerPanel.tokensHome
       (redPlayer [homeToken "red_0"; homeToken "red_1"; homeToken "red_2";
                Token.mk "red_3" ACTIVE (-1) 4 57]) = 4%nat).
Proof.
  apply (panel_counts home_run_state); [apply home_run_reachable|apply list_elem_of_here].
Defined.

(** X4. The end of a game, in every state of a game: [gameOver] is set
    exactly when there is a winner; the winner is then the only entry of
    [finishOrder] and the only player marked finished, so the engine
    never ranks a second player; and while the game is on nobody is
    marked finished and [finishOrder] is empty. *)
Theorem game_over_bookkeeping (s : GameState.t) :
  reachable s →
  (GameState.gameOver s = true ↔ is_Some (GameState.winner s)) ∧
  (∀ w, GameState.winner s = Some w →
        GameState.finishOrder s = [w] ∧
        ∀ i, finished_at (GameState.players s) i ↔ i = w) ∧
  (GameState.gameOver s = false →
   GameState.finishOrder s = [] ∧
   ∀ p, p ∈ GameState.players s → Player.hasFinished p = false).
Proof.
  intros Hs. pose proof (game_state_inv _ _ Hs) as He.
  pose proof (ginv_winner s (game_state_game_inv _ _ Hs)) as Hw.
  split; [|split].
  - destruct (GameState.winner s) as [w|].
    + destruct Hw as (-> & _). split; [by eexists|done].
    + rewrite Hw. split; [done|]. by intros [? ?].
  - intros w Heq. rewrite Heq in Hw. destruct Hw as (_ & Hfo & Hfin & Honly).
    split; [done|]. intros i. split; [apply Honly|by intros ->].
  - intros Hover. split; [by apply He|by apply He].
Qed.

Lemma game_over_bookkeeping_witness :
  (GameState.gameOver home_run_won = true ↔ is_Some (GameState.winner home_run_won)) ∧
  (∀ w, GameState.winner home_run_won = Some w →
        GameState.finishOrder home_run_won = [w] ∧
        ∀ i, finished_at (GameState.players home_run_won) i ↔ i = w) ∧
  (GameState.gameOver home_run_won = false →
   GameState.finishOrder home_run_won = [] ∧
   ∀ p, p ∈ GameState.players home_run_won → Player.hasFinished p = false).
Proof. apply (game_over_bookkeeping home_run_won). apply home_run_won_reachable. Defined.

Lemma PLAYER_CONFIGS_color (cfg cfg' : PlayerConfig) :
  cfg ∈ PLAYER_CONFIGS → cfg' ∈ PLAYER_CONFIGS → cfg_color cfg = cfg_color cfg' → cfg = cfg'.
Proof.
  unfold PLAYER_CONFIGS. rewrite !elem_of_cons, !elem_of_nil.
  intros [->|[->|[->|[->|[]]]]] [->|[->|[->|[->|[]]]]]; simpl; intros Heq;
    first [done|by inversion Heq].
Qed.

Lemma PLAYER_CONFIGS_known (cfg : PlayerConfig) :
  cfg ∈ PLAYER_CONFIGS → cfg_color cfg ∈ defaultColors.
Proof.
  unfold PLAYER_CONFIGS. rewrite !elem_of_cons, !elem_of_nil.
  intros [->|[->|[->|[->|[]]]]]; simpl; unfold defaultColors;
    rewrite !elem_of_cons; auto 10.
Qed.

(** X5. In every state of a game the player at seat [i] carries index
    [i], its four tokens carry the ids [<color>_0] to [<color>_3] in
    order, and, when its colour is that of a row of [PLAYER_CONFIGS],
    its start cell and home-entry cell are those of that row. *)
Theorem player_setup_in_game (s : GameState.t) (i : nat) (p : Player.t) :
  reachable s →
  GameState.players s !! i = Some p →
  Player.index p = i ∧
  Token.id <$> Player.tokens p
  = [Player.color p +:+ "_0"; Player.color p +:+ "_1";
     Player.color p +:+ "_2"; Player.color p +:+ "_3"] ∧
  ∀ cfg, cfg ∈ PLAYER_CONFIGS → cfg_color cfg = Player.color p →
         Player.startPos p = cfg_startPos cfg ∧
         Player.homeEntryPos p = cfg_homeEntryPos cfg.
Proof.
  intros Hs Hp. pose proof (game_state_game_inv _ _ Hs) as Hg.
  assert (Hin : p ∈ GameState.players s) by by eapply list_elem_of_lookup_2.
  split; [by apply Hg|]. split; [by rewrite (ginv_ids s Hg p Hin)|].
  intros cfg Hcfg Hcolor.
  destruct (ginv_config s Hg p Hin) as (cfg0 & Hcfg0 & -> & -> & Hknown).
  assert (cfg0 = cfg) as ->; [|done].
  apply PLAYER_CONFIGS_color; [done..|].
  rewrite Hcolor. apply Hknown. rewrite <- Hcolor. by apply PLAYER_CONFIGS_known.
Qed.

Lemma player_setup_in_game_witness :
  Player.index greenAtBase = 1%nat ∧
  Token.id <$> Player.tokens greenAtBase
  = [Player.color greenAtBase +:+ "_0"; Player.color greenAtBase +:+ "_1";
     Player.color greenAtBase +:+ "_2"; Player.color greenAtBase +:+ "_3"] ∧
  ∀ cfg, cfg ∈ PLAYER_CONFIGS → cfg_color cfg = Player.color greenAtBase →
         Player.startPos greenAtBase = cfg_startPos cfg ∧
         Player.homeEntryPos greenAtBase = cfg_homeEntryPos cfg.
Proof.
  apply (player_setup_in_game overshoot_state 1 greenAtBase);
    [apply overshoot_reachable|reflexivity].
Defined.

(** ** What a call leaves alone *)

Lemma move_identity (s : GameState.t) (tokenId : string) (s' : GameState.t) :
  moveLocalToken s tokenId = Some s' →
  identity <$> GameState.players s' = identity <$> GameState.players s.
Proof.
  intros [[m ->]|(player & k & token & oc & Hover & Hplayer & Hfind & Hoc & Hs)]
    %moveLocalToken_cases; [done|].
  apply list_eq. intros i. rewrite !list_lookup_fmap, (settleMove_players _ _ _ _ _ Hs i).
  destruct (GameState.players s !! i) as [p|] eqn:Hp; [|done]. simpl. f_equal.
  unfold identity.
  destruct (settledPlayer_fields s k oc i p) as (-> & -> & -> & -> & ->).
  rewrite settledPlayer_ids; [done|].
  intros ->. assert (p = player) as -> by congruence.
  apply list_find_id_Some in Hfind as (Hk & _ & _). rewrite Hk. simpl.
  by apply moveOutcome_facts in Hoc as (-> & _).
Qed.

Lemma roll_identity (s : GameState.t) (w : World) (s' : GameState.t) :
  run (rollLocalDice s) w = Some s' →
  identity <$> GameState.players s' = identity <$> GameState.players s.
Proof.
  intros [[m ->]|(_ & _ & Hafter)]%rollLocalDice_cases; [done|].
  apply afterRoll_cases in Hafter as [(-> & _)|(_ & only & _ & Hmove)]; [done|].
  by apply move_identity in Hmove.
Qed.

Lemma move_history (s : GameState.t) (tokenId : string) (s' : GameState.t) :
  moveLocalToken s tokenId = Some s' →
  (GameState.moveHistory s' = GameState.moveHistory s
   ∨ GameState.moveHistory s'
     = (GameState.moveHistory s
        ++ [MoveRecord.mk (GameState.currentPlayerIndex s) tokenId (GameState.diceValue s)])%list)
  ∧ (GameState.finishOrder s' = GameState.finishOrder s
     ∨ GameState.finishOrder s'
       = (GameState.finishOrder s ++ [GameState.currentPlayerIndex s])%list).
Proof.
  intros [[m ->]|(player & k & token & oc & Hover & Hplayer & Hfind & Hoc & Hs)]
    %moveLocalToken_cases; [by split; left|].
  apply settleMove_inv in Hs as (up & next & message & _ & _ & ->). simpl. split; [by right|].
  destruct (allHome up && negb (Player.hasFinished up)); [by right|by left].
Qed.

Lemma call_history (s s' : GameState.t) :
  call any_token s s' →
  GameState.moveHistory s `prefix_of` GameState.moveHistory s' ∧
  GameState.finishOrder s `prefix_of` GameState.finishOrder s'.
Proof.
  assert (Hmove : ∀ s tokenId s', moveLocalToken s tokenId = Some s' →
            GameState.moveHistory s `prefix_of` GameState.moveHistory s' ∧
            GameState.finishOrder s `prefix_of` GameState.finishOrder s').
  { intros s0 tokenId s0' [[->| ->] [->| ->]]%move_history;
      split; first [done|by apply prefix_app_r]. }
  intros [w s1 Hw Hroll|tokenId s1 _ Hm]; [|by eapply Hmove].
  apply rollLocalDice_cases in Hroll as [[m ->]|(_ & _ & Hafter)]; [done|].
  apply afterRoll_cases in Hafter as [(_ & _ & -> & -> & _)|(_ & only & _ & Hm)]; [done|].
  by apply Hmove in Hm.
Qed.

Lemma play_later (script : list Action) (s s' : GameState.t) :
  rolls_ok script → play script s = Some s' → later_state s s'.
Proof.
  revert s'. induction script as [|a script IH] using rev_ind; intros s' Hok; simpl.
  - intros [= <-]. constructor.
  - apply Forall_app in Hok as [Hok Ha%Forall_cons_1].
    assert (Hplay : ∀ l1 l2 x, play (l1 ++ l2) x = play l1 x ≫= play l2).
    { induction l1 as [|b l1 IH1]; intros l2 x; simpl; [done|].
      destruct (act b x); [apply IH1|done]. }
    rewrite Hplay. destruct (play script s) as [s1|] eqn:Hs1; [|done]. simpl.
    destruct (act a s1) as [s2|] eqn:Hact; [|done]. simpl. intros [= <-].
    apply (later_call _ s1); [by apply IH|].
    destruct a as [floor6|tokenId]; simpl in Hact.
    + eapply call_roll; [|done]. apply constWorld_ok. apply Ha.
    + by eapply call_move.
Qed.

(** X6. No call changes who the players are: index, name, colour, start
    cell, home-entry cell and the ids of the tokens, in order, are the
    same after any number of calls, from any state. *)
Theorem players_keep_identity (s s' : GameState.t) :
  later_state s s' →
  identity <$> GameState.players s' = identity <$> GameState.players s.
Proof.
  induction 1 as [|s1 s2 _ IH Hcall]; [done|]. rewrite <- IH.
  destruct Hcall as [w s2 _ Hroll|tokenId s2 _ Hmove];
    [by eapply roll_identity|by eapply move_identity].
Qed.

Lemma players_keep_identity_witness :
  identity <$> GameState.players contested_state
  = identity <$> GameState.players initial_state.
Proof.
  apply (players_keep_identity initial_state contested_state).
  apply (play_later contested_script).
  - apply rolls_ok_decide. reflexivity.
  - reflexivity.
Defined.

(** X7. [moveHistory] and [finishOrder] only grow: after any number of
    calls, from any state, the old lists are prefixes of the new ones. *)
Theorem history_only_grows (s s' : GameState.t) :
  later_state s s' →
  GameState.moveHistory s `prefix_of` GameState.moveHistory s' ∧
  GameState.finishOrder s `prefix_of` GameState.finishOrder s'.
Proof.
  induction 1 as [|s1 s2 _ [IH1 IH2] [H1 H2]%call_history]; [done|].
  split; by etrans.
Qed.

Lemma history_only_grows_witness :
  GameState.moveHistory two_sixes_state `prefix_of` GameState.moveHistory overshoot_state ∧
  GameState.finishOrder two_sixes_state `prefix_of` GameState.finishOrder overshoot_state.
Proof.
  apply (history_only_grows two_sixes_state overshoot_state).
  apply (play_later (drop 4 overshoot_script)).
  - apply rolls_ok_decide. reflexivity.
  - reflexivity.
Defined.

(** X8. Once the game is over no call changes anything but the message:
    every later state equals the final one in all other fields. *)
Theorem game_over_is_final (s s' : GameState.t) :
  GameState.gameOver s = true →
  later_state s s' →
  same_but_message s s'.
Proof.
  intros Hover. induction 1 as [|s1 s2 _ IH Hcall]; [done|].
  assert (Hover1 : GameState.gameOver s1 = true).
  { unfold same_but_message in IH.
    change (GameState.gameOver (with_message s1 "") = true). by rewrite <- IH. }
  unfold same_but_message in *. rewrite IH.
  destruct Hcall as [w s2 _ Hroll|tokenId s2 _ Hmove].
  - unfold rollLocalDice in Hroll. rewrite Hover1 in Hroll. simpl in Hroll.
    by injection Hroll as <-.
  - rewrite moveLocalToken_gameOver in Hmove by done. by injection Hmove as <-.
Qed.

Lemma game_over_is_final_witness :
  same_but_message home_run_won
    (default home_run_won (play [DoRoll 2; DoMove "green_0"] home_run_won)).
Proof.
  apply (game_over_is_final home_run_won).
  - reflexivity.
  - apply (play_later [DoRoll 2; DoMove "green_0"]).
    + apply rolls_ok_decide. reflexivity.
    + reflexivity.
Defined.

(** ** When the engine throws *)

Lemma moveLocalToken_is_Some (s : GameState.t) (tokenId : string) :
  (GameState.currentPlayerIndex s < length (GameState.players s))%nat →
  is_Some (moveLocalToken s tokenId).
Proof.
  intros Hcur. apply lookup_lt_is_Some_2 in Hcur as [player Hplayer].
  unfold moveLocalToken. destruct (GameState.gameOver s) eqn:Hover; [by eexists|].
  rewrite Hplayer. simpl.
  destruct (list_find _ (Player.tokens player)) as [[k token]|] eqn:Hfind; [|by eexists].
  destruct (moveOutcome s _ player token) as [oc|] eqn:Hoc; [|by eexists].
  eapply settleMove_is_Some; [done|].
  intros ci ct Hcap. by eapply moveOutcome_captured_lt in Hcap as (_ & ? & _).
Qed.

Lemma getValidMovesLocal_is_Some (s : GameState.t) :
  (GameState.currentPlayerIndex s < length (GameState.players s))%nat →
  is_Some (getValidMovesLocal s).
Proof.
  intros Hcur. apply lookup_lt_is_Some_2 in Hcur as [player Hplayer].
  unfold getValidMovesLocal. destruct (GameState.diceValue s) as [d|]; [|by eexists].
  case_decide; [by eexists|]. rewrite Hplayer. by eexists.
Qed.

Lemma afterRoll_is_Some (s : GameState.t) (d : Z) :
  (GameState.currentPlayerIndex s < length (GameState.players s))%nat →
  is_Some (afterRoll s d).
Proof.
  intros Hcur.
  destruct (getNextPlayerIndex_spec (rolledState s d) Hcur) as (next & Hnext & Hlt & _).
  pose proof Hcur as [player Hplayer]%lookup_lt_is_Some_2.
  pose proof Hlt as [np Hnp]%lookup_lt_is_Some_2.
  destruct (getValidMovesLocal_is_Some (rolledState s d) Hcur) as [moves Hmoves].
  unfold afterRoll. cbv zeta. rewrite Hnext, Hmoves, Hplayer. simpl in Hnp. simpl.
  rewrite Hnp. simpl.
  destruct (bool_decide (d = 6) && bool_decide _); [by eexists|].
  destruct moves as [|only [|]]; [|by apply moveLocalToken_is_Some|by eexists].
  by destruct (bool_decide (d = 6)); eexists.
Qed.

Lemma afterRoll_None (s : GameState.t) (d : Z) :
  (length (GameState.players s) ≤ GameState.currentPlayerIndex s)%nat →
  afterRoll s d = None.
Proof.
  intros Hcur%lookup_ge_None_2. unfold afterRoll. cbv zeta.
  destruct (bool_decide (d = 6) && bool_decide _).
  { destruct (getNextPlayerIndex (rolledState s d)); simpl; by rewrite ?Hcur. }
  unfold getValidMovesLocal. simpl. destruct (decide (d = 0)) as [->|Hd].
  - simpl. destruct (getNextPlayerIndex (rolledState s 0)); simpl; by rewrite ?Hcur.
  - by rewrite Hcur.
Qed.

Lemma rollLocalDice_run (s : GameState.t) (w : World) :
  GameState.gameOver s = false →
  GameState.turnPhase s = Roll →
  run (rollLocalDice s) w = afterRoll s (floor_times6 (random w 0%nat) + 1).
Proof.
  intros Hover Hphase. unfold rollLocalDice. rewrite Hover.
  rewrite decide_False by (by intros []). simpl.
  by destruct (afterRoll s (floor_times6 (random w 0%nat) + 1)).
Qed.

Lemma rollLocalDice_is_Some (s : GameState.t) (w : World) :
  (GameState.currentPlayerIndex s < length (GameState.players s))%nat →
  is_Some (run (rollLocalDice s) w).
Proof.
  intros Hcur. destruct (GameState.gameOver s) eqn:Hover.
  { unfold rollLocalDice. rewrite Hover. by eexists. }
  destruct (GameState.turnPhase s) eqn:Hphase.
  - rewrite rollLocalDice_run by done. by apply afterRoll_is_Some.
  - unfold rollLocalDice. rewrite Hover, Hphase. by eexists.
Qed.

(** X9. When the engine throws.  All three entry points throw only
    when [currentPlayerIndex] names no player.  [moveLocalToken] then
    throws exactly when the game is not over, for every token id;
    [rollLocalDice] exactly when the game is not over and the phase is
    the roll phase, whatever the draw; [getValidMovesLocal], which does
    not read [gameOver], exactly when a die value other than 0 is set,
    in a finished game too.  In every other case each of them
    returns. *)
Theorem engine_throws_iff (s : GameState.t) (tokenId : string) (w : World) :
  (moveLocalToken s tokenId = None
   ↔ GameState.gameOver s = false
     ∧ (length (GameState.players s) ≤ GameState.currentPlayerIndex s)%nat) ∧
  (run (rollLocalDice s) w = None
   ↔ GameState.gameOver s = false ∧ GameState.turnPhase s = Roll
     ∧ (length (GameState.players s) ≤ GameState.currentPlayerIndex s)%nat) ∧
  (getValidMovesLocal s = None
   ↔ (∃ d, GameState.diceValue s = Some d ∧ d ≠ 0)
     ∧ (length (GameState.players s) ≤ GameState.currentPlayerIndex s)%nat).
Proof.
  destruct (decide (GameState.currentPlayerIndex s < length (GameState.players s))%nat)
    as [Hcur|Hcur].
  - pose proof (moveLocalToken_is_Some s tokenId Hcur) as [? Hm].
    pose proof (getValidMovesLocal_is_Some s Hcur) as [? Hv].
    pose proof (rollLocalDice_is_Some s w Hcur) as [? Hr].
    rewrite Hm, Hr, Hv.
    split; [|split]; (split; [done|]); [intros [_ ?]|intros (_ & _ & ?)|intros [_ ?]]; lia.
  - apply Nat.nlt_ge in Hcur. pose proof Hcur as Hnone%lookup_ge_None_2.
    split; [|split].
    + unfold moveLocalToken. destruct (GameState.gameOver s); [|by rewrite Hnone].
      split; [done|]. by intros [? _].
    + destruct (GameState.gameOver s) eqn:Hover.
      { unfold rollLocalDice. rewrite Hover. split; [done|]. by intros [? _]. }
      destruct (GameState.turnPhase s) eqn:Hphase.
      * rewrite rollLocalDice_run, afterRoll_None by done. done.
      * unfold rollLocalDice. rewrite Hover, Hphase. split; [done|]. by intros (_ & ? & _).
    + unfold getValidMovesLocal. destruct (GameState.diceValue s) as [d|].
      * case_decide as Hd.
        -- split; [done|]. intros [(d' & [= <-] & ?) _]. done.
        -- rewrite Hnone. simpl. split; [|done]. intros _. split; [by exists d|done].
      * split; [done|]. by intros [(d' & ? & _) _].
Qed.

(** X10. Nothing throws in a game: in every state of a game, whatever
    the caller did before, [moveLocalToken] returns for every token id,
    [rollLocalDice] returns for every draw and [getValidMovesLocal]
    returns. *)
Theorem game_never_throws (s : GameState.t) (tokenId : string) (w : World) :
  reachable s →
  is_Some (moveLocalToken s tokenId) ∧
  is_Some (run (rollLocalDice s) w) ∧
  is_Some (getValidMovesLocal s).
Proof.
  intros Hs. pose proof (inv_current s (game_state_inv _ _ Hs)) as Hcur.
  split; [by apply moveLocalToken_is_Some|].
  split; [by apply rollLocalDice_is_Some|by apply getValidMovesLocal_is_Some].
Qed.

Lemma game_never_throws_witness :
  is_Some (moveLocalToken overshoot_state "red_0") ∧
  is_Some (run (rollLocalDice overshoot_state) (constWorld 2)) ∧
  is_Some (getValidMovesLocal overshoot_state).
Proof. apply (game_never_throws overshoot_state). apply overshoot_reachable. Defined.

(** ** Phases and turns *)

Lemma settleMove_phase (s : GameState.t) (tokenId : string) (k : nat) (oc : Outcome)
    (s' : GameState.t) :
  settleMove s tokenId (GameState.currentPlayerIndex s) k oc = Some s' →
  GameState.turnPhase s' = Roll ∧ GameState.diceValue s' = None ∧
  GameState.diceRolled s' = false ∧ GameState.hasExtraTurn s' = false.
Proof. by intros (up & next & message & _ & _ & ->)%settleMove_inv. Qed.

(** The branches of [afterRoll], by what the returned state shows. *)
Lemma afterRoll_branches (s : GameState.t) (d : Z) (s' : GameState.t) :
  afterRoll s d = Some s' →
  (d = 6 ∧ GameState.consecutiveSixes s + 1 >= 3 ∧
   getNextPlayerIndex (rolledState s d) = Some (GameState.currentPlayerIndex s') ∧
   GameState.turnPhase s' = Roll ∧ GameState.diceValue s' = None ∧
   GameState.diceRolled s' = false ∧ GameState.hasExtraTurn s' = false) ∨
  (¬ (d = 6 ∧ GameState.consecutiveSixes s + 1 >= 3) ∧
   ∃ moves, getValidMovesLocal (rolledState s d) = Some moves ∧
     match moves with
     | [] =>
         GameState.turnPhase s' = Roll ∧ GameState.diceValue s' = None ∧
         GameState.diceRolled s' = false ∧ GameState.hasExtraTurn s' = false ∧
         if decide (d = 6)
         then GameState.currentPlayerIndex s' = GameState.currentPlayerIndex s
         else getNextPlayerIndex (rolledState s d) = Some (GameState.currentPlayerIndex s')
     | [only] => moveLocalToken (rolledState s d) (ValidMove.tokenId only) = Some s'
     | _ =>
         GameState.turnPhase s' = Move ∧ GameState.diceValue s' = Some d ∧
         GameState.diceRolled s' = true ∧ GameState.hasExtraTurn s' = bool_decide (d = 6) ∧
         GameState.currentPlayerIndex s' = GameState.currentPlayerIndex s ∧
         GameState.players s' = GameState.players s ∧
         GameState.gameOver s' = GameState.gameOver s
     end).
Proof.
  unfold afterRoll. cbv zeta.
  destruct (bool_decide (d = 6) && bool_decide (GameState.consecutiveSixes (rolledState s d) >= 3))
    eqn:Hforfeit.
  - apply andb_true_iff in Hforfeit as [Hd%bool_decide_eq_true_1 Hc%bool_decide_eq_true_1].
    subst d. simpl in Hc.
    destruct (getNextPlayerIndex (rolledState s 6)) as [next|]; [|done]. simpl.
    destruct (GameState.players s !! GameState.currentPlayerIndex s); [|done]. simpl.
    destruct (GameState.players s !! next); [|done]. simpl.
    intros [= <-]. by left.
  - intros Hafter. right. split.
    { intros [-> Hc]. simpl in Hforfeit. by rewrite bool_decide_eq_true_2 in Hforfeit. }
    destruct (getValidMovesLocal (rolledState s d)) as [moves|]; [|done].
    exists moves. split; [done|]. simpl in Hafter.
    destruct moves as [|only [|second rest]]; [|done|].
    + destruct (decide (d = 6)) as [->|Hd].
      * simpl in Hafter.
        destruct (GameState.players s !! GameState.currentPlayerIndex s); [|done].
        by injection Hafter as <-.
      * rewrite bool_decide_eq_false_2 in Hafter by done.
        destruct (getNextPlayerIndex (rolledState s d)) as [next|]; [|done].
        simpl in Hafter.
        destruct (GameState.players s !! GameState.currentPlayerIndex s); [|done].
        simpl in Hafter. destruct (GameState.players s !! next); [|done].
        by injection Hafter as <-.
    + destruct (GameState.players s !! GameState.currentPlayerIndex s); [|done].
      by injection Hafter as <-.
Qed.

Lemma movable_permitted (s : GameState.t) (d : Z) (token : Token.t) :
  GameState.diceValue s = Some d → movable d token = true → permitted s token.
Proof.
  intros Hd. unfold movable, permitted. destruct (Token.state token); [|by right|done].
  intros ->%bool_decide_eq_true_1. by left.
Qed.

Lemma valid_token_found (s : GameState.t) (tokenId : string) (player : Player.t) :
  valid_token s tokenId →
  GameState.players s !! GameState.currentPlayerIndex s = Some player →
  is_Some (list_find (λ t, Token.id t = tokenId) (Player.tokens player)).
Proof.
  intros (moves & Hmoves & (mv & -> & Hmv)%list_elem_of_fmap) Hplayer.
  unfold getValidMovesLocal in Hmoves. rewrite Hplayer in Hmoves.
  destruct (GameState.diceValue s) as [d|]; [|by injection Hmoves as <-; apply elem_of_nil in Hmv].
  case_decide; [by injection Hmoves as <-; apply elem_of_nil in Hmv|].
  simpl in Hmoves. injection Hmoves as <-.
  apply list_elem_of_omap in Hmv as (x & Hx & Hid). simpl in Hid. subst x.
  apply list_elem_of_lookup in Hx as [i Hi]. rewrite list_lookup_imap in Hi.
  destruct (Player.tokens player !! i) as [tok|] eqn:Htok; [|done].
  simpl in Hi. destruct (movable d tok); [|done]. injection Hi as <-. simpl.
  eapply list_find_elem_of; [by eapply list_elem_of_lookup_2|done].
Qed.

(** A valid move is never rejected. *)
Lemma valid_move_settles (s : GameState.t) (tokenId : string) (s' : GameState.t) :
  game_inv s →
  (GameState.currentPlayerIndex s < length (GameState.players s))%nat →
  GameState.gameOver s = false →
  valid_token s tokenId →
  moveLocalToken s tokenId = Some s' →
  ∃ k oc, settleMove s tokenId (GameState.currentPlayerIndex s) k oc = Some s'.
Proof.
  intros Hg [player Hplayer]%lookup_lt_is_Some_2 Hover Hvalid Hmove.
  destruct (valid_token_found s tokenId player Hvalid Hplayer) as [[k token] Hfind].
  assert (Hin : player ∈ GameState.players s) by by eapply list_elem_of_lookup_2.
  destruct (valid_token_movable s tokenId player k token Hvalid Hplayer) as (d & Hd & _ & Hmov);
    [|done|].
  { rewrite (ginv_ids s Hg player Hin). apply tokenIds_NoDup. }
  destruct (proj2 (moveOutcome_is_Some s (GameState.currentPlayerIndex s) player token))
    as [oc Hoc]; [by eapply movable_permitted|].
  rewrite (moveLocalToken_settle s tokenId player k token oc) in Hmove by done.
  by exists k, oc.
Qed.

Lemma getValidMovesLocal_ext (s s' : GameState.t) :
  GameState.players s' = GameState.players s →
  GameState.currentPlayerIndex s' = GameState.currentPlayerIndex s →
  GameState.diceValue s' = GameState.diceValue s →
  getValidMovesLocal s' = getValidMovesLocal s.
Proof. unfold getValidMovesLocal. by intros -> -> ->. Qed.

Lemma phase_inv_with_message (s : GameState.t) (message : string) :
  phase_inv s → phase_inv (with_message s message).
Proof. done. Qed.

(** X11. Dice and phase go together in every state the engine returns.
    In the roll phase no die is shown and no extra turn is pending.
    The move phase is only entered with the game on, a rolled die and at
    least two valid moves to choose from, the extra-turn flag telling
    whether the die is a six: a roll with one valid move makes it
    itself, a roll with none passes on. *)
Theorem returned_phase (s : GameState.t) :
  returned s → phase_inv s.
Proof.
  induction 1 as [config w s Hw Hcreate|s s' Hret IH Hcall].
  { apply createLocalGame_inv in Hcreate as (players & first & id & message & _ & _ & ->).
    done. }
  pose proof (returned_reachable s Hret) as Hs.
  pose proof (game_state_inv _ _ Hs) as He. pose proof (game_state_game_inv _ _ Hs) as Hg.
  assert (Hsettled : ∀ s0 tokenId k oc,
            settleMove s0 tokenId (GameState.currentPlayerIndex s0) k oc = Some s' →
            phase_inv s').
  { intros s0 tokenId k oc (Hp & ? & ? & ?)%settleMove_phase.
    unfold phase_inv. by rewrite Hp. }
  destruct Hcall as [w s' Hw Hroll|tokenId s' _ Hmove].
  - apply rollLocalDice_cases in Hroll as [[m ->]|(Hover & Hphase & Hafter)]; [done|].
    apply afterRoll_branches in Hafter
      as [(_ & _ & _ & Hp & ? & ? & ?)|(Hnot & moves & Hmoves & Hb)].
    { unfold phase_inv. by rewrite Hp. }
    destruct moves as [|only [|second rest]].
    + destruct Hb as (Hp & ? & ? & ? & _). unfold phase_inv. by rewrite Hp.
    + apply valid_move_settles in Hb as (k & oc & Hsettle).
      * by eapply Hsettled.
      * by apply game_inv_rolled.
      * apply He.
      * done.
      * exists [only]. split; [done|]. simpl. apply list_elem_of_here.
    + destruct Hb as (Hp & Hd & Hr & Hx & Hc & Hpl & Hgo). unfold phase_inv. rewrite Hp.
      split; [congruence|]. split; [done|].
      exists (floor_times6 (random w 0%nat) + 1), (only :: second :: rest).
      split; [done|]. split; [done|]. split; [|simpl; lia].
      rewrite <- Hmoves. by apply getValidMovesLocal_ext.
  - apply moveLocalToken_cases in Hmove
      as [[m ->]|(player & k & token & oc & _ & _ & _ & _ & Hsettle)]; [done|].
    by eapply Hsettled.
Qed.

Lemma returned_phase_witness : phase_inv overshoot_state.
Proof.
  apply (returned_phase overshoot_state).
  assert (Hplay : ∀ script s s', returned s → rolls_ok script →
            play script s = Some s' → returned s').
  { induction script as [|a script IH]; intros s s' Hs Hok; simpl.
    - by intros [= <-].
    - destruct (act a s) as [s1|] eqn:Hact; [|done]. simpl.
      apply Forall_cons in Hok as [Ha Hok]. apply IH; [|done].
      apply (returned_called s); [done|].
      destruct a as [floor6|tokenId]; simpl in Hact.
      + eapply call_roll; [|done]. by apply constWorld_ok.
      + by eapply call_move. }
  apply (Hplay overshoot_script initial_state).
  - apply (returned_created (mkGameConfig 2 [] []) (constWorld 0)).
    + by apply constWorld_ok.
    + reflexivity.
  - apply rolls_ok_decide. reflexivity.
  - reflexivity.
Defined.

Lemma getNextPlayerIndex_unfinished (s : GameState.t) :
  (GameState.currentPlayerIndex s < length (GameState.players s))%nat →
  (∀ p, p ∈ GameState.players s → Player.hasFinished p = false) →
  getNextPlayerIndex s
  = Some ((GameState.currentPlayerIndex s + 1) `mod` length (GameState.players s))%nat.
Proof.
  intros Hcur Hun.
  assert (Hnot : ∀ i, ¬ finished_at (GameState.players s) i).
  { intros i (p & Hp & Hfin). rewrite (Hun p) in Hfin; [done|].
    by eapply list_elem_of_lookup_2. }
  destruct (getNextPlayerIndex_spec s Hcur) as (r & -> & _ & [Hnext|[_ Hall]]).
  - destruct Hnext as (j & _ & -> & _ & Hbefore). destruct j as [|j].
    + by rewrite Nat.add_0_r.
    + destruct (Hnot _ (Hbefore 0%nat ltac:(lia))).
  - apply lookup_lt_is_Some_2 in Hcur as [p Hp].
    assert (Hin : p ∈ GameState.players s) by by eapply list_elem_of_lookup_2.
    specialize (Hall p Hin). by rewrite (Hun p Hin) in Hall.
Qed.

Lemma move_turn (s : GameState.t) (tokenId : string) (s' : GameState.t) :
  reachable s →
  moveLocalToken s tokenId = Some s' →
  GameState.currentPlayerIndex s' = GameState.currentPlayerIndex s
  ∨ GameState.currentPlayerIndex s'
    = ((GameState.currentPlayerIndex s + 1) `mod` length (GameState.players s))%nat.
Proof.
  intros Hs Hmove.
  assert (Hs' : reachable s').
  { eapply game_called; [done|]. by eapply call_move. }
  pose proof (game_state_inv _ _ Hs') as He'.
  pose proof (inv_current s (game_state_inv _ _ Hs)) as Hcur.
  apply moveLocalToken_cases in Hmove
    as [[m ->]|(player & k & token & oc & _ & _ & _ & _ & Hsettle)]; [by left|].
  pose proof (settleMove_length _ _ _ _ _ Hsettle) as Hlen.
  pose proof (settleMove_inv _ _ _ _ _ Hsettle) as (up & next & msg & _ & Hnext & Heq).
  cbv zeta in Hnext, Heq.
  pose proof (f_equal GameState.players Heq) as Hpl.
  pose proof (f_equal GameState.gameOver Heq) as Hgo.
  pose proof (f_equal GameState.currentPlayerIndex Heq) as Hc.
  simpl in Hpl, Hgo, Hc. rewrite <- Hgo, <- Hpl in Hnext. rewrite Hc. clear Heq Hpl Hgo Hc.
  destruct (negb (GameState.gameOver s') && negb _) eqn:Hcond; [|by left].
  right. apply andb_true_iff in Hcond as [Hover%negb_true_iff _].
  rewrite getNextPlayerIndex_unfinished in Hnext.
  - simpl in Hnext. rewrite Hlen in Hnext. by injection Hnext as <-.
  - simpl. by rewrite Hlen.
  - simpl. by apply He'.
Qed.

(** X12. Turns move one seat at a time while the game is played: in a
    game, a call of [rollLocalDice] or [moveLocalToken] leaves the
    current player in place or hands the turn to the next seat, wrapping
    around.  (Nobody is skipped: no player finishes before the game
    ends.) *)
Theorem turn_stays_or_passes (s s' : GameState.t) :
  reachable s →
  call any_token s s' →
  GameState.currentPlayerIndex s' = GameState.currentPlayerIndex s
  ∨ GameState.currentPlayerIndex s'
    = ((GameState.currentPlayerIndex s + 1) `mod` length (GameState.players s))%nat.
Proof.
  intros Hs [w s1 Hw Hroll|tokenId s1 _ Hmove]; [|by eapply move_turn].
  pose proof (game_state_inv _ _ Hs) as He.
  apply rollLocalDice_cases in Hroll as [[m ->]|(Hover & Hphase & Hafter)]; [by left|].
  assert (Hnext : getNextPlayerIndex (rolledState s (floor_times6 (random w 0%nat) + 1))
                  = Some ((GameState.currentPlayerIndex s + 1)
                          `mod` length (GameState.players s))%nat).
  { apply (getNextPlayerIndex_unfinished (rolledState s _)); [apply He|].
    by apply (inv_unfinished s He). }
  apply afterRoll_branches in Hafter
    as [(_ & _ & Hn & _)|(Hnot & moves & Hmoves & Hb)].
  { right. congruence. }
  destruct moves as [|only [|second rest]].
  - destruct Hb as (_ & _ & _ & _ & Hb). case_decide; [by left|right; congruence].
  - apply (move_turn (rolledState s _)) in Hb; [done|].
    eapply game_auto; try done. specialize (Hw 0%nat). unfold draw_ok in Hw. lia.
  - left. apply Hb.
Qed.

Lemma turn_stays_or_passes_witness :
  GameState.currentPlayerIndex contested_state
  = GameState.currentPlayerIndex
      (default initial_state (play (take 7 contested_script) initial_state))
  ∨ GameState.currentPlayerIndex contested_state
    = ((GameState.currentPlayerIndex
          (default initial_state (play (take 7 contested_script) initial_state)) + 1)
       `mod` length (GameState.players
                       (default initial_state (play (take 7 contested_script) initial_state))))%nat.
Proof.
  apply (turn_stays_or_passes
           (default initial_state (play (take 7 contested_script) initial_state))
           contested_state).
  - apply (scripted_reachable (take 7 contested_script)); vm_compute; reflexivity.
  - apply (call_roll _ _ (constWorld 0)); [by apply constWorld_ok|vm_compute; reflexivity].
Defined.

(** X13. A six that is not the third in a row keeps the turn: in a
    game that is on, in the roll phase and with fewer than two sixes
    counted, a roll of 6 leaves the current player in place, whether
    the engine then waits for a choice, moves the only movable token
    itself, or finds no move. *)
Theorem six_keeps_turn (s : GameState.t) (w : World) (s' : GameState.t) :
  reachable s →
  GameState.gameOver s = false →
  GameState.turnPhase s = Roll →
  GameState.consecutiveSixes s < 2 →
  floor_times6 (random w 0%nat) = 5 →
  run (rollLocalDice s) w = Some s' →
  GameState.currentPlayerIndex s' = GameState.currentPlayerIndex s.
Proof.
  intros Hs Hover Hphase Hsix Hdraw Hroll.
  rewrite rollLocalDice_run, Hdraw in Hroll by done. change (5 + 1) with 6 in Hroll.
  apply afterRoll_branches in Hroll as [(_ & ? & _)|(_ & moves & Hmoves & Hb)]; [lia|].
  destruct moves as [|only [|second rest]].
  - by destruct Hb as (_ & _ & _ & _ & Hb).
  - apply moveLocalToken_cases in Hb
      as [[m ->]|(player & k & token & oc & _ & _ & _ & _ & Hsettle)]; [done|].
    apply settleMove_inv in Hsettle as (up & next & msg & _ & Hnext & ->).
    cbv zeta in Hnext. simpl in Hnext. rewrite andb_false_r in Hnext. by subst next.
  - apply Hb.
Qed.

Lemma six_keeps_turn_witness :
  GameState.currentPlayerIndex
    (default initial_state (run (rollLocalDice contested_state) (constWorld 5)))
  = GameState.currentPlayerIndex contested_state.
Proof.
  apply (six_keeps_turn contested_state (constWorld 5)).
  - apply contested_reachable.
  - reflexivity.
  - reflexivity.
  - reflexivity.
  - reflexivity.
  - vm_compute. reflexivity.
Defined.

(** ** The created game *)

Lemma newPlayer_is_Some (config : GameConfig) (i : nat) :
  (i < 4)%nat → is_Some (newPlayer config i).
Proof.
  intros Hi. unfold newPlayer.
  assert (is_Some (defaultColors !! i)) as [c0 Hc0] by (by apply lookup_lt_is_Some_2).
  assert (is_Some (PLAYER_CONFIGS !! i)) as [cfg0 Hcfg0] by (by apply lookup_lt_is_Some_2).
  assert (is_Some (or_else (playerColors config !! i) (defaultColors !! i))) as [c Hc].
  { rewrite Hc0. unfold or_else. destruct (playerColors config !! i); [|by eexists].
    case_decide; by eexists. }
  rewrite Hc, Hcfg0. cbn [mbind option_bind].
  by destruct (List.find _ PLAYER_CONFIGS); eexists.
Qed.

Lemma newPlayer_None (config : GameConfig) (i : nat) :
  (4 ≤ i)%nat →
  (∀ c, playerColors config !! i = Some c → c ∉ defaultColors) →
  newPlayer config i = None.
Proof.
  intros Hi Hunknown. unfold newPlayer.
  rewrite (lookup_ge_None_2 defaultColors i), (lookup_ge_None_2 PLAYER_CONFIGS i) by done.
  destruct (playerColors config !! i) as [c|]; [|done].
  specialize (Hunknown c eq_refl). unfold or_else. case_decide; [done|].
  cbn [mbind option_bind].
  destruct (List.find _ PLAYER_CONFIGS) as [cfg|] eqn:Hfind; [|done].
  apply find_some in Hfind as [Hin%list_elem_of_In Hcolor%bool_decide_eq_true_1].
  destruct Hunknown. rewrite <- Hcolor. by apply PLAYER_CONFIGS_known.
Qed.

Lemma newPlayer_fields (config : GameConfig) (i : nat) (p : Player.t) :
  newPlayer config i = Some p →
  Player.tokens p = baseToken <$> tokenIds (Player.color p) ∧
  Player.hasFinished p = false ∧ Player.finishOrder p = -1.
Proof.
  unfold newPlayer.
  destruct (or_else (playerColors config !! i) (defaultColors !! i)) as [c|];
    cbn [mbind option_bind].
  - destruct (List.find (λ c', bool_decide (cfg_color c' = c)) PLAYER_CONFIGS) as [cfg|];
      cbn [mbind option_bind]; [by intros [= <-]|].
    destruct (PLAYER_CONFIGS !! i); cbn [mbind option_bind]; [|done]. by intros [= <-].
  - by destruct (PLAYER_CONFIGS !! i).
Qed.

(** X14. With one to four players [createLocalGame] returns a game,
    whatever names and colours are passed: it has exactly the requested
    number of players, the first one to roll, no die, no winner and
    empty histories; the player at seat [i] has index [i], the passed
    name and colour or, where none (or an empty one) is passed, the
    default of its seat, and four tokens in base with ids [<color>_0]
    to [<color>_3]. *)
Theorem createLocalGame_shape (config : GameConfig) (w : World) :
  (1 ≤ playerCount config ≤ 4)%nat →
  ∃ s, run (createLocalGame config) w = Some s ∧
    length (GameState.players s) = playerCount config ∧
    GameState.currentPlayerIndex s = 0%nat ∧
    GameState.turnPhase s = Roll ∧
    GameState.diceValue s = None ∧
    GameState.consecutiveSixes s = 0 ∧
    GameState.winner s = None ∧ GameState.gameOver s = false ∧
    GameState.moveHistory s = [] ∧ GameState.finishOrder s = [] ∧
    ∀ i p, GameState.players s !! i = Some p →
      Player.index p = i ∧
      Player.name p = or_else (playerNames config !! i) (defaultNames !! i) ∧
      Some (Player.color p) = or_else (playerColors config !! i) (defaultColors !! i) ∧
      Player.tokens p = baseToken <$> tokenIds (Player.color p) ∧
      Player.hasFinished p = false ∧ Player.finishOrder p = -1.
Proof.
  intros Hcount.
  assert (is_Some (mapM (newPlayer config) (seq 0 (playerCount config)))) as [players Hplayers].
  { apply mapM_is_Some, Forall_forall. intros i [_ Hi]%elem_of_seq. simpl.
    apply newPlayer_is_Some. lia. }
  pose proof (length_mapM _ _ _ Hplayers) as Hlen. rewrite length_seq in Hlen.
  assert (is_Some (players !! 0%nat)) as [first Hfirst] by (apply lookup_lt_is_Some_2; lia).
  eexists. split.
  { unfold createLocalGame. rewrite Hplayers. simpl. rewrite Hfirst. reflexivity. }
  simpl. repeat (split; [done|]).
  intros i p Hp. destruct (created_lookup _ _ _ _ Hplayers Hp) as [Hnew _].
  destruct (newPlayer_configured _ _ _ Hnew) as (? & _ & ? & ?).
  by destruct (newPlayer_fields _ _ _ Hnew) as (? & ? & ?).
Qed.

Lemma createLocalGame_shape_witness :
  ∃ s, run (createLocalGame (mkGameConfig 3 ["Ann"] ["blue"; ""; "red"])) (constWorld 0)
       = Some s ∧
    length (GameState.players s) = 3%nat ∧
    GameState.currentPlayerIndex s = 0%nat ∧
    GameState.turnPhase s = Roll ∧
    GameState.diceValue s = None ∧
    GameState.consecutiveSixes s = 0 ∧
    GameState.winner s = None ∧ GameState.gameOver s = false ∧
    GameState.moveHistory s = [] ∧ GameState.finishOrder s = [] ∧
    ∀ i p, GameState.players s !! i = Some p →
      Player.index p = i ∧
      Player.name p = or_else (["Ann"] !! i) (defaultNames !! i) ∧
      Some (Player.color p) = or_else (["blue"; ""; "red"] !! i) (defaultColors !! i) ∧
      Player.tokens p = baseToken <$> tokenIds (Player.color p) ∧
      Player.hasFinished p = false ∧ Player.finishOrder p = -1.
Proof.
  apply (createLocalGame_shape (mkGameConfig 3 ["Ann"] ["blue"; ""; "red"]) (constWorld 0)).
  simpl. lia.
Defined.

(** X15. [createLocalGame] does not clamp the player count.  It throws
    for zero players (the message reads the first player's name), and it
    throws when some seat from the fifth on is asked for without one of
    the four colour names passed for it: no default colour and no row of
    [PLAYER_CONFIGS] exist for such a seat. *)
Theorem createLocalGame_throws (config : GameConfig) (w : World) :
  playerCount config = 0%nat
  ∨ (∃ i, (4 ≤ i < playerCount config)%nat ∧
          ∀ c, playerColors config !! i = Some c → c ∉ defaultColors) →
  run (createLocalGame config) w = None.
Proof.
  intros [Hzero|(i & Hi & Hunknown)]; unfold createLocalGame.
  - by rewrite Hzero.
  - destruct (mapM (newPlayer config) (seq 0 (playerCount config))) as [players|] eqn:Hplayers;
      [|done].
    pose proof (length_mapM _ _ _ Hplayers) as Hlen. rewrite length_seq in Hlen.
    assert (is_Some (players !! i)) as [p Hp] by (apply lookup_lt_is_Some_2; lia).
    destruct (created_lookup _ _ _ _ Hplayers Hp) as [Hnew _].
    rewrite newPlayer_None in Hnew; [done|lia|done].
Qed.

Lemma createLocalGame_throws_witness :
  run (createLocalGame (mkGameConfig 5 [] ["red"; "green"; "yellow"; "blue"; "purple"]))
      (constWorld 0) = None.
Proof.
  apply (createLocalGame_throws
           (mkGameConfig 5 [] ["red"; "green"; "yellow"; "blue"; "purple"]) (constWorld 0)).
  right. exists 4%nat. split; [simpl; lia|].
  intros c [= <-]. unfold defaultColors. rewrite !elem_of_cons, elem_of_nil.
  intros [H|[H|[H|[H|[]]]]]; discriminate H.
Defined.

(** ** Valid moves *)

Lemma movable_spec (d : Z) (token : Token.t) :
  movable d token = true
  ↔ (Token.state token = BASE ∧ d = 6)
    ∨ (Token.state token = ACTIVE ∧ Token.stepsFromStart token + d <= 58).
Proof.
  unfold movable. destruct (Token.state token); simpl.
  - rewrite bool_decide_eq_true. split; [by left|]. by intros [[_ ?]|[? _]].
  - rewrite bool_decide_eq_true. unfold BOARD_SIZE, HOME_STRETCH_LENGTH.
    split; [by right|]. by intros [[? _]|[_ ?]].
  - split; [done|]. by intros [[? _]|[? _]].
Qed.

Lemma validMoves_length (d : Z) (g : nat → nat) (tokens : list Token.t) :
  length (omap id (imap (λ index token,
            if movable d token
            then Some (ValidMove.mk (Token.id token) (g index)) else None) tokens))
  = length (filter (λ token, movable d token = true) tokens).
Proof.
  revert g. induction tokens as [|token tokens IH]; intros g; [done|].
  rewrite imap_cons, filter_cons. simpl.
  pose proof (IH (g ∘ S)) as IH'. unfold compose in *.
  destruct (movable d token); simpl.
  - f_equal. apply IH'.
  - apply IH'.
Qed.

(** X16. With a die value [d] other than 0 set and a current player,
    [getValidMovesLocal] lists exactly the current player's movable
    tokens, each with its id and its index: the tokens in base when [d]
    is 6, and the active tokens that [d] does not take past step 58.
    The list has one entry per movable token. *)
Theorem getValidMovesLocal_spec (s : GameState.t) (player : Player.t) (d : Z) :
  GameState.players s !! GameState.currentPlayerIndex s = Some player →
  GameState.diceValue s = Some d →
  d ≠ 0 →
  ∃ moves, getValidMovesLocal s = Some moves ∧
    (∀ mv, mv ∈ moves ↔
       ∃ token, Player.tokens player !! ValidMove.tokenIndex mv = Some token ∧
                ValidMove.tokenId mv = Token.id token ∧
                ((Token.state token = BASE ∧ d = 6)
                 ∨ (Token.state token = ACTIVE ∧ Token.stepsFromStart token + d <= 58))) ∧
    length moves = length (filter (λ token, movable d token = true) (Player.tokens player)).
Proof.
  intros Hplayer Hd Hd0. unfold getValidMovesLocal. rewrite Hplayer, Hd.
  rewrite decide_False by done. simpl. eexists. split; [done|]. split.
  - intros mv. rewrite list_elem_of_omap. split.
    + intros (x & [i Hi]%list_elem_of_lookup & Hx). simpl in Hx. subst x.
      rewrite list_lookup_imap in Hi.
      destruct (Player.tokens player !! i) as [token|] eqn:Htoken; [|done]. simpl in Hi.
      destruct (movable d token) eqn:Hmov; [|done]. injection Hi as <-. simpl.
      exists token. by rewrite <- movable_spec.
    + intros (token & Htoken & Hid & Hmov%movable_spec).
      exists (Some mv). split; [|done]. apply list_elem_of_lookup.
      exists (ValidMove.tokenIndex mv). rewrite list_lookup_imap, Htoken. simpl.
      rewrite Hmov, <- Hid. by destruct mv.
  - apply (validMoves_length d (λ i, i)).
Qed.

Lemma getValidMovesLocal_spec_witness :
  ∃ moves, getValidMovesLocal overshoot_state = Some moves ∧
    (∀ mv, mv ∈ moves ↔
       ∃ token,
         [Token.mk "red_0" ACTIVE (-1) 4 57; baseToken "red_1"; baseToken "red_2";
          baseToken "red_3"] !! ValidMove.tokenIndex mv = Some token ∧
         ValidMove.tokenId mv = Token.id token ∧
         ((Token.state token = BASE ∧ 6 = 6)
          ∨ (Token.state token = ACTIVE ∧ Token.stepsFromStart token + 6 <= 58))) ∧
    length moves
    = length (filter (λ token, movable 6 token = true)
                [Token.mk "red_0" ACTIVE (-1) 4 57; baseToken "red_1"; baseToken "red_2";
                 baseToken "red_3"]).
Proof.
  apply (getValidMovesLocal_spec overshoot_state
           (redPlayer [Token.mk "red_0" ACTIVE (-1) 4 57; baseToken "red_1";
                       baseToken "red_2"; baseToken "red_3"]) 6).
  - reflexivity.
  - reflexivity.
  - lia.
Defined.

(** ** The board as it is drawn *)

Lemma onBoard_enumerated (l : Location) : onBoard l → l ∈ allLocations.
Proof.
  intros H. unfold allLocations. rewrite !elem_of_app.
  destruct l as [position|color k|color i|]; cbn [onBoard] in H.
  - left. apply list_elem_of_fmap_2, elem_of_seqZ. lia.
  - destruct H as [Hc Hk]. right. left. apply list_elem_of_bind. exists color.
    split; [|done]. apply list_elem_of_fmap_2, elem_of_seqZ. lia.
  - destruct H as [Hc Hi]. right. right. left. apply list_elem_of_bind. exists color.
    split; [|done]. apply list_elem_of_fmap_2, elem_of_seqZ. lia.
  - do 3 right. apply list_elem_of_here.
Qed.

Lemma allLocations_cells : NoDup (cellOf <$> allLocations).
Proof. refine (bool_decide_unpack _ _). vm_compute. exact I. Qed.

Lemma allLocations_checked :
  forallb (λ l,
    let cell := cellOf l in
    bool_decide (0 <= row cell <= 14) && bool_decide (0 <= col cell <= 14)
    && bool_decide (GameBoard.getCellType (row cell) (col cell) = classOf l)
    && bool_decide (GameBoard.isBaseInterior (row cell) (col cell)
                    = match l with AtBase _ _ => true | _ => false end)
    && bool_decide (GameBoard.isSafeSquare (row cell) (col cell)
                    = match l with
                      | OnTrack position => bool_decide (position ∈ SAFE_SQUARES)
                      | _ => false
                      end)) allLocations = true.
Proof. vm_compute. reflexivity. Qed.

Lemma cellOf_inj (l1 l2 : Location) :
  onBoard l1 → onBoard l2 → cellOf l1 = cellOf l2 → l1 = l2.
Proof.
  intros [i1 Hi1]%onBoard_enumerated%list_elem_of_lookup
         [i2 Hi2]%onBoard_enumerated%list_elem_of_lookup Heq.
  assert (i1 = i2) as ->; [|congruence].
  eapply (NoDup_lookup _ _ _ _ allLocations_cells); rewrite list_lookup_fmap.
  - by rewrite Hi1.
  - by rewrite Hi2, Heq.
Qed.

Lemma cellOf_checked (l : Location) :
  onBoard l →
  (0 <= row (cellOf l) <= 14 ∧ 0 <= col (cellOf l) <= 14) ∧
  GameBoard.getCellType (row (cellOf l)) (col (cellOf l)) = classOf l ∧
  GameBoard.isBaseInterior (row (cellOf l)) (col (cellOf l))
  = match l with AtBase _ _ => true | _ => false end ∧
  GameBoard.isSafeSquare (row (cellOf l)) (col (cellOf l))
  = match l with
    | OnTrack position => bool_decide (position ∈ SAFE_SQUARES)
    | _ => false
    end.
Proof.
  intros H%onBoard_enumerated.
  pose proof allLocations_checked as Hall. rewrite forallb_forall in Hall.
  apply list_elem_of_In, Hall in H.
  rewrite !andb_true_iff, !bool_decide_eq_true in H. tauto.
Qed.

(** X17. The board draws every location on a cell of its own: the 52
    track cells, the five home-stretch cells and the four base cells of
    each of the four colours, and the centre where home tokens go, are
    89 different cells of the 15 by 15 grid.  ([getBoardCoordinates],
    [getHomeStretchCoordinates] and [getBaseCoordinates] never send two
    of them to the same cell, and none of them to the centre.) *)
Theorem cells_are_distinct (l1 l2 : Location) :
  onBoard l1 → onBoard l2 →
  cellOf l1 = cellOf l2 →
  l1 = l2 ∧ 0 <= row (cellOf l1) <= 14 ∧ 0 <= col (cellOf l1) <= 14.
Proof.
  intros H1 H2 Heq. split; [by apply cellOf_inj|]. by apply cellOf_checked.
Qed.

Lemma cells_are_distinct_witness :
  OnTrack 0 = OnTrack 0
  ∧ 0 <= row (cellOf (OnTrack 0)) <= 14 ∧ 0 <= col (cellOf (OnTrack 0)) <= 14.
Proof.
  apply (cells_are_distinct (OnTrack 0) (OnTrack 0)).
  - simpl. lia.
  - simpl. lia.
  - reflexivity.
Defined.

(** X18. The board paints every location as what it is: a track cell
    gets the class [cell-path], a stretch or base cell the stretch or
    base class of its colour and the centre [cell-home-center]; the
    base-interior marker is on exactly the base cells; and the star of
    [isSafeSquare] is on exactly the cells of the engine's
    [SAFE_SQUARES], so what the board shows as safe is where
    [checkCapture] refuses to capture. *)
Theorem cells_are_painted (l : Location) :
  onBoard l →
  GameBoard.getCellType (row (cellOf l)) (col (cellOf l)) = classOf l ∧
  GameBoard.isBaseInterior (row (cellOf l)) (col (cellOf l))
  = match l with AtBase _ _ => true | _ => false end ∧
  GameBoard.isSafeSquare (row (cellOf l)) (col (cellOf l))
  = match l with
    | OnTrack position => bool_decide (position ∈ SAFE_SQUARES)
    | _ => false
    end.
Proof.
  intros H. by destruct (cellOf_checked l H) as (_ & ? & ? & ?).
Qed.

Lemma cells_are_painted_witness :
  GameBoard.getCellType (row (cellOf (InStretch "green" 2))) (col (cellOf (InStretch "green" 2)))
  = classOf (InStretch "green" 2) ∧
  GameBoard.isBaseInterior (row (cellOf (InStretch "green" 2)))
    (col (cellOf (InStretch "green" 2))) = false ∧
  GameBoard.isSafeSquare (row (cellOf (InStretch "green" 2)))
    (col (cellOf (InStretch "green" 2))) = false.
Proof.
  apply (cells_are_painted (InStretch "green" 2)). simpl. split; [|lia].
  unfold defaultColors. apply list_elem_of_further, list_elem_of_here.
Defined.

Lemma tokenCoordinate_cellOf (color : string) (tokenIdx : nat) (token : Token.t) :
  GameBoard.tokenCoordinate color tokenIdx token = cellOf (locationOf color tokenIdx token).
Proof.
  unfold GameBoard.tokenCoordinate, locationOf.
  destruct (Token.state token); [done| |done]. by case_bool_decide.
Qed.

Lemma entered_fairly_reachable : fairly_reachable entered_state.
Proof.
  eapply game_called.
  - eapply game_called.
    + apply (game_created _ (mkGameConfig 2 [] []) (constWorld 0));
        [by apply constWorld_ok|reflexivity].
    + apply (call_roll _ _ (constWorld 5)); [by apply constWorld_ok|reflexivity].
  - apply (call_move _ _ "red_0"); [|vm_compute; reflexivity].
    eexists. split; [reflexivity|]. simpl. apply list_elem_of_here.
Qed.



(** ** The animation path *)

Lemma stepCoordinate_cellAtStep (color : string) (startPos s : Z) :
  0 <= startPos → 0 <= s <= 57 →
  GameBoard.stepCoordinate color startPos s = Some (cellAtStep color startPos s).
Proof.
  intros Hstart Hs. unfold GameBoard.stepCoordinate, cellAtStep, GameBoard.MAIN_TRACK_SIZE.
  case_bool_decide as Hgt.
  - rewrite decide_False by lia.
    rewrite !bool_decide_eq_true_2 by lia. simpl.
    by replace (s - 52 - 1) with (s - 53) by lia.
  - rewrite decide_True by lia. by rewrite Z.rem_mod_nonneg by lia.
Qed.

Lemma tokenCoordinate_cellAtStep (color : string) (startPos : Z) (tokenIdx : nat)
    (token : Token.t) :
  located startPos token →
  Token.state token = ACTIVE →
  GameBoard.tokenCoordinate color tokenIdx token
  = cellAtStep color startPos (Token.stepsFromStart token).
Proof.
  unfold located, GameBoard.tokenCoordinate, cellAtStep. intros Hloc Hst.
  rewrite Hst in *. destruct Hloc as (H0 & _ & Hloc). case_decide.
  - destruct Hloc as [Hhs ->]. by rewrite bool_decide_eq_false_2 by lia.
  - destruct Hloc as [_ Hhs]. rewrite bool_decide_eq_true_2 by lia. by rewrite Hhs.
Qed.

Lemma steps_adjacent :
  forallb (λ cfg,
    forallb (λ s, adjacent (cellAtStep (cfg_color cfg) (cfg_startPos cfg) s)
                           (cellAtStep (cfg_color cfg) (cfg_startPos cfg) (s + 1)))
            (seqZ 0 57)) PLAYER_CONFIGS = true.
Proof. vm_compute. reflexivity. Qed.

Lemma cellAtStep_adjacent (p : Player.t) (s : Z) :
  configured p → Player.color p ∈ defaultColors → 0 <= s < 57 →
  adjacent (cellAtStep (Player.color p) (Player.startPos p) s)
           (cellAtStep (Player.color p) (Player.startPos p) (s + 1)) = true.
Proof.
  intros (cfg & Hcfg & -> & _ & Hcolor) Hknown Hs. rewrite <- (Hcolor Hknown).
  pose proof steps_adjacent as Hall. rewrite forallb_forall in Hall.
  apply list_elem_of_In, Hall in Hcfg. rewrite forallb_forall in Hcfg.
  apply Hcfg, list_elem_of_In, elem_of_seqZ. lia.
Qed.

Lemma omap_total {A B : Type} (f : A → option B) (g : A → B) (l : list A) :
  Forall (λ x, f x = Some (g x)) l → omap f l = g <$> l.
Proof.
  induction 1 as [|x l Hx _ IH]; [done|]. simpl. rewrite Hx. simpl. f_equal. apply IH.
Qed.

(** X20. The path the board animates a move along is the token's way,
    cell by cell.  For a player with one of the four colours and a token
    that was active before the move with [prev] steps and is active
    after it with [curr] steps, [prev <= curr <= 57], the views of both
    tokens agreeing with their steps: [computeIntermediateSteps] returns
    one cell per step made; starting from the cell the token was drawn
    on, each cell touches the next (across the corners of the track and
    into the home stretch); and the last cell is where the token is
    drawn after the move. *)
Theorem animation_follows_the_track (p : Player.t) (tokenIdx : nat)
    (prevToken currToken : Token.t) :
  configured p →
  Player.color p ∈ defaultColors →
  located (Player.startPos p) prevToken →
  located (Player.startPos p) currToken →
  Token.state prevToken = ACTIVE →
  Token.state currToken = ACTIVE →
  Token.stepsFromStart prevToken <= Token.stepsFromStart currToken <= 57 →
  let path := GameBoard.computeIntermediateSteps prevToken currToken
                (Player.color p) (Player.startPos p) in
  let before := GameBoard.tokenCoordinate (Player.color p) tokenIdx prevToken in
  let after := GameBoard.tokenCoordinate (Player.color p) tokenIdx currToken in
  length path = Z.to_nat (Token.stepsFromStart currToken - Token.stepsFromStart prevToken) ∧
  walk (before :: path) ∧
  last (before :: path) = Some after.
Proof.
  intros Hconf Hknown Hlocp Hlocc Hstp Hstc Hsteps path before after.
  assert (Hstart : 0 <= Player.startPos p).
  { destruct Hconf as (cfg & Hcfg%PLAYER_CONFIGS_startPos%start_range & -> & _). lia. }
  assert (Hprev : 0 <= Token.stepsFromStart prevToken).
  { unfold located in Hlocp. rewrite Hstp in Hlocp. apply Hlocp. }
  set (a := Token.stepsFromStart prevToken) in *.
  set (b := Token.stepsFromStart currToken) in *.
  set (cell := cellAtStep (Player.color p) (Player.startPos p)).
  assert (Hpath : path = cell <$> seqZ (a + 1) (b - a)).
  { unfold path, GameBoard.computeIntermediateSteps. rewrite Hstp, Hstc. simpl.
    apply omap_total, Forall_forall. intros s Hs%elem_of_seqZ.
    apply stepCoordinate_cellAtStep; lia. }
  assert (Hall : before :: path = cell <$> seqZ a (b - a + 1)).
  { rewrite Hpath. unfold before.
    rewrite (tokenCoordinate_cellAtStep _ (Player.startPos p)) by done.
    rewrite (seqZ_cons a) by lia. simpl. f_equal. f_equal. f_equal; lia. }
  assert (Hlookup : ∀ j c, (before :: path) !! j = Some c →
            0 <= Z.of_nat j <= b - a ∧ c = cell (a + Z.of_nat j)).
  { intros j c. rewrite Hall, list_lookup_fmap.
    destruct (seqZ a (b - a + 1) !! j) as [x|] eqn:Hx; [|done].
    apply lookup_seqZ in Hx as [-> Hj]. intros [= <-]. split; [lia|done]. }
  split; [|split].
  - rewrite Hpath, length_fmap, length_seqZ. done.
  - intros j c1 c2 [Hj1 ->]%Hlookup [Hj2 ->]%Hlookup.
    replace (a + Z.of_nat (S j)) with (a + Z.of_nat j + 1) by lia.
    apply cellAtStep_adjacent; [done..|lia].
  - rewrite last_lookup, Hall, length_fmap, length_seqZ, list_lookup_fmap.
    unfold after. rewrite (tokenCoordinate_cellAtStep _ (Player.startPos p)) by done.
    assert (seqZ a (b - a + 1) !! pred (Z.to_nat (b - a + 1)) = Some b) as ->; [|done].
    apply lookup_seqZ. split; lia.
Qed.

Lemma animation_follows_the_track_witness :
  length (GameBoard.computeIntermediateSteps
            (Token.mk "green_0" ACTIVE 11 (-1) 50) (Token.mk "green_0" ACTIVE (-1) 2 55)
            "green" 13)
  = Z.to_nat (55 - 50) ∧
  walk (GameBoard.tokenCoordinate "green" 0 (Token.mk "green_0" ACTIVE 11 (-1) 50)
        :: GameBoard.computeIntermediateSteps
             (Token.mk "green_0" ACTIVE 11 (-1) 50) (Token.mk "green_0" ACTIVE (-1) 2 55)
             "green" 13) ∧
  last (GameBoard.tokenCoordinate "green" 0 (Token.mk "green_0" ACTIVE 11 (-1) 50)
        :: GameBoard.computeIntermediateSteps
             (Token.mk "green_0" ACTIVE 11 (-1) 50) (Token.mk "green_0" ACTIVE (-1) 2 55)
             "green" 13)
  = Some (GameBoard.tokenCoordinate "green" 0 (Token.mk "green_0" ACTIVE (-1) 2 55)).
Proof.
  apply (animation_follows_the_track (greenPlayer []) 0
           (Token.mk "green_0" ACTIVE 11 (-1) 50) (Token.mk "green_0" ACTIVE (-1) 2 55)).
  - exists (mkPlayerConfig "green" "Green" 13 11). split; [|done].
    apply list_elem_of_further, list_elem_of_here.
  - apply list_elem_of_further, list_elem_of_here.
  - unfold located. simpl. split; [lia|]. split; [lia|]. split; reflexivity.
  - unfold located. simpl. split; [lia|]. split; [lia|]. split; reflexivity.
  - reflexivity.
  - reflexivity.
  - simpl. lia.
Defined.

(** ** The colour picker of the setup screen *)

Lemma existingIndex_Some (playerColors : list (option string)) (playerCount index : nat)
    (colorId : string) (e : nat) :
  fst <$> list_find (λ ic : nat * option string,
                       ic.1 ≠ index ∧ (ic.1 < playerCount)%nat ∧ ic.2 = Some colorId)
            (imap pair playerColors) = Some e →
  e ≠ index ∧ (e < playerCount)%nat ∧ playerColors !! e = Some (Some colorId).
Proof.
  destruct (list_find _ _) as [[k [e' c]]|] eqn:Hfind; [|done]. simpl. intros [= <-].
  apply list_find_Some in Hfind as (Hk & (Hne & Hlt & Hc) & _). simpl in *.
  rewrite list_lookup_imap in Hk.
  destruct (playerColors !! k) as [c'|] eqn:Hc'; [|done].
  simpl in Hk. injection Hk as <- <-. by subst c'.
Qed.

Lemma existingIndex_None (playerColors : list (option string)) (playerCount index : nat)
    (colorId : string) (j : nat) :
  fst <$> list_find (λ ic : nat * option string,
                       ic.1 ≠ index ∧ (ic.1 < playerCount)%nat ∧ ic.2 = Some colorId)
            (imap pair playerColors) = None →
  j ≠ index → (j < playerCount)%nat → playerColors !! j ≠ Some (Some colorId).
Proof.
  destruct (list_find _ _) as [|] eqn:Hfind; [done|]. intros _ Hne Hlt Hj.
  rewrite list_find_None, Forall_forall in Hfind.
  apply (Hfind (j, Some colorId)); [|done].
  apply list_elem_of_lookup. exists j. by rewrite list_lookup_imap, Hj.
Qed.

(** X21. The colour picker keeps the players' colours different.  When
    the seats in play ([index < playerCount], all present in the array)
    have pairwise different colours and the player at [index] picks
    [colorId], the array passed on has the same length, [colorId] at
    [index], unchanged entries beyond the seats in play, and again
    pairwise different colours on the seats in play: a seat in play that
    held [colorId] receives the colour [index] gives up. *)
Theorem handleColorChange_keeps_distinct (playerColors : list (option string))
    (playerCount index : nat) (colorId : string) :
  (index < playerCount ≤ length playerColors)%nat →
  NoDup (take playerCount playerColors) →
  let newColors := SetupScreen.handleColorChange playerColors playerCount index colorId in
  length newColors = length playerColors ∧
  newColors !! index = Some (Some colorId) ∧
  drop playerCount newColors = drop playerCount playerColors ∧
  NoDup (take playerCount newColors) ∧
  (∀ e, e ≠ index → (e < playerCount)%nat → playerColors !! e = Some (Some colorId) →
        newColors !! e = playerColors !! index).
Proof.
  intros [Hindex Hcount] Hnodup newColors.
  assert (Hold : ∀ i j x, (i < playerCount)%nat → (j < playerCount)%nat →
            playerColors !! i = Some x → playerColors !! j = Some x → i = j).
  { intros i j x Hi Hj Hix Hjx.
    eapply (NoDup_lookup _ _ _ x Hnodup); by rewrite lookup_take_lt. }
  destruct (lookup_lt_is_Some_2 playerColors index ltac:(lia)) as [mine Hmine].
  unfold SetupScreen.handleColorChange in newColors. cbv zeta in newColors.
  destruct (fst <$> list_find _ (imap pair playerColors)) as [e|] eqn:Hfind.
  - apply existingIndex_Some in Hfind as (Hne & He & Hec).
    assert (Hnew : newColors = <[index := Some colorId]> (<[e := mine]> playerColors)).
    { unfold newColors, SetupScreen.arrayWrite. rewrite Hmine. simpl.
      rewrite (decide_True (P := (e < length playerColors)%nat)) by lia.
      rewrite decide_True; [done|]. rewrite length_insert. lia. }
    assert (Hget : ∀ j, (j < length playerColors)%nat →
              newColors !! j = if decide (j = index) then Some (Some colorId)
                               else if decide (j = e) then Some mine
                               else playerColors !! j).
    { intros j Hj. rewrite Hnew. case_decide as Hji.
      - subst j. apply list_lookup_insert_eq. by rewrite length_insert.
      - rewrite list_lookup_insert_ne by done. case_decide as Hje.
        + subst j. by apply list_lookup_insert_eq.
        + by rewrite list_lookup_insert_ne. }
    split; [by rewrite Hnew, !length_insert|].
    split; [rewrite Hget by lia; by rewrite decide_True|].
    split.
    { rewrite Hnew. rewrite !drop_insert_lt by lia. done. }
    split.
    + apply NoDup_alt. intros i j x Hi Hj.
      pose proof (lookup_lt_Some _ _ _ Hi) as Hilt. pose proof (lookup_lt_Some _ _ _ Hj) as Hjlt.
      rewrite length_take in Hilt, Hjlt.
      assert (Hip : (i < playerCount)%nat) by lia.
      assert (Hjp : (j < playerCount)%nat) by lia.
      rewrite lookup_take_lt in Hi, Hj by lia. rewrite Hget in Hi, Hj by lia.
      destruct (decide (i = index)) as [->|Hii]; destruct (decide (j = index)) as [->|Hji];
        [done| | |].
      * injection Hi as <-. destruct (decide (j = e)) as [->|Hje].
        -- injection Hj as ->. destruct Hne. by eapply (Hold e index (Some colorId)).
        -- destruct Hje. by eapply (Hold j e (Some colorId)).
      * injection Hj as <-. destruct (decide (i = e)) as [->|Hie].
        -- injection Hi as ->. destruct Hne. by eapply (Hold e index (Some colorId)).
        -- destruct Hie. by eapply (Hold i e (Some colorId)).
      * destruct (decide (i = e)) as [->|Hie]; destruct (decide (j = e)) as [->|Hje];
          [done| | |].
        -- injection Hi as <-. destruct Hji. by eapply (Hold j index mine).
        -- injection Hj as <-. destruct Hii. by eapply (Hold i index mine).
        -- by eapply (Hold i j x).
    + intros e' Hne' He' Hec'. assert (e' = e) as -> by (by eapply (Hold e' e (Some colorId))).
      rewrite Hget by lia. rewrite decide_False by done. by rewrite decide_True.
  - pose proof (λ j, existingIndex_None _ _ _ _ j Hfind) as Hfree. clear Hfind.
    assert (Hnew : newColors = <[index := Some colorId]> playerColors).
    { unfold newColors, SetupScreen.arrayWrite. by rewrite decide_True by lia. }
    split; [by rewrite Hnew, length_insert|].
    split; [rewrite Hnew; apply list_lookup_insert_eq; lia|].
    split; [rewrite Hnew; by rewrite drop_insert_lt by lia|].
    split.
    + apply NoDup_alt. intros i j x Hi Hj.
      pose proof (lookup_lt_Some _ _ _ Hi) as Hilt. pose proof (lookup_lt_Some _ _ _ Hj) as Hjlt.
      rewrite length_take in Hilt, Hjlt.
      assert (Hip : (i < playerCount)%nat) by lia.
      assert (Hjp : (j < playerCount)%nat) by lia.
      rewrite lookup_take_lt in Hi, Hj by lia. rewrite Hnew in Hi, Hj.
      destruct (decide (i = index)) as [->|Hi']; destruct (decide (j = index)) as [->|Hj'];
        [done| | |].
      * rewrite list_lookup_insert_eq in Hi by lia. injection Hi as <-.
        rewrite list_lookup_insert_ne in Hj by done. destruct (Hfree j); [done|lia|done].
      * rewrite list_lookup_insert_eq in Hj by lia. injection Hj as <-.
        rewrite list_lookup_insert_ne in Hi by done. destruct (Hfree i); [done|lia|done].
      * rewrite list_lookup_insert_ne in Hi, Hj by done. by eapply (Hold i j x); try lia.
    + intros e Hne He Hec. destruct (Hfree e); [done|lia|done].
Qed.

Lemma handleColorChange_keeps_distinct_witness :
  length (SetupScreen.handleColorChange
            [Some "red"; Some "green"; Some "yellow"; Some "blue"] 3 0 "yellow")
  = length [Some "red"; Some "green"; Some "yellow"; Some "blue"] ∧
  SetupScreen.handleColorChange
    [Some "red"; Some "green"; Some "yellow"; Some "blue"] 3 0 "yellow" !! 0%nat
  = Some (Some "yellow") ∧
  drop 3 (SetupScreen.handleColorChange
            [Some "red"; Some "green"; Some "yellow"; Some "blue"] 3 0 "yellow")
  = drop 3 [Some "red"; Some "green"; Some "yellow"; Some "blue"] ∧
  NoDup (take 3 (SetupScreen.handleColorChange
                   [Some "red"; Some "green"; Some "yellow"; Some "blue"] 3 0 "yellow")) ∧
  (∀ e, e ≠ 0%nat → (e < 3)%nat →
        [Some "red"; Some "green"; Some "yellow"; Some "blue"] !! e = Some (Some "yellow") →
        SetupScreen.handleColorChange
          [Some "red"; Some "green"; Some "yellow"; Some "blue"] 3 0 "yellow" !! e
        = [Some "red"; Some "green"; Some "yellow"; Some "blue"] !! 0%nat).
Proof.
  apply (handleColorChange_keeps_distinct
           [Some "red"; Some "green"; Some "yellow"; Some "blue"] 3 0 "yellow").
  - simpl. lia.
  - refine (bool_decide_unpack _ _). vm_compute. exact I.
Defined.

(** ** Moves that are made *)

(** X22. A valid move is always made.  In a game that is on, a token
    id listed by [getValidMovesLocal] is never rejected by
    [moveLocalToken]: the call returns a state in the roll phase with no
    die, and the move is recorded at the end of [moveHistory] with the
    mover, the token id and the die value. *)
Theorem valid_moves_are_applied (s : GameState.t) (tokenId : string) :
  reachable s →
  GameState.gameOver s = false →
  valid_token s tokenId →
  ∃ s', moveLocalToken s tokenId = Some s' ∧
    GameState.moveHistory s'
    = (GameState.moveHistory s
       ++ [MoveRecord.mk (GameState.currentPlayerIndex s) tokenId (GameState.diceValue s)])%list ∧
    GameState.turnPhase s' = Roll ∧ GameState.diceValue s' = None.
Proof.
  intros Hs Hover Hvalid.
  pose proof (inv_current s (game_state_inv _ _ Hs)) as Hcur.
  destruct (moveLocalToken_is_Some s tokenId Hcur) as [s' Hmove].
  exists s'. split; [done|].
  destruct (valid_move_settles s tokenId s' (game_state_game_inv _ _ Hs) Hcur Hover Hvalid Hmove)
    as (k & oc & Hsettle).
  by apply settleMove_inv in Hsettle as (up & next & message & _ & _ & ->).
Qed.

Lemma valid_moves_are_applied_witness :
  ∃ s', moveLocalToken overshoot_state "red_2" = Some s' ∧
    GameState.moveHistory s'
    = (GameState.moveHistory overshoot_state
       ++ [MoveRecord.mk (GameState.currentPlayerIndex overshoot_state) "red_2"
             (GameState.diceValue overshoot_state)])%list ∧
    GameState.turnPhase s' = Roll ∧ GameState.diceValue s' = None.
Proof.
  apply (valid_moves_are_applied overshoot_state "red_2").
  - apply overshoot_reachable.
  - reflexivity.
  - eexists. split; [reflexivity|]. simpl.
    apply list_elem_of_further, list_elem_of_here.
Defined.

(** X23. Who plays after a move.  In a game that is on, after a move
    that is made (not rejected) the mover plays again when the die was a
    six ([hasExtraTurn]), when the move captured a token or when it
    ended the game; otherwise the turn goes to the next seat.  The count
    of consecutive sixes is kept when the mover keeps the turn by a six
    or a capture, and reset otherwise. *)
Theorem turn_after_move (s : GameState.t) (tokenId : string) (player : Player.t)
    (k : nat) (token : Token.t) (oc : Outcome) (s' : GameState.t) :
  reachable s →
  GameState.gameOver s = false →
  GameState.players s !! GameState.currentPlayerIndex s = Some player →
  list_find (λ t, Token.id t = tokenId) (Player.tokens player) = Some (k, token) →
  moveOutcome s (GameState.currentPlayerIndex s) player token = Some oc →
  moveLocalToken s tokenId = Some s' →
  GameState.currentPlayerIndex s'
  = (if GameState.gameOver s' || GameState.hasExtraTurn s
        || bool_decide (oc_captured oc ≠ None)
     then GameState.currentPlayerIndex s
     else ((GameState.currentPlayerIndex s + 1) `mod` length (GameState.players s))%nat) ∧
  GameState.consecutiveSixes s'
  = (if GameState.hasExtraTurn s || bool_decide (oc_captured oc ≠ None)
     then GameState.consecutiveSixes s else 0).
Proof.
  intros Hs Hover Hplayer Hfind Hoc Hmove.
  assert (Hs' : reachable s').
  { eapply game_called; [done|]. by eapply call_move. }
  pose proof (game_state_inv _ _ Hs') as He'.
  pose proof (inv_current s (game_state_inv _ _ Hs)) as Hcur.
  rewrite (moveLocalToken_settle s tokenId player k token oc) in Hmove by done.
  pose proof (settleMove_length _ _ _ _ _ Hmove) as Hlen.
  pose proof (settleMove_inv _ _ _ _ _ Hmove) as (up & next & msg & _ & Hnext & Heq).
  cbv zeta in Hnext, Heq.
  pose proof (f_equal GameState.players Heq) as Hpl.
  pose proof (f_equal GameState.gameOver Heq) as Hgo.
  pose proof (f_equal GameState.currentPlayerIndex Heq) as Hc.
  pose proof (f_equal GameState.consecutiveSixes Heq) as Hsix.
  simpl in Hpl, Hgo, Hc, Hsix. rewrite <- Hgo, <- Hpl in Hnext. rewrite Hc, Hsix.
  clear Heq Hpl Hgo Hc Hsix. split; [|done].
  destruct (GameState.gameOver s') eqn:Hover'; simpl in *; [done|].
  destruct (GameState.hasExtraTurn s || bool_decide (oc_captured oc ≠ None)); simpl in *;
    [done|].
  rewrite getNextPlayerIndex_unfinished in Hnext.
  - simpl in Hnext. rewrite Hlen in Hnext. by injection Hnext as <-.
  - simpl. by rewrite Hlen.
  - simpl. by apply He'.
Qed.

Lemma turn_after_move_witness :
  GameState.currentPlayerIndex
    (default initial_state (moveLocalToken (rolledState contested_state 3) "red_0"))
  = 0%nat ∧
  GameState.consecutiveSixes
    (default initial_state (moveLocalToken (rolledState contested_state 3) "red_0"))
  = 0.
Proof.
  pose (oc := default (mkOutcome (baseToken "") None "")
                (moveOutcome (rolledState contested_state 3) 0
                   (redPlayer [Token.mk "red_0" ACTIVE 11 (-1) 11;
                               baseToken "red_1"; baseToken "red_2"; baseToken "red_3"])
                   (Token.mk "red_0" ACTIVE 11 (-1) 11))).
  destruct (turn_after_move (rolledState contested_state 3) "red_0"
              (redPlayer [Token.mk "red_0" ACTIVE 11 (-1) 11;
                          baseToken "red_1"; baseToken "red_2"; baseToken "red_3"])
              0 (Token.mk "red_0" ACTIVE 11 (-1) 11) oc
              (default initial_state (moveLocalToken (rolledState contested_state 3) "red_0")))
    as [Hturn Hsix];
    [apply contested_rolled_reachable|reflexivity|reflexivity|reflexivity|reflexivity
    |vm_compute; reflexivity|].
  split; [exact Hturn|exact Hsix].
Defined.

(** ** Turn order *)

(** X24. [getNextPlayerIndex] on any state whose current player index
    names a player returns a player index: the first seat after the
    current one, going round the table, whose player is not marked
    finished; when every player is finished, the current seat itself. *)
Theorem getNextPlayerIndex_next_unfinished (s : GameState.t) :
  (GameState.currentPlayerIndex s < length (GameState.players s))%nat →
  ∃ r, getNextPlayerIndex s = Some r ∧
    (r < length (GameState.players s))%nat ∧
    ((∃ j, (j < length (GameState.players s))%nat ∧
           r = ((GameState.currentPlayerIndex s + 1 + j)
                `mod` length (GameState.players s))%nat ∧
           (∃ p, GameState.players s !! r = Some p ∧ Player.hasFinished p = false) ∧
           ∀ j', (j' < j)%nat →
             ∃ p, GameState.players s
                    !! ((GameState.currentPlayerIndex s + 1 + j')
                        `mod` length (GameState.players s))%nat = Some p
                  ∧ Player.hasFinished p = true)
     ∨ (r = GameState.currentPlayerIndex s ∧
        ∀ p, p ∈ GameState.players s → Player.hasFinished p = true)).
Proof.
  intros Hcur. destruct (getNextPlayerIndex_spec s Hcur) as (r & Hr & Hlt & Hcases).
  exists r. split; [done|]. split; [done|]. exact Hcases.
Qed.

Lemma getNextPlayerIndex_next_unfinished_witness :
  ∃ r, getNextPlayerIndex home_run_won = Some r ∧
    (r < length (GameState.players home_run_won))%nat ∧
    ((∃ j, (j < length (GameState.players home_run_won))%nat ∧
           r = ((GameState.currentPlayerIndex home_run_won + 1 + j)
                `mod` length (GameState.players home_run_won))%nat ∧
           (∃ p, GameState.players home_run_won !! r = Some p ∧ Player.hasFinished p = false) ∧
           ∀ j', (j' < j)%nat →
             ∃ p, GameState.players home_run_won
                    !! ((GameState.currentPlayerIndex home_run_won + 1 + j')
                        `mod` length (GameState.players home_run_won))%nat = Some p
                  ∧ Player.hasFinished p = true)
     ∨ (r = GameState.currentPlayerIndex home_run_won ∧
        ∀ p, p ∈ GameState.players home_run_won → Player.hasFinished p = true)).
Proof.
  apply (getNextPlayerIndex_next_unfinished home_run_won). vm_compute. lia.
Defined.

(** ** Colours and token ids *)

Lemma identity_colors (l l' : list Player.t) :
  identity <$> l' = identity <$> l → Player.color <$> l' = Player.color <$> l.
Proof.
  intros H.
  transitivity ((λ x : nat * option string * string * Z * Z * list string, x.1.1.1.2)
                  <$> (identity <$> l')); [by rewrite <- list_fmap_compose|].
  rewrite H. by rewrite <- list_fmap_compose.
Qed.

Lemma later_colors (s s' : GameState.t) :
  later_state s s' →
  Player.color <$> GameState.players s' = Player.color <$> GameState.players s.
Proof.
  induction 1 as [|s1 s2 _ IH Hcall]; [done|]. rewrite <- IH. apply identity_colors.
  destruct Hcall as [w s2 _ Hroll|tokenId s2 _ Hmove];
    [by eapply roll_identity|by eapply move_identity].
Qed.

Lemma later_inv (s s' : GameState.t) :
  engine_inv s → game_inv s → later_state s s' → engine_inv s' ∧ game_inv s'.
Proof.
  intros He Hg. induction 1 as [|s1 s2 _ [He1 Hg1] Hcall]; [done|].
  destruct Hcall as [w s2 Hw Hroll|tokenId s2 _ Hmove].
  - split; [by eapply engine_inv_roll|by eapply game_inv_roll].
  - split; [by eapply engine_inv_move|by eapply game_inv_move].
Qed.

Lemma created_colors (config : GameConfig) (players : list Player.t) :
  mapM (newPlayer config) (seq 0 (playerCount config)) = Some players →
  (playerCount config ≤ length (playerColors config))%nat →
  (∀ c, c ∈ take (playerCount config) (playerColors config) → c ∈ defaultColors) →
  Player.color <$> players = take (playerCount config) (playerColors config).
Proof.
  intros Hplayers Hcount Hknown.
  pose proof (length_mapM _ _ _ Hplayers) as Hlen. rewrite length_seq in Hlen.
  apply list_eq. intros i. rewrite list_lookup_fmap.
  destruct (decide (i < playerCount config)%nat) as [Hi|Hi].
  - rewrite lookup_take_lt by done.
    destruct (lookup_lt_is_Some_2 players i ltac:(lia)) as [p Hp].
    destruct (lookup_lt_is_Some_2 (playerColors config) i ltac:(lia)) as [c Hc].
    rewrite Hp, Hc. simpl. f_equal.
    destruct (created_lookup _ _ _ _ Hplayers Hp) as [Hnew _].
    apply newPlayer_configured in Hnew as (_ & _ & _ & Hcolor).
    rewrite Hc in Hcolor. unfold or_else in Hcolor.
    assert (Hin : c ∈ defaultColors).
    { apply Hknown, elem_of_take. exists i. by split. }
    rewrite decide_False in Hcolor; [by injection Hcolor|].
    intros ->. unfold defaultColors in Hin. rewrite !elem_of_cons, elem_of_nil in Hin.
    by destruct Hin as [?|[?|[?|[?|[]]]]].
  - rewrite lookup_take_ge by lia. rewrite lookup_ge_None_2 by lia. done.
Qed.

Lemma PLAYER_CONFIGS_start (cfg cfg' : PlayerConfig) :
  cfg ∈ PLAYER_CONFIGS → cfg' ∈ PLAYER_CONFIGS →
  cfg_startPos cfg = cfg_startPos cfg' → cfg = cfg'.
Proof.
  unfold PLAYER_CONFIGS. rewrite !elem_of_cons, !elem_of_nil.
  intros [->|[->|[->|[->|[]]]]] [->|[->|[->|[->|[]]]]]; simpl; intros Heq;
    first [done|by inversion Heq].
Qed.

Lemma tokenIds_disjoint (c1 c2 : string) (y : string) :
  c1 ∈ defaultColors → c2 ∈ defaultColors →
  y ∈ tokenIds c1 → y ∈ tokenIds c2 → c1 = c2.
Proof.
  unfold defaultColors. rewrite !elem_of_cons, !elem_of_nil.
  intros [->|[->|[->|[->|[]]]]] [->|[->|[->|[->|[]]]]]; try done;
    unfold tokenIds; simpl; rewrite !elem_of_cons, !elem_of_nil;
    intros [->|[->|[->|[->|[]]]]] H; repeat destruct H as [H|H];
    first [discriminate H|destruct H].
Qed.

(** X25. Different colours make different tokens.  If the colours
    passed to [createLocalGame] for the seats in play are pairwise
    different colour names out of the four, then in the created game
    and after any number of calls the players carry exactly these
    colours in seat order, no two players share a start cell, and no two
    tokens of the whole game share an id.  (The condition is on the
    caller: [createLocalGame] does not check it.) *)
Theorem distinct_colours_distinct_tokens (config : GameConfig) (w : World)
    (s0 s : GameState.t) :
  run (createLocalGame config) w = Some s0 →
  later_state s0 s →
  (playerCount config ≤ length (playerColors config))%nat →
  NoDup (take (playerCount config) (playerColors config)) →
  (∀ c, c ∈ take (playerCount config) (playerColors config) → c ∈ defaultColors) →
  Player.color <$> GameState.players s = take (playerCount config) (playerColors config) ∧
  NoDup (Player.startPos <$> GameState.players s) ∧
  NoDup (GameState.players s ≫= λ p, Token.id <$> Player.tokens p).
Proof.
  intros Hcreate Hlater Hcount Hnodup Hknown.
  destruct (later_inv s0 s (engine_inv_created _ _ _ Hcreate) (game_inv_created _ _ _ Hcreate)
              Hlater) as [He Hg].
  assert (Hcolors : Player.color <$> GameState.players s
                    = take (playerCount config) (playerColors config)).
  { rewrite (later_colors s0 s Hlater).
    apply createLocalGame_inv in Hcreate
      as (players & first & id & message & Hplayers & _ & ->).
    simpl. by apply created_colors. }
  assert (Hin : ∀ p, p ∈ GameState.players s → Player.color p ∈ defaultColors).
  { intros p Hp. apply Hknown. rewrite <- Hcolors. by apply list_elem_of_fmap_2. }
  assert (Hsame : ∀ p1 p2, p1 ∈ GameState.players s → p2 ∈ GameState.players s →
            Player.color p1 = Player.color p2 → p1 = p2).
  { intros p1 p2 [i1 H1]%list_elem_of_lookup [i2 H2]%list_elem_of_lookup Heq.
    assert (i1 = i2) as ->; [|congruence].
    rewrite <- Hcolors in Hnodup.
    eapply (NoDup_lookup _ _ _ (Player.color p1) Hnodup); rewrite list_lookup_fmap.
    - by rewrite H1.
    - by rewrite H2, Heq. }
  assert (Hplayers : NoDup (GameState.players s)).
  { apply (NoDup_fmap_1 Player.color). by rewrite Hcolors. }
  split; [done|]. split.
  - apply NoDup_fmap_2_strong; [|done]. intros p1 p2 Hp1 Hp2 Hstart.
    apply Hsame; [done..|].
    destruct (ginv_config s Hg p1 Hp1) as (cfg1 & Hcfg1 & Hs1 & _ & Hc1).
    destruct (ginv_config s Hg p2 Hp2) as (cfg2 & Hcfg2 & Hs2 & _ & Hc2).
    rewrite <- (Hc1 (Hin p1 Hp1)), <- (Hc2 (Hin p2 Hp2)). f_equal.
    apply PLAYER_CONFIGS_start; [done..|congruence].
  - apply NoDup_bind; [|intros p Hp; rewrite (ginv_ids s Hg p Hp); apply tokenIds_NoDup|done].
    intros p1 p2 y Hp1 Hp2 Hy1 Hy2. apply Hsame; [done..|].
    rewrite (ginv_ids s Hg p1 Hp1) in Hy1. rewrite (ginv_ids s Hg p2 Hp2) in Hy2.
    eapply tokenIds_disjoint; eauto.
Qed.

Lemma distinct_colours_distinct_tokens_witness :
  Player.color <$> GameState.players entered_state = take 2 ["red"; "green"; "blue"] ∧
  NoDup (Player.startPos <$> GameState.players entered_state) ∧
  NoDup (GameState.players entered_state ≫= λ p, Token.id <$> Player.tokens p).
Proof.
  apply (distinct_colours_distinct_tokens (mkGameConfig 2 [] ["red"; "green"; "blue"])
           (constWorld 0) initial_state entered_state).
  - reflexivity.
  - apply (play_later [DoRoll 5; DoMove "red_0"]).
    + apply rolls_ok_decide. reflexivity.
    + reflexivity.
  - simpl. lia.
  - refine (bool_decide_unpack _ _). vm_compute. exact I.
  - simpl. intros c. unfold defaultColors. rewrite !elem_of_cons, !elem_of_nil.
    intros [->|[->|[]]]; auto.
Defined.
